(** * s3-multipart-upload: checkpointed multipart upload, verified model

    Shallow embedding of the checkpoint package ([New], [Save], [Complete],
    [Seek], [toS3CompletedParts]) and of the command-line driver
    ([uploadFile], [main]) that consumes it.

    The Go code talks to three collaborators: the local file system, the S3
    client of the AWS SDK and the loggers.  They are modelled by an explicit
    [World] that every operation threads; environment failures (a failing
    write, a failing request) come from a fault plan indexed by the number of
    environment calls made so far. *)

From Stdlib Require Import ZArith Lia Ascii.
From Stdlib Require DecimalString DecimalN.
From stdpp Require Import gmap strings list.

Local Open Scope Z_scope.

(* ===================================================================== *)
(** * Go runtime and standard library fragments used by the program *)
(* ===================================================================== *)

Module Go.

(** ** int64 arithmetic *)

Definition int64_min : Z := - 2 ^ 63.
Definition int64_max : Z := 2 ^ 63 - 1.

(** Two's complement wrap-around of a mathematical integer to int64. *)
Definition wrap64 (z : Z) : Z := (z + 2 ^ 63) mod 2 ^ 64 - 2 ^ 63.

Definition add64 (a b : Z) : Z := wrap64 (a + b).

Definition in_int64 (z : Z) : Prop := int64_min <= z <= int64_max.

(** ** error values

    [AwsErr] stands for the values implementing [awserr.Error] (they carry
    a code), [ErrNotExist] for the errors [errors.Is] relates to
    [os.ErrNotExist], [EOF] for [io.EOF] and [OsErr] for every other error
    of the packages [os] and [io]. *)

Inductive error : Type :=
| AwsErr (code msg : string)
| ErrNotExist
| EOF
| OsErr (msg : string).

Global Instance error_eq_dec : EqDecision error.
Proof. solve_decision. Defined.

(** ** strings *)

(** [strings.Split(s, sep)] for a one-character separator: every field,
    empty ones included; never the empty list. *)
Fixpoint strings_Split (s : string) (sep : ascii) : list string :=
  match s with
  | EmptyString => [EmptyString]
  | String c s' =>
      if decide (c = sep) then EmptyString :: strings_Split s' sep
      else match strings_Split s' sep with
           | f :: fs => String c f :: fs
           | [] => [String c EmptyString]
           end
  end.

(** [strings.TrimPrefix(s, "/")]. *)
Definition strings_TrimPrefix_slash (s : string) : string :=
  match s with
  | String "/" s' => s'
  | _ => s
  end.

(** [dropCR] of package bufio: one trailing carriage return is removed. *)
Fixpoint dropCR (s : string) : string :=
  match s with
  | EmptyString => EmptyString
  | String c EmptyString => if decide (c = "013"%char) then EmptyString else s
  | String c s' => String c (dropCR s')
  end.

Fixpoint drop_final_empty (l : list string) : list string :=
  match l with
  | [] => []
  | [EmptyString] => []
  | x :: l' => x :: drop_final_empty l'
  end.

(** The tokens a [bufio.Scanner] with [bufio.ScanLines] yields over the
    whole content of a file: the lines without their terminator, a final
    unterminated line only when it is not empty.  Lines are taken to fit
    the scanner's token limit (64 KiB), as checkpoint lines do. *)
Definition ScanLines (content : string) : list string :=
  dropCR <$> drop_final_empty (strings_Split content "010"%char).

(** ** strconv and fmt *)

(** [strconv.ParseInt(s, 10, 64)]: optional sign, at least one decimal
    digit, nothing else, value within int64; [None] is a returned error. *)
Definition parse_digits (s : string) : option Z :=
  match s with
  | EmptyString => None
  | _ => (λ d, Z.of_N (N.of_uint d)) <$> DecimalString.NilEmpty.uint_of_string s
  end.

Definition strconv_ParseInt (s : string) : option Z :=
  match s with
  | EmptyString => None
  | String c s' =>
      if decide (c = "+"%char) then
        un ← parse_digits s'; if decide (un < 2 ^ 63) then Some un else None
      else if decide (c = "-"%char) then
        un ← parse_digits s'; if decide (un <= 2 ^ 63) then Some (- un) else None
      else
        un ← parse_digits s; if decide (un < 2 ^ 63) then Some un else None
  end.

(** [fmt.Sprintf("%d", z)]. *)
Definition fmt_d (z : Z) : string :=
  DecimalString.NilZero.string_of_int (Z.to_int z).

End Go.

(* ===================================================================== *)
(** * The environment: file system, S3 service, loggers *)
(* ===================================================================== *)

(** What the program cannot decide itself.  [etag_of] is the integrity token
    the service computes for a part body, [upload_id_of n] the identifier of
    the n-th multipart upload it creates, [sha256_hex s] is
    [fmt.Sprintf("%x", sha256.Sum256([]byte(s)))], and [fault n] says whether
    the n-th call into the environment fails, and with which code. *)
Record Env : Type := {
  etag_of : list Byte.byte → string;
  upload_id_of : nat → string;
  sha256_hex : string → string;
  fault : nat → option string;
}.

(** A checkpoint file: what has been written, and what is known to be on
    stable storage (the content at the last successful [Sync]). *)
Record CkFile : Type := { data : string; synced : string }.

(** [s3.CompletedPart]: the pair sent in a completion request. *)
Record S3CompletedPart : Type := { s3_ETag : string; s3_PartNumber : Z }.

Record S3Part : Type := { part_etag : string; part_body : list Byte.byte }.

Record S3Upload : Type := {
  up_bucket : string;
  up_key : string;
  up_parts : gmap Z S3Part;
}.

(** The service: multipart uploads in progress by upload id, finished
    objects by (bucket, key), and the number of uploads created so far. *)
Record S3 : Type := {
  uploads : gmap string S3Upload;
  objects : gmap (string * string) (list Byte.byte);
  created : nat;
}.

(** The requests the client sent, with their outcome. *)
Inductive S3Call : Type :=
| CallCreate (bucket key : string) (res : Go.error + string)
| CallUploadPart (uploadId : option string) (bucket key : string)
    (partNumber : Z) (body : list Byte.byte) (res : Go.error + string)
| CallComplete (uploadId : option string) (bucket key : string)
    (parts : list S3CompletedPart) (res : option Go.error).

Inductive Level : Type := Info | Warn | Error.

Record World : Type := {
  src_files : gmap string (list Byte.byte);
  listing : gmap string (list (string * bool));
  dir_kind : gmap string bool;
  ckpt_files : gmap string CkFile;
  s3 : S3;
  calls : list S3Call;
  logs : list (Level * string);
  reads : list Z;
  ticks : nat;
}.

Definition set_dir_kind (v : gmap string bool) (w : World) : World :=
  {| src_files := src_files w; listing := listing w; dir_kind := v;
     ckpt_files := ckpt_files w; s3 := s3 w; calls := calls w;
     logs := logs w; reads := reads w; ticks := ticks w |}.

Definition set_ckpt_files (v : gmap string CkFile) (w : World) : World :=
  {| src_files := src_files w; listing := listing w; dir_kind := dir_kind w;
     ckpt_files := v; s3 := s3 w; calls := calls w;
     logs := logs w; reads := reads w; ticks := ticks w |}.

Definition set_s3 (v : S3) (w : World) : World :=
  {| src_files := src_files w; listing := listing w; dir_kind := dir_kind w;
     ckpt_files := ckpt_files w; s3 := v; calls := calls w;
     logs := logs w; reads := reads w; ticks := ticks w |}.

Definition add_call (c : S3Call) (w : World) : World :=
  {| src_files := src_files w; listing := listing w; dir_kind := dir_kind w;
     ckpt_files := ckpt_files w; s3 := s3 w; calls := calls w ++ [c];
     logs := logs w; reads := reads w; ticks := ticks w |}.

Definition add_log (l : Level) (msg : string) (w : World) : World :=
  {| src_files := src_files w; listing := listing w; dir_kind := dir_kind w;
     ckpt_files := ckpt_files w; s3 := s3 w; calls := calls w;
     logs := logs w ++ [(l, msg)]; reads := reads w; ticks := ticks w |}.

Definition add_read (n : Z) (w : World) : World :=
  {| src_files := src_files w; listing := listing w; dir_kind := dir_kind w;
     ckpt_files := ckpt_files w; s3 := s3 w; calls := calls w;
     logs := logs w; reads := reads w ++ [n]; ticks := ticks w |}.

Definition next_tick (w : World) : World :=
  {| src_files := src_files w; listing := listing w; dir_kind := dir_kind w;
     ckpt_files := ckpt_files w; s3 := s3 w; calls := calls w;
     logs := logs w; reads := reads w; ticks := S (ticks w) |}.

(** ** Outcomes of a computation

    [Ret] is a normal return; [Exit] is [os.Exit] (reached through
    [log.Fatal]); [Panic] is an unrecovered panic ([log.Panic], an index out
    of range, [make] with a negative length); [Stopped] is a loop that was
    cut after the given number of iterations. *)
Inductive Res (A : Type) : Type :=
| Ret (a : A) (w : World)
| Exit (code : Z) (w : World)
| Panic (msg : string) (w : World)
| Stopped (w : World).
Arguments Ret {A} a w.
Arguments Exit {A} code w.
Arguments Panic {A} msg w.
Arguments Stopped {A} w.

Definition M (A : Type) : Type := World → Res A.

Definition ret {A} (a : A) : M A := λ w, Ret a w.

Definition bind {A B} (m : M A) (f : A → M B) : M B :=
  λ w, match m w with
       | Ret a w' => f a w'
       | Exit c w' => Exit c w'
       | Panic msg w' => Panic msg w'
       | Stopped w' => Stopped w'
       end.

Notation "'do' x <- m ; f" := (bind m (λ x, f))
  (at level 10, x pattern, m at level 100, f at level 200,
   format "'[v' 'do'  x  <-  m ; '/' f ']'").
Notation "m ;; f" := (bind m (λ _, f))
  (at level 100, f at level 200, right associativity).

Definition modify (f : World → World) : M unit := λ w, Ret tt (f w).

Definition get {A} (f : World → A) : M A := λ w, Ret (f w) w.

Definition log_line (l : Level) (msg : string) : M unit := modify (add_log l msg).

(** [log.Fatal]: the line is printed and the process exits with status 1;
    deferred calls do not run. *)
Definition Fatal {A} (msg : string) : M A := λ w, Exit 1 (add_log Error msg w).

(** [log.Panic] and run-time panics. *)
Definition Panics {A} (msg : string) : M A := λ w, Panic msg (add_log Error msg w).

Definition error_text (e : Go.error) : string :=
  match e with
  | Go.AwsErr code msg => code +:+ ": " +:+ msg
  | Go.ErrNotExist => "file does not exist"
  | Go.EOF => "EOF"
  | Go.OsErr msg => msg
  end.

(** An open source file: its content and the cursor.  Source files are not
    modified while the program runs. *)
Record FileH : Type := { fh_data : list Byte.byte; fh_pos : Z }.

(** [filepath.Join] on two clean, non-empty components. *)
Definition filepath_Join (a b : string) : string := a +:+ "/" +:+ b.

Section Environment.
Context (env : Env).

(** Every call into the environment consults the fault plan once. *)
Definition env_call : M (option string) :=
  λ w, Ret (fault env (ticks w)) (next_tick w).

(** *** package os, on the checkpoint directory *)

Definition os_Stat (name : string) : M (Go.error + bool) :=
  do f <- env_call;
  match f with
  | Some msg => ret (inl (Go.OsErr msg))
  | None =>
      do k <- get (λ w, dir_kind w !! name);
      ret (match k with None => inl Go.ErrNotExist | Some d => inr d end)
  end.

Definition os_Mkdir (name : string) : M (option Go.error) :=
  do f <- env_call;
  match f with
  | Some msg => ret (Some (Go.OsErr msg))
  | None =>
      do k <- get (λ w, dir_kind w !! name);
      match k with
      | Some _ => ret (Some (Go.OsErr "file exists"))
      | None => modify (λ w, set_dir_kind (<[name:=true]> (dir_kind w)) w);; ret None
      end
  end.

(** [os.OpenFile(name, os.O_RDWR, 0755)]; the handle is the file's name.
    Every write of the program happens with the offset at the end of the
    file ([os.Create] starts on an empty file, and the scanner of [New]
    reads an existing one to its end), so [file_Write] appends. *)
Definition os_OpenFile (name : string) : M (Go.error + string) :=
  do f <- env_call;
  match f with
  | Some msg => ret (inl (Go.OsErr msg))
  | None =>
      do k <- get (λ w, ckpt_files w !! name);
      ret (match k with None => inl Go.ErrNotExist | Some _ => inr name end)
  end.

Definition os_Create (name : string) : M (Go.error + string) :=
  do f <- env_call;
  match f with
  | Some msg => ret (inl (Go.OsErr msg))
  | None =>
      modify (λ w, set_ckpt_files
                     (<[name:={| data := ""; synced := "" |}]> (ckpt_files w)) w);;
      ret (inr name)
  end.

Definition file_Write (h : string) (s : string) : M (option Go.error) :=
  do f <- env_call;
  match f with
  | Some msg => ret (Some (Go.OsErr msg))
  | None =>
      do k <- get (λ w, ckpt_files w !! h);
      match k with
      | None => ret (Some (Go.OsErr "file already closed"))
      | Some c =>
          modify (λ w, set_ckpt_files
                         (<[h:={| data := data c +:+ s; synced := synced c |}]>
                            (ckpt_files w)) w);;
          ret None
      end
  end.

Definition file_Sync (h : string) : M (option Go.error) :=
  do f <- env_call;
  match f with
  | Some msg => ret (Some (Go.OsErr msg))
  | None =>
      do k <- get (λ w, ckpt_files w !! h);
      match k with
      | None => ret (Some (Go.OsErr "file already closed"))
      | Some c =>
          modify (λ w, set_ckpt_files
                         (<[h:={| data := data c; synced := data c |}]>
                            (ckpt_files w)) w);;
          ret None
      end
  end.

(** [f.Stat()] followed by [.Size()]. *)
Definition file_Size (h : string) : M (Go.error + Z) :=
  do f <- env_call;
  match f with
  | Some msg => ret (inl (Go.OsErr msg))
  | None =>
      do k <- get (λ w, ckpt_files w !! h);
      ret (match k with
           | None => inl (Go.OsErr "file already closed")
           | Some c => inr (Z.of_nat (String.length (data c)))
           end)
  end.

(** What a scanner reads from the handle. *)
Definition file_content (h : string) : M string :=
  get (λ w, match ckpt_files w !! h with Some c => data c | None => "" end).

(** *** package os, on the source directory *)

Definition os_ReadDir (name : string) : M (Go.error + list (string * bool)) :=
  do f <- env_call;
  match f with
  | Some msg => ret (inl (Go.OsErr msg))
  | None =>
      do k <- get (λ w, listing w !! name);
      ret (match k with None => inl Go.ErrNotExist | Some l => inr l end)
  end.

Definition os_Open (name : string) : M (Go.error + FileH) :=
  do f <- env_call;
  match f with
  | Some msg => ret (inl (Go.OsErr msg))
  | None =>
      do k <- get (λ w, src_files w !! name);
      ret (match k with
           | None => inl Go.ErrNotExist
           | Some d => inr {| fh_data := d; fh_pos := 0 |}
           end)
  end.

(** [file.Seek(offset, io.SeekStart)]: a negative offset is refused and
    leaves the cursor where it was. *)
Definition file_Seek (file : FileH) (offset : Z) : M (FileH * option Go.error) :=
  do f <- env_call;
  match f with
  | Some msg => ret (file, Some (Go.OsErr msg))
  | None =>
      if decide (offset < 0) then ret (file, Some (Go.OsErr "invalid argument"))
      else ret ({| fh_data := fh_data file; fh_pos := offset |}, None)
  end.

(** [file.Read(buffer)] on a regular file: as many bytes as the buffer takes
    and the file still has; they replace the head of the buffer, the rest of
    the buffer keeps its content.  The result is the file, the buffer, [n]
    and the error.  Every returned [n] is appended to [reads]. *)
Definition file_Read (file : FileH) (buffer : list Byte.byte)
  : M (FileH * list Byte.byte * Z * option Go.error) :=
  do f <- env_call;
  match f with
  | Some msg => ret (file, buffer, 0, Some (Go.OsErr msg))
  | None =>
      let chunk := take (length buffer) (drop (Z.to_nat (fh_pos file)) (fh_data file)) in
      let n := Z.of_nat (length chunk) in
      modify (add_read n);;
      match buffer, chunk with
      | [], _ => ret (file, buffer, 0, None)
      | _, [] => ret (file, buffer, 0, Some Go.EOF)
      | _, _ =>
          ret ({| fh_data := fh_data file; fh_pos := fh_pos file + n |},
               chunk ++ drop (length chunk) buffer, n, None)
      end
  end.

(** [make([]byte, n)]. *)
Definition make_bytes (n : Z) : M (list Byte.byte) :=
  if decide (n < 0) then Panics "makeslice: len out of range"
  else ret (replicate (Z.to_nat n) Byte.x00).

(** *** the S3 service

    The three requests of the multipart protocol.  A request that names no
    upload is refused by the client before it is sent; an upload id that is
    unknown for the bucket and key is [NoSuchUpload]; completing assembles
    the listed parts in the listed order and ends the upload. *)

Definition NoSuchUpload : string := "NoSuchUpload".

Definition find_upload (st : S3) (uploadId : option string) (bucket key : string)
  : Go.error + (string * S3Upload) :=
  match uploadId with
  | None => inl (Go.AwsErr "InvalidParameter" "missing required field UploadId")
  | Some id =>
      match uploads st !! id with
      | Some u =>
          if decide (up_bucket u = bucket ∧ up_key u = key) then inr (id, u)
          else inl (Go.AwsErr NoSuchUpload "")
      | None => inl (Go.AwsErr NoSuchUpload "")
      end
  end.

Definition service_create (st : S3) (bucket key : string) : string * S3 :=
  let id := upload_id_of env (created st) in
  (id, {| uploads := <[id:={| up_bucket := bucket; up_key := key; up_parts := ∅ |}]>
                       (uploads st);
          objects := objects st;
          created := S (created st) |}).

Definition service_upload_part (st : S3) (uploadId : option string)
    (bucket key : string) (partNumber : Z) (body : list Byte.byte)
  : Go.error + (string * S3) :=
  match find_upload st uploadId bucket key with
  | inl e => inl e
  | inr (id, u) =>
      let e := etag_of env body in
      inr (e, {| uploads :=
                   <[id:={| up_bucket := up_bucket u; up_key := up_key u;
                            up_parts := <[partNumber:={| part_etag := e; part_body := body |}]>
                                          (up_parts u) |}]> (uploads st);
                 objects := objects st;
                 created := created st |})
  end.

Definition listed_body (u : S3Upload) (p : S3CompletedPart) : option (list Byte.byte) :=
  match up_parts u !! s3_PartNumber p with
  | Some q => if decide (part_etag q = s3_ETag p) then Some (part_body q) else None
  | None => None
  end.

Definition service_complete (st : S3) (uploadId : option string)
    (bucket key : string) (parts : list S3CompletedPart)
  : option Go.error * S3 :=
  match find_upload st uploadId bucket key with
  | inl e => (Some e, st)
  | inr (id, u) =>
      match mapM (listed_body u) parts with
      | None => (Some (Go.AwsErr "InvalidPart" ""), st)
      | Some bodies =>
          (None, {| uploads := delete id (uploads st);
                    objects := <[(bucket, key):=concat bodies]> (objects st);
                    created := created st |})
      end
  end.

Definition s3_CreateMultipartUpload (bucket key : string) : M (Go.error + string) :=
  do f <- env_call;
  match f with
  | Some code =>
      let r := inl (Go.AwsErr code "") in
      modify (add_call (CallCreate bucket key r));; ret r
  | None =>
      do st <- get s3;
      let '(id, st') := service_create st bucket key in
      modify (set_s3 st');;
      modify (add_call (CallCreate bucket key (inr id)));;
      ret (inr id)
  end.

Definition s3_UploadPart (uploadId : option string) (bucket key : string)
    (partNumber : Z) (body : list Byte.byte) : M (Go.error + string) :=
  do f <- env_call;
  match f with
  | Some code =>
      let r := inl (Go.AwsErr code "") in
      modify (add_call (CallUploadPart uploadId bucket key partNumber body r));; ret r
  | None =>
      do st <- get s3;
      match service_upload_part st uploadId bucket key partNumber body with
      | inl e =>
          modify (add_call (CallUploadPart uploadId bucket key partNumber body (inl e)));;
          ret (inl e)
      | inr (etag, st') =>
          modify (set_s3 st');;
          modify (add_call (CallUploadPart uploadId bucket key partNumber body (inr etag)));;
          ret (inr etag)
      end
  end.

Definition s3_CompleteMultipartUpload (uploadId : option string) (bucket key : string)
    (parts : list S3CompletedPart) : M (option Go.error) :=
  do f <- env_call;
  match f with
  | Some code =>
      let r := Some (Go.AwsErr code "") in
      modify (add_call (CallComplete uploadId bucket key parts r));; ret r
  | None =>
      do st <- get s3;
      let '(r, st') := service_complete st uploadId bucket key parts in
      modify (set_s3 st');;
      modify (add_call (CallComplete uploadId bucket key parts r));;
      ret r
  end.

End Environment.

(* ===================================================================== *)
(** * package checkpoint *)
(* ===================================================================== *)

Record CompletedPart : Type := { ETag : string; PartNumber : Z; Size : Z }.

(** [svc] is the stateless client; the service it talks to is in the
    [World].  [checkpointFile] is the open handle. *)
Record LocalCheckpoint : Type := {
  uploadID : option string;
  parts : list CompletedPart;
  checkpointFile : string;
  bucket : string;
  key : string;
}.

Definition LF : string := String "010" "".

Definition toS3CompletedPart (cp : CompletedPart) : S3CompletedPart :=
  {| s3_ETag := ETag cp; s3_PartNumber := PartNumber cp |}.

Definition toS3CompletedParts (cps : list CompletedPart) : list S3CompletedPart :=
  toS3CompletedPart <$> cps.

(** One line of the checkpoint file, as [Save] prints it. *)
Definition part_line (p : CompletedPart) : string :=
  ETag p +:+ "," +:+ Go.fmt_d (PartNumber p) +:+ "," +:+ Go.fmt_d (Size p) +:+ LF.

(** One scanned line, as [New] reads it: [None] when the program panics
    (an index out of range, or [util.Must] on a [strconv.ParseInt] error). *)
Definition parse_part (text : string) : option CompletedPart :=
  match Go.strings_Split text ","%char with
  | e :: p :: rest =>
      pn ← Go.strconv_ParseInt p;
      match rest with
      | s :: _ => sz ← Go.strconv_ParseInt s;
                  Some {| ETag := e; PartNumber := pn; Size := sz |}
      | [] => None
      end
  | _ => None
  end.

Section Checkpoint.
Context (env : Env).

Definition New (bucketName fileName checkpointDir : string) : M LocalCheckpoint :=
  let checkpointName := filepath_Join checkpointDir (sha256_hex env fileName) in
  do dir <- os_Stat env checkpointDir;
  match dir with
  | inl err =>
      if decide (err = Go.ErrNotExist) then
        do err <- os_Mkdir env checkpointDir;
        match err with
        | Some e => Fatal (error_text e)
        | None => ret tt
        end
      else Fatal (error_text err)
  | inr isDir =>
      if isDir then ret tt else Fatal ".checkpoints is not a directory"
  end;;
  do opened <- os_OpenFile env checkpointName;
  match opened with
  | inl err =>
      if decide (err = Go.ErrNotExist) then
        (* The error was the file did not exist so create the file and
           save the handle *)
        do made <- os_Create env checkpointName;
        match made with
        | inl e => Panics (error_text e)
        | inr h =>
            do out <- s3_CreateMultipartUpload env bucketName
                        (Go.strings_TrimPrefix_slash fileName);
            match out with
            | inl e => Fatal (error_text e)
            | inr id =>
                file_Write env h (id +:+ LF);;
                file_Sync env h;;
                ret {| uploadID := Some id; parts := []; checkpointFile := h;
                       bucket := bucketName; key := fileName |}
            end
        end
      else Fatal (error_text err)
  | inr h =>
      do size <- file_Size env h;
      match size with
      | inl e => Panics (error_text e)
      | inr n =>
          if decide (n ≠ 0) then
            (* read checkpoint file *)
            do text <- file_content h;
            let lines := Go.ScanLines text in
            match mapM parse_part (tail lines) with
            | None => Panics "malformed checkpoint line"
            | Some ps =>
                ret {| uploadID := Some (hd "" lines); parts := ps;
                       checkpointFile := h;
                       bucket := bucketName; key := fileName |}
            end
          else
            ret {| uploadID := None; parts := []; checkpointFile := h;
                   bucket := bucketName; key := fileName |}
      end
  end.

(** The first statements of [Save], up to the answer of the service. *)
Definition Save_request (cp : LocalCheckpoint) (buf : list Byte.byte)
  : M (Go.error + string) :=
  let partNumber := Z.of_nat (length (parts cp)) + 1 in
  log_line Info ("Uploading part " +:+ Go.fmt_d partNumber +:+ " of " +:+ key cp);;
  s3_UploadPart env (uploadID cp) (bucket cp) (Go.strings_TrimPrefix_slash (key cp))
    partNumber buf.

(** [Save] changes the receiver in place: the result is the checkpoint
    after the call together with the returned error. *)
Definition Save (cp : LocalCheckpoint) (buf : list Byte.byte)
  : M (LocalCheckpoint * option Go.error) :=
  let partNumber := Z.of_nat (length (parts cp)) + 1 in
  do upload <- Save_request cp buf;
  match upload with
  | inl err => ret (cp, Some err)
  | inr etag =>
      let completedPart :=
        {| ETag := etag; PartNumber := partNumber; Size := Z.of_nat (length buf) |} in
      let cp := {| uploadID := uploadID cp; parts := parts cp ++ [completedPart];
                   checkpointFile := checkpointFile cp;
                   bucket := bucket cp; key := key cp |} in
      do err <- file_Write env (checkpointFile cp) (part_line completedPart);
      match err with
      | Some e => ret (cp, Some e)
      | None => file_Sync env (checkpointFile cp);; ret (cp, None)
      end
  end.

Definition Complete (cp : LocalCheckpoint) : M (option Go.error) :=
  do err <- s3_CompleteMultipartUpload env (uploadID cp) (bucket cp)
              (Go.strings_TrimPrefix_slash (key cp)) (toS3CompletedParts (parts cp));
  match err with
  | Some (Go.AwsErr code msg) =>
      if decide (code = NoSuchUpload) then
        log_line Warn NoSuchUpload;; ret None
      else
        log_line Error "Error completed upload";; ret err
  | _ =>
      log_line Info ("Successfully uploaded " +:+ key cp +:+ " to " +:+ bucket cp);;
      ret None
  end.

Definition seekOffset (ps : list CompletedPart) : Z :=
  foldl (λ acc part, Go.add64 acc (Size part)) 0 ps.

Definition Seek (cp : LocalCheckpoint) (file : FileH) : M (FileH * option Go.error) :=
  file_Seek env file (seekOffset (parts cp)).

End Checkpoint.

(* ===================================================================== *)
(** * package main: the driver and the orchestrator *)
(* ===================================================================== *)

(** The command-line flags. *)
Record Config : Type := {
  bucketName : string;
  dirName : string;
  checkpointDir : string;
  partSize : Z;
}.

(** How one turn of the [for] loop of [uploadFile] ends. *)
Inductive Step : Type :=
| Continue (local : LocalCheckpoint) (file : FileH)
| Break (local : LocalCheckpoint)
| Return (err : Go.error).

Section Driver.
Context (env : Env) (cfg : Config).

(** The head of the loop body: allocate the buffer, read, and decide
    whether there is a part to save. *)
Definition read_part (local : LocalCheckpoint) (file : FileH)
  : M (Step + FileH * list Byte.byte) :=
  do buffer <- make_bytes (partSize cfg);
  do r <- file_Read env file buffer;
  let '(file, buffer, n, err) := r in
  if decide (err ≠ None ∧ err ≠ Some Go.EOF) then ret (inl (Return (default Go.EOF err)))
  else if decide (n = 0) then ret (inl (Break local))
  else ret (inr (file, buffer)).

Definition iteration (local : LocalCheckpoint) (file : FileH) : M Step :=
  do r <- read_part local file;
  match r with
  | inl s => ret s
  | inr (file, buffer) =>
      do saved <- Save env local buffer;
      let '(local, err) := saved in
      match err with
      | Some e => Fatal (error_text e)
      | None => ret (Continue local file)
      end
  end.

(** The loop, cut ([Stopped]) when it is about to start a turn beyond
    [turns]: the state of the world at that moment is the one a process
    killed there leaves behind. *)
Fixpoint upload_loop (turns : nat) (local : LocalCheckpoint) (file : FileH)
  : M (LocalCheckpoint + Go.error) :=
  match turns with
  | O => λ w, Stopped w
  | S turns' =>
      do s <- iteration local file;
      match s with
      | Continue local file => upload_loop turns' local file
      | Break local => ret (inl local)
      | Return err => ret (inr err)
      end
  end.

Definition uploadFile (turns : nat) (fileName : string) : M (option Go.error) :=
  let path := filepath_Join (dirName cfg) fileName in
  do opened <- os_Open env path;
  match opened with
  | inl err => ret (Some err)
  | inr file =>
      do local <- New env (bucketName cfg) path (checkpointDir cfg);
      do sought <- Seek env local file;
      do r <- upload_loop turns local (fst sought);
      match r with
      | inl local => Complete env local
      | inr err => ret (Some err)
      end
  end.

(** [k] turns of the loop, then [next] on the state reached; [ended] when
    the loop ends within those turns. *)
Fixpoint turns_then {A} (k : nat) (next : LocalCheckpoint → FileH → M A)
    (ended : M A) (local : LocalCheckpoint) (file : FileH) : M A :=
  match k with
  | O => next local file
  | S k' =>
      do s <- iteration local file;
      match s with
      | Continue local file => turns_then k' next ended local file
      | _ => ended
      end
  end.

(** A run killed inside [Save] of turn [k + 1], after the service has
    answered the part request and before the checkpoint is written.  The
    result is [Stopped] with the world the process leaves behind; a run
    that never gets to that point returns. *)
Definition killed_in_Save (k : nat) (fileName : string) : M unit :=
  let path := filepath_Join (dirName cfg) fileName in
  do opened <- os_Open env path;
  match opened with
  | inl err => ret tt
  | inr file =>
      do local <- New env (bucketName cfg) path (checkpointDir cfg);
      do sought <- Seek env local file;
      turns_then k
        (λ local file,
           do r <- read_part local file;
           match r with
           | inl _ => ret tt
           | inr (_, buffer) => Save_request env local buffer;; λ w, Stopped w
           end)
        (ret tt) local (fst sought)
  end.

(** The goroutines of [main], one per regular file.  They are run here one
    after the other, each to its end, in the order of the directory
    listing; the listing of the [World] is arbitrary, so every order is
    covered.  [log.Panic] in a goroutine is an unrecovered panic: it ends
    the process, as [os.Exit] does. *)
Fixpoint run_tasks (turns : nat) (files : list (string * bool)) : M unit :=
  match files with
  | [] => ret tt
  | (fileName, isDir) :: rest =>
      if isDir then run_tasks turns rest
      else
        do err <- uploadFile turns fileName;
        match err with
        | Some e => Panics (error_text e)
        | None => run_tasks turns rest
        end
  end.

Definition main (turns : nat) : M unit :=
  if decide (bucketName cfg = "" ∨ dirName cfg = "") then λ w, Exit 1 w
  else
    do listed <- os_ReadDir env (dirName cfg);
    match listed with
    | inl err => Fatal (error_text err)
    | inr files =>
        run_tasks turns files;;
        log_line Info "Total time taken"
    end.

End Driver.

(* ===================================================================== *)
(** * Vocabulary of the specification *)
(* ===================================================================== *)

Fixpoint contains (c : ascii) (s : string) : bool :=
  match s with
  | EmptyString => false
  | String a s' => if decide (a = c) then true else contains c s'
  end.

Definition is_digit (c : ascii) : bool :=
  match Ascii.is_nat c with Some _ => true | None => false end.

Fixpoint all_digits (s : string) : bool :=
  match s with
  | EmptyString => true
  | String c s' => is_digit c && all_digits s'
  end.

(** The exact (mathematical) sum of the recorded sizes. *)
Definition sum_sizes (ps : list CompletedPart) : Z :=
  foldr (λ p acc, Size p + acc) 0 ps.

(** The text of a checkpoint line without its terminator, and the lines of
    a list of parts. *)
Definition part_text (p : CompletedPart) : string :=
  ETag p +:+ "," +:+ Go.fmt_d (PartNumber p) +:+ "," +:+ Go.fmt_d (Size p).

Definition part_lines (ps : list CompletedPart) : string :=
  foldr (λ p acc, part_line p +:+ acc) "" ps.

(** A part whose checkpoint line reads back as the part: the token has no
    comma and no line feed, the numbers are non-negative int64 values. *)
Definition clean_part (p : CompletedPart) : Prop :=
  contains "," (ETag p) = false ∧ contains "010" (ETag p) = false ∧
  0 <= PartNumber p < 2 ^ 63 ∧ 0 <= Size p < 2 ^ 63.

(** A service whose tokens and upload ids survive the line format, as
    those of S3 do (quoted hexadecimal digests; ids without line breaks). *)
Definition clean_env (env : Env) : Prop :=
  (∀ b, contains "," (etag_of env b) = false ∧ contains "010" (etag_of env b) = false) ∧
  (∀ n, contains "010" (upload_id_of env n) = false ∧
        Go.dropCR (upload_id_of env n) = upload_id_of env n).

Definition no_faults (env : Env) : Prop := ∀ n, fault env n = None.

(** The parts a checkpoint file holds when a run starts. *)
Definition recorded_parts (w : World) (name : string) : list CompletedPart :=
  match ckpt_files w !! name with
  | Some c => default [] (mapM parse_part (tail (Go.ScanLines (data c))))
  | None => []
  end.

(** The parts a sequence of requests uploaded successfully, in order, as
    the pairs a completion request lists. *)
Definition uploaded_part (c : S3Call) : option S3CompletedPart :=
  match c with
  | CallUploadPart _ _ _ partNumber _ (inr etag) =>
      Some {| s3_ETag := etag; s3_PartNumber := partNumber |}
  | _ => None
  end.

Definition uploaded_parts (tr : list S3Call) : list S3CompletedPart :=
  omap uploaded_part tr.

(** The part lists of the completion requests in a sequence of requests. *)
Definition completion (c : S3Call) : option (list S3CompletedPart) :=
  match c with
  | CallComplete _ _ _ ps _ => Some ps
  | _ => None
  end.

Definition completions (tr : list S3Call) : list (list S3CompletedPart) :=
  omap completion tr.

Definition error_code (e : Go.error) : option string :=
  match e with Go.AwsErr code _ => Some code | _ => None end.

Definition world_of {A} (r : Res A) : World :=
  match r with
  | Ret _ w | Exit _ w | Panic _ w | Stopped w => w
  end.

(** The states a session goes through: created by [New] when there was no
    checkpoint file, then extended by calls of [Save] that return no
    error. *)
Inductive saved_from_fresh (env : Env) : LocalCheckpoint → World → Prop :=
| fresh_session b f d w cp w' :
    ckpt_files w !! filepath_Join d (sha256_hex env f) = None →
    New env b f d w = Ret cp w' →
    saved_from_fresh env cp w'
| after_Save cp w buf cp' w' :
    saved_from_fresh env cp w →
    Save env cp buf w = Ret (cp', None) w' →
    saved_from_fresh env cp' w'.

(** ** Comparing runs

    Two worlds hold the same storage when they agree on everything but the
    traces and the clock: the files, the directories and the service. *)
Definition same_storage (w w' : World) : Prop :=
  src_files w = src_files w' ∧ listing w = listing w' ∧ dir_kind w = dir_kind w' ∧
  ckpt_files w = ckpt_files w' ∧ s3 w = s3 w'.

(** Two outcomes of the same kind, in worlds with the same storage, with
    related results. *)
Definition res_rel {A} (R : A → A → Prop) (r r' : Res A) : Prop :=
  match r, r' with
  | Ret a w, Ret a' w' => R a a' ∧ same_storage w w'
  | Exit c w, Exit c' w' => c = c' ∧ same_storage w w'
  | Panic _ w, Panic _ w' => same_storage w w'
  | Stopped w, Stopped w' => same_storage w w'
  | _, _ => False
  end.

(** A computation whose outcome depends on the storage only. *)
Definition insensitive {A} (m : M A) : Prop :=
  ∀ w w', same_storage w w' → res_rel eq (m w) (m w').

(** Two cursors on the same content that read alike: equal, or both at or
    past the end of the file. *)
Definition file_equiv (f f' : FileH) : Prop :=
  fh_data f = fh_data f' ∧
  (fh_pos f = fh_pos f' ∨
   (Z.of_nat (length (fh_data f)) <= fh_pos f ∧ Z.of_nat (length (fh_data f)) <= fh_pos f')).

Definition step_equiv (s s' : Step) : Prop :=
  match s, s' with
  | Continue l f, Continue l' f' => l = l' ∧ file_equiv f f'
  | Break l, Break l' => l = l'
  | Return e, Return e' => e = e'
  | _, _ => False
  end.


(** ** Interrupted runs

    [wk] is a world a killed process leaves behind after [k] turns of the
    loop: killed between two turns, or inside [Save] of the next turn once
    the part is stored by the service and not yet in the checkpoint, or
    after [Complete] when the run ended within these turns. *)
Definition left_by_kill (env : Env) (cfg : Config) (fileName : string) (k : nat)
    (w0 wk : World) : Prop :=
  uploadFile env cfg k fileName w0 = Stopped wk ∨
  killed_in_Save env cfg k fileName w0 = Stopped wk ∨
  uploadFile env cfg k fileName w0 = Ret None wk.

Section ResumeVocabulary.
Context (env : Env) (cfg : Config).

(** What [uploadFile] does once the checkpoint is open and the cursor is
    placed: the loop, then [Complete]. *)
Definition finish (turns : nat) (local : LocalCheckpoint) (file : FileH)
  : M (option Go.error) :=
  do r <- upload_loop env cfg turns local file;
  match r with
  | inl local => Complete env local
  | inr err => ret (Some err)
  end.

Definition source_path (fileName : string) : string :=
  filepath_Join (dirName cfg) fileName.

Definition checkpoint_name (fileName : string) : string :=
  filepath_Join (checkpointDir cfg) (sha256_hex env (source_path fileName)).

Definition object_key (fileName : string) : string :=
  Go.strings_TrimPrefix_slash (source_path fileName).

(** The buffer [Save] receives for the part read at [pos]. *)
Definition part_buffer (data : list Byte.byte) (pos : Z) : list Byte.byte :=
  let buffer := replicate (Z.to_nat (partSize cfg)) Byte.x00 in
  let chunk := take (length buffer) (drop (Z.to_nat pos) data) in
  chunk ++ drop (length chunk) buffer.

(** [cp] with one more recorded part. *)
Definition with_part (cp : LocalCheckpoint) (p : CompletedPart) : LocalCheckpoint :=
  {| uploadID := uploadID cp; parts := parts cp ++ [p];
     checkpointFile := checkpointFile cp; bucket := bucket cp; key := key cp |}.

(** The state of a fault-free run of [fileName] between two turns of the
    loop, for the upload [id] and the file content [content]: the
    checkpoint file holds the session line and the lines of the parts, each
    part has the size of the buffer, the cursor is where the parts end (or
    at the end of the file), and the service holds every recorded part. *)
Record resumable (fileName id : string) (content : list Byte.byte)
    (cp : LocalCheckpoint) (f : FileH) (w : World) : Prop := {
  rs_id : uploadID cp = Some id;
  rs_id_clean : contains "010" id = false ∧ Go.dropCR id = id;
  rs_file : checkpointFile cp = checkpoint_name fileName;
  rs_bucket : bucket cp = bucketName cfg;
  rs_key : key cp = source_path fileName;
  rs_data : fh_data f = content;
  rs_pos : fh_pos f = Z.min (sum_sizes (parts cp)) (Z.of_nat (length content));
  rs_sizes : Forall (λ p, Size p = partSize cfg) (parts cp);
  rs_numbers : PartNumber <$> parts cp = seqZ 1 (Z.of_nat (length (parts cp)));
  rs_etags : Forall (λ p, contains "," (ETag p) = false ∧ contains "010" (ETag p) = false)
               (parts cp);
  rs_bound : sum_sizes (parts cp) < Z.of_nat (length content) + partSize cfg;
  rs_ckpt : ∃ c, ckpt_files w !! checkpoint_name fileName = Some c ∧
                 data c = id +:+ LF +:+ part_lines (parts cp);
  rs_dir : dir_kind w !! checkpointDir cfg = Some true;
  rs_src : src_files w !! source_path fileName = Some content;
  rs_s3 : ∃ u, uploads (s3 w) !! id = Some u ∧ up_bucket u = bucketName cfg ∧
               up_key u = object_key fileName ∧
               Forall (λ q, is_Some (listed_body u q)) (toS3CompletedParts (parts cp));
}.

End ResumeVocabulary.


(** ** A small concrete environment, for the examples *)

Definition demo_env (plan : nat → option string) : Env :=
  {| etag_of := λ b, "etag" +:+ Go.fmt_d (Z.of_nat (length b));
     upload_id_of := λ n, "upload" +:+ Go.fmt_d (Z.of_nat n);
     sha256_hex := λ s, "h" +:+ s;
     fault := plan |}.

Definition no_plan : nat → option string := λ _, None.

(** The plan that fails exactly the [n]-th call into the environment. *)
Definition fail_at (n : nat) (code : string) : nat → option string :=
  λ k, if decide (k = n) then Some code else None.

Definition demo_cfg : Config :=
  {| bucketName := "b"; dirName := "d"; checkpointDir := "ck"; partSize := 2 |}.

Definition empty_s3 : S3 := {| uploads := ∅; objects := ∅; created := 0 |}.

(** A source directory [d] with the given regular files, nothing else. *)
Definition demo_world (files : list (string * list Byte.byte)) : World :=
  {| src_files := list_to_map (prod_map (filepath_Join "d") id <$> files);
     listing := {[ "d" := (λ f, (f.1, false)) <$> files ]};
     dir_kind := ∅; ckpt_files := ∅; s3 := empty_s3;
     calls := []; logs := []; reads := []; ticks := 0 |}.

Definition bytes5 : list Byte.byte :=
  [Byte.x01; Byte.x02; Byte.x03; Byte.x04; Byte.x05].

Definition demo_checkpoint (ps : list CompletedPart) : LocalCheckpoint :=
  {| uploadID := Some "upload0"; parts := ps; checkpointFile := "ck/hd/f";
     bucket := "b"; key := "d/f" |}.

(** Three recorded sizes whose exact sum is 2^64. *)
Definition wrapping_parts : list CompletedPart :=
  [ {| ETag := "a"; PartNumber := 1; Size := 2 ^ 63 - 1 |};
    {| ETag := "b"; PartNumber := 2; Size := 2 ^ 63 - 1 |};
    {| ETag := "c"; PartNumber := 3; Size := 2 |} ].

Definition value_of {A} (d : A) (r : Res A) : A :=
  match r with Ret a _ => a | _ => d end.

(** [New] on the demo world, then [Save] of each buffer in turn. *)
Definition saved_demo (plan : nat → option string) (bufs : list (list Byte.byte))
  : Res (LocalCheckpoint * option Go.error) :=
  foldl (λ r buf, Save (demo_env plan) (value_of (demo_checkpoint [], None) r).1 buf
                    (world_of r))
        (match New (demo_env plan) "b" "d/f" "ck" (demo_world [("f", bytes5)]) with
         | Ret cp w => Ret (cp, None) w
         | Exit c w => Exit c w
         | Panic m w => Panic m w
         | Stopped w => Stopped w
         end) bufs.

(** The demo world after a run that left an empty checkpoint file. *)
Definition empty_checkpoint_world : World :=
  set_dir_kind {[ "ck" := true ]}
    (set_ckpt_files {[ "ck/hd/f" := {| data := ""; synced := "" |} ]}
       (demo_world [("f", bytes5)])).

(** The demo world with a checkpoint file that records [wrapping_parts]. *)
Definition wrapping_checkpoint_world : World :=
  let text := "upload0" +:+ LF +:+ part_lines wrapping_parts in
  set_dir_kind {[ "ck" := true ]}
    (set_ckpt_files {[ "ck/hd/f" := {| data := text; synced := text |} ]}
       (demo_world [("f", bytes5)])).

(** A source directory with two files. *)
Definition two_files : World := demo_world [("a", bytes5); ("b", bytes5)].

(** The requests a computation adds to the trace: no completion request,
    and the successful part uploads [ups]. *)
Definition adds_uploads (w w' : World) (ups : list S3CompletedPart) : Prop :=
  ∃ tr, calls w' = calls w ++ tr ∧ completions tr = [] ∧ uploaded_parts tr = ups.

(* ===================================================================== *)
(** * cmd/cli/main.go before package checkpoint: the inline driver *)
(* ===================================================================== *)

(** The version of [package main] that keeps the checkpoint code in
    [findOrCreateMultipartUpload] (the second program of
    [cmd/cli/main.go]).  Its part size is the package variable [PART_SIZE];
    here it is [partSize cfg].  [session.NewSession] is a call into the
    environment. *)
Module Inline.

(** [type Part struct]: the fields of [CompletedPart]. *)
Abbreviation Part := CompletedPart (only parsing).

(** What a turn of the loop of [uploadFile] leaves: the next turn with the
    part number and the cursor, the end of the file, or a returned error. *)
Inductive Turn : Type :=
| Again (partNumber : Z) (file : FileH)
| Exhausted
| Failed (err : Go.error).

Section Program.
Context (env : Env) (cfg : Config).

(** [os.OpenFile(name, os.O_RDWR, 0755)] for a file of the directory
    [dir], which may be missing or not a directory. *)
Definition os_OpenFile_in (dir name : string) : M (Go.error + string) :=
  do f <- env_call env;
  match f with
  | Some msg => ret (inl (Go.OsErr msg))
  | None =>
      do d <- get (λ w, dir_kind w !! dir);
      match d with
      | None => ret (inl Go.ErrNotExist)
      | Some false => ret (inl (Go.OsErr "not a directory"))
      | Some true =>
          do k <- get (λ w, ckpt_files w !! name);
          ret (match k with None => inl Go.ErrNotExist | Some _ => inr name end)
      end
  end.

(** [os.Create(name)] for a file of the directory [dir]. *)
Definition os_Create_in (dir name : string) : M (Go.error + string) :=
  do f <- env_call env;
  match f with
  | Some msg => ret (inl (Go.OsErr msg))
  | None =>
      do d <- get (λ w, dir_kind w !! dir);
      match d with
      | None => ret (inl Go.ErrNotExist)
      | Some false => ret (inl (Go.OsErr "not a directory"))
      | Some true =>
          modify (λ w, set_ckpt_files
                         (<[name:={| data := ""; synced := "" |}]> (ckpt_files w)) w);;
          ret (inr name)
      end
  end.

(** [session.NewSession()]. *)
Definition session_NewSession : M (option Go.error) :=
  do f <- env_call env;
  ret (match f with Some code => Some (Go.AwsErr code "") | None => None end).

(** [must]: [Error.Fatal] on an error. *)
Definition must {A} (r : option A) (msg : string) : M A :=
  match r with
  | Some v => ret v
  | None => Fatal msg
  end.

(** A run-time panic (an index out of range). *)
Definition index_out_of_range {A} : M A :=
  λ w, Panic "index out of range" w.

(** One scanned line: the fields are taken in the order of the struct
    literal, [line[0]], [must(ParseInt(line[1]))], [must(ParseInt(line[2]))]. *)
Definition scan_part (text : string) : M Part :=
  match Go.strings_Split text ","%char with
  | e :: p :: rest =>
      do pn <- must (Go.strconv_ParseInt p) "strconv.ParseInt: invalid syntax";
      match rest with
      | s :: _ =>
          do sz <- must (Go.strconv_ParseInt s) "strconv.ParseInt: invalid syntax";
          ret {| ETag := e; PartNumber := pn; Size := sz |}
      | [] => index_out_of_range
      end
  | _ => index_out_of_range
  end.

Fixpoint scan_parts (lines : list string) : M (list Part) :=
  match lines with
  | [] => ret []
  | line :: rest =>
      do p <- scan_part line;
      do ps <- scan_parts rest;
      ret (p :: ps)
  end.

Definition findOrCreateMultipartUpload (bucketName dirName fileName : string)
  : M (string * list Part * string) :=
  let path := filepath_Join dirName fileName in
  let checkpointName := filepath_Join (checkpointDir cfg) (sha256_hex env path) in
  do opened <- os_OpenFile_in (checkpointDir cfg) checkpointName;
  match opened with
  | inl err =>
      if decide (err ≠ Go.ErrNotExist) then Fatal (error_text err)
      else
        do out <- s3_CreateMultipartUpload env bucketName (Go.strings_TrimPrefix_slash path);
        match out with
        | inl e => Fatal (error_text e)
        | inr id =>
            do made <- os_Create_in (checkpointDir cfg) checkpointName;
            match made with
            | inl e => Fatal (error_text e)
            | inr h =>
                file_Write env h (id +:+ LF);;
                ret (id, [], h)
            end
        end
  | inr h =>
      (* read checkpoint file *)
      do text <- file_content h;
      let lines := Go.ScanLines text in
      do completedParts <- scan_parts (tail lines);
      ret (hd "" lines, completedParts, h)
  end.

(** One turn of the loop of [uploadFile]. *)
Definition turn (uploadId checkpoint bucketName path : string) (partNumber : Z)
    (file : FileH) : M Turn :=
  let partNumber := Go.add64 partNumber 1 in
  do buffer <- make_bytes (partSize cfg);
  do r <- file_Read env file buffer;
  let '(file, buffer, n, err) := r in
  if decide (err ≠ None ∧ err ≠ Some Go.EOF) then ret (Failed (default Go.EOF err))
  else if decide (n = 0) then ret Exhausted
  else
    log_line Info ("Uploading part " +:+ Go.fmt_d partNumber +:+ " of " +:+ path);;
    do upload <- s3_UploadPart env (Some uploadId) bucketName
                   (Go.strings_TrimPrefix_slash path) partNumber buffer;
    match upload with
    | inl err => ret (Failed err)
    | inr etag =>
        file_Write env checkpoint
          (etag +:+ "," +:+ Go.fmt_d partNumber +:+ "," +:+ Go.fmt_d (partSize cfg) +:+ LF);;
        file_Sync env checkpoint;;
        ret (Again partNumber file)
    end.

(** The loop, cut ([Stopped]) beyond [turns] turns; [None] is the [break]. *)
Fixpoint upload_loop (turns : nat) (uploadId checkpoint bucketName path : string)
    (partNumber : Z) (file : FileH) : M (option Go.error) :=
  match turns with
  | O => λ w, Stopped w
  | S turns' =>
      do t <- turn uploadId checkpoint bucketName path partNumber file;
      match t with
      | Again partNumber file =>
          upload_loop turns' uploadId checkpoint bucketName path partNumber file
      | Exhausted => ret None
      | Failed err => ret (Some err)
      end
  end.

Definition uploadFile (turns : nat) (bucketName dirName fileName : string)
  : M (option Go.error) :=
  let path := filepath_Join dirName fileName in
  do opened <- os_Open env path;
  match opened with
  | inl err => ret (Some err)
  | inr file =>
      do sess <- session_NewSession;
      match sess with
      | Some err => ret (Some err)
      | None =>
          do found <- findOrCreateMultipartUpload bucketName dirName fileName;
          let '(uploadId, completedParts, checkpoint) := found in
          do start <-
            match last completedParts with
            | Some lastPart =>
                (* seek the file to the end of the last completed part *)
                do sought <- file_Seek env file (seekOffset completedParts);
                ret (PartNumber lastPart, fst sought)
            | None => ret (0, file)
            end;
          do r <- upload_loop turns uploadId checkpoint bucketName path (fst start) (snd start);
          match r with
          | Some err => ret (Some err)
          | None =>
              do err <- s3_CompleteMultipartUpload env (Some uploadId) bucketName
                          (Go.strings_TrimPrefix_slash path)
                          (toS3CompletedParts completedParts);
              match err with
              | Some (Go.AwsErr code msg) =>
                  if decide (code = NoSuchUpload) then
                    log_line Warn NoSuchUpload;; ret None
                  else Fatal (code +:+ ": " +:+ msg)
              | _ =>
                  log_line Info ("Successfully uploaded " +:+ fileName +:+ " to "
                                 +:+ bucketName);;
                  ret None
              end
          end
      end
  end.

(** The goroutines of [main], run one after the other as in [run_tasks]:
    an error a task returns is printed, and the next task runs. *)
Fixpoint run_tasks (turns : nat) (files : list (string * bool)) : M unit :=
  match files with
  | [] => ret tt
  | (fileName, isDir) :: rest =>
      if isDir then run_tasks turns rest
      else
        do err <- uploadFile turns (bucketName cfg) (dirName cfg) fileName;
        match err with
        | Some e => log_line Error (error_text e)
        | None => ret tt
        end;;
        run_tasks turns rest
  end.

Definition main (turns : nat) : M unit :=
  if decide (bucketName cfg = "" ∨ dirName cfg = "" ∨ checkpointDir cfg = "")
  then λ w, Exit 1 w
  else
    do listed <- os_ReadDir env (dirName cfg);
    match listed with
    | inl err => Fatal (error_text err)
    | inr files =>
        run_tasks turns files;;
        log_line Info "Total time taken"
    end.

End Program.
End Inline.

(* ===================================================================== *)
(** * cmd/cli/main.go, first program: the driver with the region flag *)
(* ===================================================================== *)

(** The first program of [cmd/cli/main.go]: one checkpoint line
    [uploadId,partNumber] per part, the checkpoint file opened with
    [O_TRUNC], and no completion request.  [PART_SIZE] is [partSize cfg]. *)
Module Regional.

Inductive Turn : Type :=
| Again (partNumber : Z) (file : FileH)
| Exhausted
| Failed (err : Go.error).

Section Program.
Context (env : Env) (cfg : Config).

(** [os.OpenFile(name, os.O_RDWR|os.O_TRUNC, 0755)] for a file of the
    directory [dir]: a file that exists is emptied. *)
Definition os_OpenFile_trunc_in (dir name : string) : M (Go.error + string) :=
  do f <- env_call env;
  match f with
  | Some msg => ret (inl (Go.OsErr msg))
  | None =>
      do d <- get (λ w, dir_kind w !! dir);
      match d with
      | None => ret (inl Go.ErrNotExist)
      | Some false => ret (inl (Go.OsErr "not a directory"))
      | Some true =>
          do k <- get (λ w, ckpt_files w !! name);
          match k with
          | None => ret (inl Go.ErrNotExist)
          | Some c =>
              modify (λ w, set_ckpt_files
                             (<[name:={| data := ""; synced := synced c |}]>
                                (ckpt_files w)) w);;
              ret (inr name)
          end
      end
  end.

(** [checkpoint.Read(buf)] on a handle just opened, for a buffer of [n]
    bytes, as the string of the buffer: a buffer of length 0 reads
    nothing and reports no error. *)
Definition file_Read_text (h : string) (n : Z) : M (string * option Go.error) :=
  do f <- env_call env;
  match f with
  | Some msg => ret ("", Some (Go.OsErr msg))
  | None =>
      do text <- file_content h;
      if decide (n = 0) then ret ("", None)
      else if decide (text = "") then ret ("", Some Go.EOF)
      else ret (String.substring 0 (Z.to_nat n) text, None)
  end.

Definition findOrCreateMultipartUpload (bucketName dirName fileName : string)
  : M (string * Z * string) :=
  let checkpointName := filepath_Join (checkpointDir cfg) (sha256_hex env fileName) in
  do opened <- os_OpenFile_trunc_in (checkpointDir cfg) checkpointName;
  match opened with
  | inl err =>
      if decide (err ≠ Go.ErrNotExist) then Fatal (error_text err)
      else
        do out <- s3_CreateMultipartUpload env bucketName
                    (Go.strings_TrimPrefix_slash (filepath_Join dirName fileName));
        match out with
        | inl e => Fatal (error_text e)
        | inr id =>
            do made <- Inline.os_Create_in env (checkpointDir cfg) checkpointName;
            match made with
            | inl e => Fatal (error_text e)
            | inr h => ret (id, 0, h)
            end
        end
  | inr h =>
      (* read checkpoint file *)
      do size <- file_Size env h;
      match size with
      | inl e => Fatal (error_text e)
      | inr n =>
          do r <- file_Read_text h n;
          match r with
          | (_, Some e) => Fatal (error_text e)
          | (buf, None) =>
              match Go.strings_Split buf ","%char with
              | id :: pn :: _ =>
                  do partNumber <- Inline.must (Go.strconv_ParseInt pn)
                                     "strconv.ParseInt: invalid syntax";
                  ret (id, partNumber, h)
              | _ => Inline.index_out_of_range
              end
          end
      end
  end.

(** One turn of the loop of [uploadFile]. *)
Definition turn (uploadId checkpoint bucketName path : string) (partNumber : Z)
    (file : FileH) : M Turn :=
  let partNumber := Go.add64 partNumber 1 in
  do buffer <- make_bytes (partSize cfg);
  do r <- file_Read env file buffer;
  let '(file, buffer, n, err) := r in
  if decide (err ≠ None ∧ err ≠ Some Go.EOF) then ret (Failed (default Go.EOF err))
  else if decide (n = 0) then ret Exhausted
  else
    do upload <- s3_UploadPart env (Some uploadId) bucketName
                   (Go.strings_TrimPrefix_slash path) partNumber buffer;
    match upload with
    | inl err => ret (Failed err)
    | inr _ =>
        file_Write env checkpoint (uploadId +:+ "," +:+ Go.fmt_d partNumber +:+ LF);;
        ret (Again partNumber file)
    end.

Fixpoint upload_loop (turns : nat) (uploadId checkpoint bucketName path : string)
    (partNumber : Z) (file : FileH) : M (option Go.error) :=
  match turns with
  | O => λ w, Stopped w
  | S turns' =>
      do t <- turn uploadId checkpoint bucketName path partNumber file;
      match t with
      | Again partNumber file =>
          upload_loop turns' uploadId checkpoint bucketName path partNumber file
      | Exhausted => ret None
      | Failed err => ret (Some err)
      end
  end.

Definition uploadFile (turns : nat) (bucketName dirName fileName : string)
  : M (option Go.error) :=
  let path := filepath_Join dirName fileName in
  do opened <- os_Open env path;
  match opened with
  | inl err => ret (Some err)
  | inr file =>
      do sess <- Inline.session_NewSession env;
      match sess with
      | Some err => ret (Some err)
      | None =>
          do found <- findOrCreateMultipartUpload bucketName dirName fileName;
          let '(uploadId, partNumber, checkpoint) := found in
          do r <- upload_loop turns uploadId checkpoint bucketName path partNumber file;
          match r with
          | Some err => ret (Some err)
          | None =>
              log_line Info ("Successfully uploaded " +:+ fileName +:+ " to "
                             +:+ bucketName);;
              ret None
          end
      end
  end.

End Program.
End Regional.

(** The objects of the service are those of [w]. *)
Definition same_objects (w w' : World) : Prop := objects (s3 w') = objects (s3 w).

(** ** Sessions, records and requests *)

(** [Save] of each buffer in turn, up to the first error. *)
Fixpoint save_all (env : Env) (cp : LocalCheckpoint) (bufs : list (list Byte.byte))
  : M (LocalCheckpoint * option Go.error) :=
  match bufs with
  | [] => ret (cp, None)
  | buf :: rest =>
      do r <- Save env cp buf;
      match r.2 with
      | Some _ => ret r
      | None => save_all env r.1 rest
      end
  end.

(** Every checkpoint file of [w] is in [w'], with the same text or a longer
    one that starts with it. *)
Definition checkpoints_grow (w w' : World) : Prop :=
  ∀ name c, ckpt_files w !! name = Some c →
    ∃ c' s, ckpt_files w' !! name = Some c' ∧ data c' = data c +:+ s.

(** A computation that takes every world to a world related by [R],
    whatever its outcome. *)
Definition keeps (R : World → World → Prop) {A} (m : M A) : Prop :=
  ∀ w, R w (world_of (m w)).

(** The part numbers of the part requests in a sequence of requests,
    answered with success or not. *)
Definition part_request (c : S3Call) : option Z :=
  match c with
  | CallUploadPart _ _ _ partNumber _ _ => Some partNumber
  | _ => None
  end.

Definition part_requests (tr : list S3Call) : list Z := omap part_request tr.

(** ** The object a run assembles *)

(** The service holds, under the number of each recorded part, the buffer
    [Save] was given for it. *)
Definition holds_bodies (cfg : Config) (content : list Byte.byte) (u : S3Upload)
    (ps : list CompletedPart) : Prop :=
  ∀ i p, ps !! i = Some p →
    up_parts u !! (Z.of_nat i + 1)
    = Some {| part_etag := ETag p;
              part_body := part_buffer cfg content (Z.of_nat i * partSize cfg) |}.

(** The content of a file followed by zero bytes up to the next multiple of
    the part size. *)
Definition zero_padded (cfg : Config) (content : list Byte.byte) : list Byte.byte :=
  content ++ replicate (Z.to_nat ((- Z.of_nat (length content)) mod partSize cfg)) Byte.x00.

(* ===================================================================== *)
(** * Facts about the Go fragments *)
(* ===================================================================== *)

Lemma wrap64_id z : Go.in_int64 z → Go.wrap64 z = z.
Proof.
  unfold Go.in_int64, Go.wrap64, Go.int64_min, Go.int64_max. intros H.
  rewrite Z.mod_small; lia.
Qed.

Lemma str_app_nil s : "" +:+ s = s.
Proof. reflexivity. Qed.

Lemma str_app_cons c a b : String c a +:+ b = String c (a +:+ b).
Proof. reflexivity. Qed.

Lemma str_app_assoc (a b c : string) : (a +:+ b) +:+ c = a +:+ b +:+ c.
Proof.
  induction a as [|x a IH]; rewrite ?str_app_nil, ?str_app_cons; [done|].
  by rewrite IH.
Qed.

Lemma str_app_nil_r (a : string) : a +:+ "" = a.
Proof.
  induction a as [|x a IH]; rewrite ?str_app_nil, ?str_app_cons; [done|].
  by rewrite IH.
Qed.

Lemma LF_app s : LF +:+ s = String "010" s.
Proof. reflexivity. Qed.

Lemma comma_app s : "," +:+ s = String "," s.
Proof. reflexivity. Qed.

Lemma contains_app c a b : contains c (a +:+ b) = contains c a || contains c b.
Proof.
  induction a as [|x a IH]; rewrite ?str_app_nil, ?str_app_cons; simpl; [done|].
  case_decide; auto.
Qed.

Lemma Split_nonempty s sep : Go.strings_Split s sep ≠ [].
Proof.
  induction s as [|c s IH]; simpl; [done|]. case_decide; [done|].
  by destruct (Go.strings_Split s sep).
Qed.

Lemma Split_app s t sep :
  contains sep s = false →
  Go.strings_Split (s +:+ String sep t) sep = s :: Go.strings_Split t sep.
Proof.
  induction s as [|c s IH]; rewrite ?str_app_nil, ?str_app_cons; simpl; intros H.
  - by rewrite decide_True.
  - case_decide; [done|]. by rewrite IH.
Qed.

Lemma Split_none s sep : contains sep s = false → Go.strings_Split s sep = [s].
Proof.
  induction s as [|c s IH]; simpl; intros H; [done|].
  case_decide; [done|]. by rewrite IH.
Qed.

Lemma string_of_uint_digits d :
  all_digits (DecimalString.NilEmpty.string_of_uint d) = true.
Proof. induction d; simpl; auto. Qed.

Lemma digits_contains c s :
  is_digit c = false → all_digits s = true → contains c s = false.
Proof.
  intros Hc. induction s as [|a s IH]; simpl; [done|].
  intros [Ha Hs]%andb_prop. case_decide; [congruence|auto].
Qed.

(** [%d] of a non-negative number is the digit string of its decimal
    expansion. *)
Lemma fmt_d_nonneg z :
  0 <= z →
  ∃ d, Go.fmt_d z = DecimalString.NilEmpty.string_of_uint d ∧ d ≠ Decimal.Nil
       ∧ Z.of_N (N.of_uint d) = z.
Proof.
  intros Hz. unfold Go.fmt_d. destruct z as [|p|p]; [| |lia].
  - by exists (Decimal.D0 Decimal.Nil).
  - exists (Pos.to_uint p). simpl. split; [|split].
    + unfold DecimalString.NilZero.string_of_uint.
      destruct (Pos.to_uint p) eqn:E; try done.
      exfalso. by apply (DecimalPos.Unsigned.to_uint_nonnil p).
    + apply DecimalPos.Unsigned.to_uint_nonnil.
    + change (Pos.to_uint p) with (N.to_uint (N.pos p)).
      by rewrite DecimalN.Unsigned.of_to.
Qed.

Lemma fmt_d_digits z : 0 <= z → all_digits (Go.fmt_d z) = true ∧ Go.fmt_d z ≠ "".
Proof.
  intros Hz. destruct (fmt_d_nonneg z Hz) as (d & -> & Hd & _).
  split; [apply string_of_uint_digits|by destruct d].
Qed.

Lemma parse_digits_of_uint d :
  d ≠ Decimal.Nil →
  Go.parse_digits (DecimalString.NilEmpty.string_of_uint d) = Some (Z.of_N (N.of_uint d)).
Proof.
  intros Hd. unfold Go.parse_digits.
  rewrite DecimalString.NilEmpty.usu. by destruct d.
Qed.

(** What [%d] prints, [strconv.ParseInt] reads back. *)
Lemma ParseInt_fmt_d z : 0 <= z < 2 ^ 63 → Go.strconv_ParseInt (Go.fmt_d z) = Some z.
Proof.
  intros [Hz Hlt]. destruct (fmt_d_nonneg z Hz) as (d & -> & Hd & Hv).
  pose proof (string_of_uint_digits d) as Hdig.
  pose proof (parse_digits_of_uint d Hd) as Hp.
  destruct (DecimalString.NilEmpty.string_of_uint d) as [|c s] eqn:E.
  { by destruct d. }
  unfold Go.strconv_ParseInt. simpl in Hdig. apply andb_prop in Hdig as [Hc _].
  rewrite decide_False by (intros ->; done).
  rewrite decide_False by (intros ->; done).
  rewrite Hp. simpl. rewrite Hv. by rewrite decide_True.
Qed.

Lemma dropCR_app a b : b ≠ "" → Go.dropCR (a +:+ b) = a +:+ Go.dropCR b.
Proof.
  intros Hb. induction a as [|c a IH]; rewrite ?str_app_nil, ?str_app_cons; [done|].
  simpl. rewrite IH. destruct (a +:+ b) eqn:E; [|done].
  destruct a; [|done]. by rewrite str_app_nil in E.
Qed.

Lemma dropCR_digits s : all_digits s = true → Go.dropCR s = s.
Proof.
  induction s as [|c s IH]; simpl; [done|]. intros [Hc Hs]%andb_prop.
  destruct s; [|by rewrite IH].
  case_decide; [by subst|done].
Qed.

Lemma drop_final_empty_cons x l :
  l ≠ [] → Go.drop_final_empty (x :: l) = x :: Go.drop_final_empty l.
Proof. intros Hl. destruct l; [done|]. by destruct x. Qed.

Lemma ScanLines_line a rest :
  contains "010" a = false →
  Go.ScanLines (a +:+ LF +:+ rest) = Go.dropCR a :: Go.ScanLines rest.
Proof.
  intros Ha. unfold Go.ScanLines. rewrite LF_app, Split_app by done.
  by rewrite drop_final_empty_cons by apply Split_nonempty.
Qed.

(** ** The checkpoint line format *)

Lemma part_line_text p : part_line p = part_text p +:+ LF.
Proof. unfold part_line, part_text. by rewrite !str_app_assoc. Qed.

Lemma part_lines_app ps qs : part_lines (ps ++ qs) = part_lines ps +:+ part_lines qs.
Proof.
  induction ps as [|p ps IH]; simpl; [done|]. by rewrite IH, str_app_assoc.
Qed.

Lemma part_lines_snoc ps p : part_lines (ps ++ [p]) = part_lines ps +:+ part_line p.
Proof. rewrite part_lines_app. simpl. by rewrite str_app_nil_r. Qed.

Lemma parse_part_text p : clean_part p → parse_part (part_text p) = Some p.
Proof.
  intros (He & _ & Hn & Hs). unfold parse_part, part_text.
  destruct (fmt_d_digits (PartNumber p)) as [Hd1 _]; [lia|].
  destruct (fmt_d_digits (Size p)) as [Hd2 _]; [lia|].
  rewrite !comma_app.
  rewrite Split_app by done.
  rewrite Split_app by (by apply digits_contains).
  rewrite Split_none by (by apply digits_contains).
  rewrite !ParseInt_fmt_d by lia. simpl. by destruct p.
Qed.

Lemma part_text_one_line p :
  clean_part p →
  contains "010" (part_text p) = false ∧ Go.dropCR (part_text p) = part_text p.
Proof.
  intros (He & Hl & Hn & Hs). unfold part_text.
  destruct (fmt_d_digits (PartNumber p)) as [Hd1 _]; [lia|].
  destruct (fmt_d_digits (Size p)) as [Hd2 Hne]; [lia|].
  split.
  - rewrite !contains_app, Hl. simpl. by rewrite !digits_contains.
  - rewrite <- !str_app_assoc. rewrite dropCR_app by done.
    by rewrite dropCR_digits.
Qed.

(** Reading back the lines [Save] wrote gives the parts it recorded. *)
Lemma ScanLines_part_lines ps :
  Forall clean_part ps →
  mapM parse_part (Go.ScanLines (part_lines ps)) = Some ps.
Proof.
  induction 1 as [|p ps Hp Hps IH]; [done|].
  simpl. rewrite part_line_text, str_app_assoc.
  destruct (part_text_one_line p Hp) as [Hlf Hcr].
  rewrite ScanLines_line, Hcr by done.
  simpl. rewrite (parse_part_text p Hp). simpl. by rewrite IH.
Qed.

(* ===================================================================== *)
(** * Running the model symbolically *)
(* ===================================================================== *)

Ltac world_simpl :=
  cbn [src_files listing dir_kind ckpt_files s3 calls logs reads ticks
       set_dir_kind set_ckpt_files set_s3 add_call add_log add_read next_tick
       world_of fst snd] in *.

(** Case analysis on a scrutinee that is not itself a case analysis. *)
Ltac destruct_atom :=
  match goal with
  | H : context [match ?x with _ => _ end] |- _ =>
      lazymatch x with
      | context [match _ with _ => _ end] => fail
      | _ => destruct x eqn:?
      end
  | |- context [match ?x with _ => _ end] =>
      lazymatch x with
      | context [match _ with _ => _ end] => fail
      | _ => destruct x eqn:?
      end
  end.

Ltac run_prims :=
  unfold s3_UploadPart, s3_CompleteMultipartUpload,
    s3_CreateMultipartUpload, file_Write, file_Sync, file_Seek, file_Size, file_content,
    file_Read, make_bytes, os_Stat, os_Mkdir, os_OpenFile, os_Create, os_Open, os_ReadDir,
    log_line, Fatal, Panics, env_call, bind, ret, modify, get in *.

Ltac sym_exec :=
  run_prims; world_simpl; repeat (destruct_atom; simplify_eq; world_simpl).

Ltac unfold_prims :=
  unfold Save, Save_request, Complete, Seek in *; run_prims;
  unfold service_complete, service_upload_part, service_create, find_upload in *.

(* ===================================================================== *)
(** * Seek *)
(* ===================================================================== *)

Lemma sum_sizes_nonneg ps : Forall (λ p, 0 <= Size p) ps → 0 <= sum_sizes ps.
Proof. induction 1; simpl; lia. Qed.

Lemma sum_sizes_app ps qs : sum_sizes (ps ++ qs) = sum_sizes ps + sum_sizes qs.
Proof. induction ps as [|p ps IH]; simpl; lia. Qed.

Lemma seekOffset_from acc ps :
  Forall (λ p, 0 <= Size p) ps →
  0 <= acc → acc + sum_sizes ps <= Go.int64_max →
  foldl (λ a part, Go.add64 a (Size part)) acc ps = acc + sum_sizes ps.
Proof.
  intros Hps. revert acc.
  induction Hps as [|p ps Hp Hps IH]; intros acc Ha Hs; simpl in *; [lia|].
  pose proof (sum_sizes_nonneg ps Hps).
  unfold Go.add64 at 2. rewrite wrap64_id.
  - rewrite IH; lia.
  - unfold Go.in_int64, Go.int64_min, Go.int64_max in *. lia.
Qed.

Lemma seekOffset_exact ps :
  Forall (λ p, 0 <= Size p) ps → sum_sizes ps <= Go.int64_max →
  seekOffset ps = sum_sizes ps.
Proof.
  intros Hps Hs. unfold seekOffset. rewrite seekOffset_from; [lia|done|lia|lia].
Qed.

(** C8, as amended: when the recorded sizes are non-negative and their
    exact sum fits in an int64, the offset [Seek] computes is that sum, and
    (unless the system call itself fails) the cursor of the source file is
    left exactly there. *)
Theorem Seek_offset_is_sum env cp file w :
  Forall (λ p, 0 <= Size p) (parts cp) →
  sum_sizes (parts cp) <= Go.int64_max →
  seekOffset (parts cp) = sum_sizes (parts cp) ∧
  (fault env (ticks w) = None →
   Seek env cp file w
   = Ret ({| fh_data := fh_data file; fh_pos := sum_sizes (parts cp) |}, None)
         (next_tick w)).
Proof.
  intros Hps Hs. pose proof (seekOffset_exact _ Hps Hs) as Heq.
  split; [done|]. intros Hf. unfold_prims. rewrite Hf, Heq.
  pose proof (sum_sizes_nonneg _ Hps).
  by rewrite decide_False by lia.
Qed.

Lemma Seek_offset_is_sum_witness :
  seekOffset (parts (demo_checkpoint
                       [ {| ETag := "a"; PartNumber := 1; Size := 2 |};
                         {| ETag := "a"; PartNumber := 2; Size := 2 |} ])) = 4.
Proof.
  refine (proj1 (Seek_offset_is_sum (demo_env no_plan) (demo_checkpoint _)
                   {| fh_data := bytes5; fh_pos := 0 |} (demo_world []) _ _)).
  - simpl. repeat constructor; simpl; lia.
  - vm_compute. discriminate.
Defined.

(** C8, as stated, fails: the sum is accumulated in an int64.  [New] reads
    a checkpoint file whose part lines record the sizes 2^63-1, 2^63-1 and
    2; their exact sum is 2^64, and [Seek] puts the cursor at offset 0. *)
Lemma Seek_offset_wraps :
  ∃ cp w1 file' w',
    New (demo_env no_plan) "b" "d/f" "ck" wrapping_checkpoint_world = Ret cp w1
    ∧ parts cp = wrapping_parts
    ∧ Seek (demo_env no_plan) cp {| fh_data := bytes5; fh_pos := 3 |} w1
      = Ret (file', None) w'
    ∧ fh_pos file' = 0 ∧ sum_sizes (parts cp) = 2 ^ 64.
Proof.
  eexists _, _, _, _.
  split; [vm_compute; reflexivity|].
  split; [reflexivity|].
  split; [vm_compute; reflexivity|].
  split; reflexivity.
Qed.

(* ===================================================================== *)
(** * Complete *)
(* ===================================================================== *)

(** [Complete] always returns, after one completion request that lists
    the parts of the checkpoint. *)
Lemma Complete_request env cp w :
  ∃ res e w',
    Complete env cp w = Ret e w' ∧
    calls w' = calls w ++ [CallComplete (uploadID cp) (bucket cp)
                             (Go.strings_TrimPrefix_slash (key cp))
                             (toS3CompletedParts (parts cp)) res].
Proof. unfold_prims. sym_exec; by eexists _, _, _. Qed.

(** C9: [Complete] always returns; it sends one completion request; when
    the service answers [NoSuchUpload] the result is [nil] and one warning
    is logged; every other error of the service is the result. *)
Theorem Complete_error_handling env cp w :
  ∃ res e w',
    Complete env cp w = Ret e w' ∧
    calls w' = calls w ++ [CallComplete (uploadID cp) (bucket cp)
                             (Go.strings_TrimPrefix_slash (key cp))
                             (toS3CompletedParts (parts cp)) res] ∧
    (∀ err, res = Some err → error_code err = Some NoSuchUpload →
            e = None ∧ logs w' = logs w ++ [(Warn, NoSuchUpload)]) ∧
    (∀ err, res = Some err → error_code err ≠ Some NoSuchUpload → e = Some err).
Proof.
  unfold_prims. sym_exec; eexists _, _, _;
   (split; [reflexivity|]); (split; [reflexivity|]);
   split; intros; simplify_eq/=; try done.
Qed.

Lemma Complete_error_handling_witness :
  let w := demo_world [("f", bytes5)] in
  let r := Complete (demo_env no_plan) (demo_checkpoint []) w in
  value_of (Some Go.EOF) r = None ∧ logs (world_of r) = [(Warn, NoSuchUpload)].
Proof.
  intros w r.
  destruct (Complete_error_handling (demo_env no_plan) (demo_checkpoint []) w)
    as (res & e & w' & HC & Hcalls & Hno & _).
  fold r in HC.
  assert (world_of r = w') as Hw by (by rewrite HC).
  assert (value_of (Some Go.EOF) r = e) as He by (by rewrite HC).
  rewrite <- Hw in Hcalls. vm_compute in Hcalls. injection Hcalls as Hres.
  rewrite He, Hw.
  exact (Hno (Go.AwsErr NoSuchUpload "") (eq_sym Hres) eq_refl).
Defined.


(** The errors of the service carry a code: they are [awserr.Error]
    values, the only ones the type switch of [Complete] looks at. *)
Lemma Complete_request_error_has_code env uploadId b k ps w e w' :
  s3_CompleteMultipartUpload env uploadId b k ps w = Ret (Some e) w' →
  is_Some (error_code e).
Proof. unfold_prims. intros H. sym_exec; by eexists. Qed.

(* ===================================================================== *)
(** * Save *)
(* ===================================================================== *)

Lemma Save_total env cp buf w : ∃ cp' e w', Save env cp buf w = Ret (cp', e) w'.
Proof. unfold_prims. sym_exec; eauto. Qed.

(** C10: [Save] always returns, and when the part request of the call
    failed, the result is that error, the checkpoint value is the one
    before the call and no checkpoint file has changed; hence the part
    number of the next call and the resume offset are what they were. *)
Theorem Save_upload_error_changes_nothing env cp buf w :
  (∃ cp' e w', Save env cp buf w = Ret (cp', e) w') ∧
  (∀ cp' e w' uid b k pn body err,
     Save env cp buf w = Ret (cp', e) w' →
     calls w' = calls w ++ [CallUploadPart uid b k pn body (inl err)] →
     e = Some err ∧ cp' = cp ∧ ckpt_files w' = ckpt_files w ∧
     pn = Z.of_nat (length (parts cp')) + 1 ∧
     seekOffset (parts cp') = seekOffset (parts cp)).
Proof.
  split; [apply Save_total|].
  unfold_prims. intros * H Hc.
  sym_exec; simplify_list_eq; auto.
Qed.

Lemma Save_upload_error_changes_nothing_witness :
  let env := demo_env (fail_at 7 "RequestTimeout") in
  let r0 := saved_demo (fail_at 7 "RequestTimeout") [] in
  let cp0 := (value_of (demo_checkpoint [], None) r0).1 in
  let r1 := Save env cp0 [Byte.x01; Byte.x02] (world_of r0) in
  (value_of (cp0, None) r1).2 = Some (Go.AwsErr "RequestTimeout" "") ∧
  (value_of (cp0, None) r1).1 = cp0 ∧
  ckpt_files (world_of r1) = ckpt_files (world_of r0).
Proof.
  intros env r0 cp0 r1.
  destruct (proj2 (Save_upload_error_changes_nothing env cp0 [Byte.x01; Byte.x02] (world_of r0))
              (value_of (cp0, None) r1).1 (value_of (cp0, None) r1).2 (world_of r1)
              (Some "upload0") "b" "d/f" 1 [Byte.x01; Byte.x02]
              (Go.AwsErr "RequestTimeout" ""))
    as (He & Hcp & Hck & _).
  - vm_compute. reflexivity.
  - vm_compute. reflexivity.
  - split; [exact He|]. split; [exact Hcp|exact Hck].
Defined.

(** What a call of [Save] that returns no error has done. *)
Lemma Save_success env cp buf w cp' w' :
  Save env cp buf w = Ret (cp', None) w' →
  ∃ etag c,
    cp' = {| uploadID := uploadID cp;
             parts := parts cp ++ [ {| ETag := etag;
                                       PartNumber := Z.of_nat (length (parts cp)) + 1;
                                       Size := Z.of_nat (length buf) |} ];
             checkpointFile := checkpointFile cp; bucket := bucket cp; key := key cp |} ∧
    calls w' = calls w ++ [CallUploadPart (uploadID cp) (bucket cp)
                             (Go.strings_TrimPrefix_slash (key cp))
                             (Z.of_nat (length (parts cp)) + 1) buf (inr etag)] ∧
    ckpt_files w !! checkpointFile cp = Some c ∧
    ∃ c', ckpt_files w' !! checkpointFile cp = Some c' ∧
          data c' = data c +:+ part_line {| ETag := etag;
                                       PartNumber := Z.of_nat (length (parts cp)) + 1;
                                       Size := Z.of_nat (length buf) |}.
Proof.
  unfold_prims. intros H.
  sym_exec; cbn [parts checkpointFile uploadID bucket key] in *;
   eexists _, _; (split; [reflexivity|]); (split; [reflexivity|]);
   (split; [eassumption|]); simplify_map_eq; eauto.
Qed.

(** C6, on the code: the boundary is not kept.  First run: the write of
    the checkpoint line fails ([fail_at 8]); [Save] returns the error, yet
    the part is already in the list of parts, and the file is unchanged.
    Second run: the write succeeds and [Sync] fails ([fail_at 9]); [Save]
    returns [nil], the line is in the file, and stable storage still holds
    the session line only. *)
Theorem Save_durability_boundary_broken :
  (let r0 := saved_demo (fail_at 8 "no space left on device") [] in
   let r1 := saved_demo (fail_at 8 "no space left on device") [[Byte.x01; Byte.x02]] in
   (value_of (demo_checkpoint [], None) r1).2 = Some (Go.OsErr "no space left on device") ∧
   parts (value_of (demo_checkpoint [], None) r0).1 = [] ∧
   parts (value_of (demo_checkpoint [], None) r1).1
   = [ {| ETag := "etag2"; PartNumber := 1; Size := 2 |} ] ∧
   ckpt_files (world_of r1) = ckpt_files (world_of r0))
  ∧
  (let r1 := saved_demo (fail_at 9 "input/output error") [[Byte.x01; Byte.x02]] in
   (value_of (demo_checkpoint [], None) r1).2 = None ∧
   (data <$> ckpt_files (world_of r1) !! "ck/hd/f")
   = Some ("upload0" +:+ LF +:+ "etag2,1,2" +:+ LF) ∧
   (synced <$> ckpt_files (world_of r1) !! "ck/hd/f") = Some ("upload0" +:+ LF)).
Proof. cbv zeta. repeat apply conj; vm_compute; reflexivity. Qed.

(* ===================================================================== *)
(** * New *)
(* ===================================================================== *)

Lemma New_fresh env b f d w cp w' :
  ckpt_files w !! filepath_Join d (sha256_hex env f) = None →
  New env b f d w = Ret cp w' →
  parts cp = [] ∧ checkpointFile cp = filepath_Join d (sha256_hex env f) ∧
  ∃ c, ckpt_files w' !! checkpointFile cp = Some c.
Proof.
  unfold New. intros Hn H. sym_exec.
  all: try (rewrite Hn in *; simplify_eq).
  all: cbn [parts checkpointFile]; simplify_map_eq; eauto.
Qed.

(** C3, on the code: when the checkpoint file exists and is empty, [New]
    sends no request and writes nothing; the checkpoint it returns has no
    upload id, and every [Save] on it fails before anything is recorded. *)
Theorem New_empty_checkpoint_no_session env b f d w c :
  no_faults env →
  dir_kind w !! d = Some true →
  ckpt_files w !! filepath_Join d (sha256_hex env f) = Some c →
  data c = "" →
  ∃ w',
    New env b f d w
    = Ret {| uploadID := None; parts := [];
             checkpointFile := filepath_Join d (sha256_hex env f);
             bucket := b; key := f |} w' ∧
    calls w' = calls w ∧ s3 w' = s3 w ∧ ckpt_files w' = ckpt_files w ∧
    ∀ buf, ∃ err w2,
      Save env {| uploadID := None; parts := [];
                  checkpointFile := filepath_Join d (sha256_hex env f);
                  bucket := b; key := f |} buf w'
      = Ret ({| uploadID := None; parts := [];
                checkpointFile := filepath_Join d (sha256_hex env f);
                bucket := b; key := f |}, Some err) w2 ∧
      ckpt_files w2 = ckpt_files w.
Proof.
  intros Hnf Hd Hc He. unfold New. run_prims. rewrite !Hnf. world_simpl.
  rewrite Hd, !Hnf. world_simpl. rewrite Hc, !Hnf. world_simpl. rewrite Hc, He.
  cbn [String.length Z.of_nat]. rewrite decide_False by (intros ?; done).
  eexists. split; [reflexivity|]. world_simpl. repeat split.
  intros buf. unfold Save, Save_request. run_prims. world_simpl. rewrite !Hnf.
  unfold service_upload_part, find_upload. cbn [uploadID]. world_simpl.
  eexists _, _. split; [reflexivity|]. done.
Qed.

Lemma New_empty_checkpoint_no_session_witness :
  ∃ w', New (demo_env no_plan) "b" "d/f" "ck" empty_checkpoint_world
        = Ret {| uploadID := None; parts := []; checkpointFile := "ck/hd/f";
                 bucket := "b"; key := "d/f" |} w'
        ∧ calls w' = [].
Proof.
  destruct (New_empty_checkpoint_no_session (demo_env no_plan) "b" "d/f" "ck"
              empty_checkpoint_world {| data := ""; synced := "" |})
    as (w' & HN & Hc & _); [done|reflexivity|reflexivity|reflexivity|].
  exists w'. split; [exact HN|exact Hc].
Defined.

(* ===================================================================== *)
(** * Part numbering *)
(* ===================================================================== *)

(** C7: in every state reached from a freshly created session by calls
    of [Save] that returned no error, the recorded part numbers are
    1, 2, ..., N, in the list of parts and, line by line, in the checkpoint
    file; and the next [Save] that succeeds records the number N + 1. *)
Theorem part_numbers_contiguous env cp w :
  saved_from_fresh env cp w →
  PartNumber <$> parts cp = seqZ 1 (Z.of_nat (length (parts cp))) ∧
  (∃ c hdr, ckpt_files w !! checkpointFile cp = Some c ∧
            data c = hdr +:+ part_lines (parts cp)) ∧
  (∀ buf cp' w', Save env cp buf w = Ret (cp', None) w' →
     ∃ p, parts cp' = parts cp ++ [p] ∧
          PartNumber p = Z.of_nat (length (parts cp)) + 1).
Proof.
  intros Hr.
  assert (∀ buf cp' w', Save env cp buf w = Ret (cp', None) w' →
     ∃ p, parts cp' = parts cp ++ [p] ∧
          PartNumber p = Z.of_nat (length (parts cp)) + 1) as Hstep.
  { intros buf cp' w' (etag & c & -> & _)%Save_success. by eexists. }
  split; [|split; [|done]]; clear Hstep.
  - induction Hr as [b f d w cp w' Hn HN|cp w buf cp' w' Hr IH HS].
    + apply New_fresh in HN as (-> & _); done.
    + apply Save_success in HS as (etag & c & -> & _). cbn [parts].
      rewrite fmap_app, IH, length_app, Nat.add_1_r, seqZ_S. simpl.
      do 2 f_equal. lia.
  - induction Hr as [b f d w cp w' Hn HN|cp w buf cp' w' Hr IH HS].
    + apply New_fresh in HN as (-> & _ & c & Hc); [|done].
      exists c, (data c). by rewrite str_app_nil_r.
    + apply Save_success in HS as (etag & c & -> & _ & Hc & c' & Hc' & Hd).
      destruct IH as (c0 & hdr & Hc0 & Hd0). simplify_eq. cbn [parts checkpointFile].
      exists c', hdr. split; [done|].
      by rewrite Hd, Hd0, part_lines_snoc, str_app_assoc.
Qed.

Lemma part_numbers_contiguous_witness :
  let r := saved_demo no_plan [[Byte.x01; Byte.x02]; [Byte.x03; Byte.x04]] in
  saved_from_fresh (demo_env no_plan) (value_of (demo_checkpoint [], None) r).1 (world_of r) ∧
  PartNumber <$> parts (value_of (demo_checkpoint [], None) r).1 = [1; 2].
Proof.
  intros r.
  assert (saved_from_fresh (demo_env no_plan)
            (value_of (demo_checkpoint [], None) r).1 (world_of r)) as Hr.
  { eapply (after_Save _
              (value_of (demo_checkpoint [], None) (saved_demo no_plan [[Byte.x01; Byte.x02]])).1
              (world_of (saved_demo no_plan [[Byte.x01; Byte.x02]]))
              [Byte.x03; Byte.x04]); [|vm_compute; reflexivity].
    eapply (after_Save _ (value_of (demo_checkpoint [], None) (saved_demo no_plan [])).1
              (world_of (saved_demo no_plan [])) [Byte.x01; Byte.x02]);
      [|vm_compute; reflexivity].
    eapply (fresh_session _ "b" "d/f" "ck" (demo_world [("f", bytes5)]));
      vm_compute; reflexivity. }
  split; [exact Hr|].
  rewrite (proj1 (part_numbers_contiguous _ _ _ Hr)). vm_compute. reflexivity.
Defined.

(* ===================================================================== *)
(** * The orchestrator *)
(* ===================================================================== *)

Lemma run_tasks_app env cfg turns pre post w :
  run_tasks env cfg turns (pre ++ post) w
  = match run_tasks env cfg turns pre w with
    | Ret _ w1 => run_tasks env cfg turns post w1
    | r => r
    end.
Proof.
  revert w. induction pre as [|[f isDir] pre IH]; intros w; simpl; [done|].
  destruct isDir; [apply IH|].
  unfold bind. by destruct (uploadFile env cfg turns f w) as [[e|] w1| | |].
Qed.




(* ===================================================================== *)
(** * The requests of a run *)
(* ===================================================================== *)

Lemma uploaded_parts_app tr1 tr2 :
  uploaded_parts (tr1 ++ tr2) = uploaded_parts tr1 ++ uploaded_parts tr2.
Proof. apply omap_app. Qed.

Lemma completions_app tr1 tr2 :
  completions (tr1 ++ tr2) = completions tr1 ++ completions tr2.
Proof. apply omap_app. Qed.

Lemma adds_uploads_refl w : adds_uploads w w [].
Proof. exists []. by rewrite app_nil_r. Qed.

Lemma adds_uploads_trans w1 w2 w3 u1 u2 :
  adds_uploads w1 w2 u1 → adds_uploads w2 w3 u2 → adds_uploads w1 w3 (u1 ++ u2).
Proof.
  intros (t1 & H1 & C1 & U1) (t2 & H2 & C2 & U2). exists (t1 ++ t2).
  rewrite H2, H1, completions_app, uploaded_parts_app, C1, C2, U1, U2.
  by rewrite app_assoc.
Qed.

Lemma adds_uploads_same w w' : calls w' = calls w → adds_uploads w w' [].
Proof. intros H. exists []. by rewrite app_nil_r. Qed.

Lemma New_trace env b f d w cp w' :
  New env b f d w = Ret cp w' →
  parts cp = recorded_parts w (filepath_Join d (sha256_hex env f)) ∧
  adds_uploads w w' [].
Proof.
  unfold New, recorded_parts. intros H. sym_exec; cbn [parts].
  all: try match goal with
       | n : ¬ Z.of_nat (String.length (data ?c)) ≠ 0 |- _ =>
           destruct (data c); [|exfalso; apply n; simpl; lia]
       end.
  all: try (split; [done|]).
  all: try (apply adds_uploads_same; done).
  all: try (eexists [_]; done).
Qed.

Lemma Save_trace env cp buf w cp' w' :
  Save env cp buf w = Ret (cp', None) w' →
  ∃ p, parts cp' = parts cp ++ [p] ∧ adds_uploads w w' [toS3CompletedPart p].
Proof.
  intros (etag & c & -> & Hc & _)%Save_success. eexists. split; [done|].
  eexists [_]. done.
Qed.

Lemma iteration_trace env cfg cp file w s w' :
  iteration env cfg cp file w = Ret s w' →
  match s with
  | Continue cp' _ =>
      ∃ p, parts cp' = parts cp ++ [p] ∧ adds_uploads w w' [toS3CompletedPart p]
  | Break cp' => cp' = cp ∧ adds_uploads w w' []
  | Return _ => adds_uploads w w' []
  end.
Proof.
  unfold iteration, read_part. intros H. sym_exec.
  all: try (apply adds_uploads_same; done).
  all: try (split; [done|apply adds_uploads_same; done]).
  all: match goal with H : Save _ _ _ _ = _ |- _ => apply Save_trace in H as (p & ? & ?) end.
  all: eauto.
Qed.

Lemma upload_loop_trace env cfg turns cp file w r w' :
  upload_loop env cfg turns cp file w = Ret r w' →
  ∃ new, adds_uploads w w' (toS3CompletedParts new) ∧
         match r with inl cp' => parts cp' = parts cp ++ new | inr _ => True end.
Proof.
  revert cp file w. induction turns as [|turns IH]; intros cp file w H; [done|].
  simpl in H. unfold bind in H.
  destruct (iteration env cfg cp file w) as [s w1| | |] eqn:Hit; try done.
  apply iteration_trace in Hit. destruct s as [cp1 file1|cp1|err].
  - destruct Hit as (p & Hp & Hu). apply IH in H as (new & Hn & Hr).
    exists (p :: new). split.
    + apply (adds_uploads_trans _ _ _ [_] _ Hu Hn).
    + destruct r; [|done]. by rewrite Hr, Hp, <- app_assoc.
  - destruct Hit as [-> Hu]. unfold ret in H. simplify_eq.
    exists []. by rewrite app_nil_r.
  - unfold ret in H. simplify_eq. by exists [].
Qed.

Lemma os_Open_calls env path w r w' :
  os_Open env path w = Ret r w' → calls w' = calls w ∧ ckpt_files w' = ckpt_files w.
Proof. intros H. by sym_exec. Qed.

Lemma Seek_calls env cp file w r w' :
  Seek env cp file w = Ret r w' → calls w' = calls w.
Proof. unfold Seek. intros H. by sym_exec. Qed.

Lemma Complete_trace env cp w e w' :
  Complete env cp w = Ret e w' →
  ∃ tr, calls w' = calls w ++ tr ∧ completions tr = [toS3CompletedParts (parts cp)]
        ∧ uploaded_parts tr = [].
Proof.
  destruct (Complete_request env cp w) as (res & e0 & w0 & -> & Hc).
  intros [= <- <-]. eexists [_]. rewrite Hc. split; [reflexivity|split; reflexivity].
Qed.

(** C4: a run of the driver sends at most one completion request, and a
    run that returns [nil] sends one; the part list of that request is the
    parts the checkpoint file held when the run started, followed by the
    parts this run uploaded, in upload order. *)
Theorem Complete_sends_every_part env cfg turns fileName w e w' :
  uploadFile env cfg turns fileName w = Ret e w' →
  ∃ tr, calls w' = calls w ++ tr ∧
    let sent :=
      toS3CompletedParts
        (recorded_parts w (filepath_Join (checkpointDir cfg)
                             (sha256_hex env (filepath_Join (dirName cfg) fileName))))
      ++ uploaded_parts tr in
    (completions tr = [] ∨ completions tr = [sent]) ∧
    (e = None → completions tr = [sent]).
Proof.
  unfold uploadFile, bind. intros H.
  destruct (os_Open env _ w) as [[err|file] w1| | |] eqn:HO; try done.
  { unfold ret in H. simplify_eq. apply os_Open_calls in HO as [HO _].
    exists []. rewrite app_nil_r. split; [done|]. cbn zeta. split; [by left|done]. }
  apply os_Open_calls in HO as [HO Hck].
  destruct (New env _ _ _ w1) as [cp w2| | |] eqn:HN; try done.
  apply New_trace in HN as (Hparts & trN & HcN & HnoC & HnoU).
  unfold recorded_parts in Hparts. rewrite Hck in Hparts.
  fold (recorded_parts w (filepath_Join (checkpointDir cfg)
          (sha256_hex env (filepath_Join (dirName cfg) fileName)))) in Hparts.
  destruct (Seek env cp file w2) as [sought w3| | |] eqn:HS; try done.
  apply Seek_calls in HS.
  destruct (upload_loop env cfg turns cp sought.1 w3) as [[cp'|err] w4| | |] eqn:HL;
    try done.
  - apply upload_loop_trace in HL as (new & (trL & HcL & HLC & HLU) & Hcp').
    apply Complete_trace in H as (trC & HcC & HCC & HCU).
    exists (trN ++ trL ++ trC). split.
    { rewrite HcC, HcL, HS, HcN, HO. by rewrite !app_assoc. }
    cbn zeta. rewrite !completions_app, !uploaded_parts_app.
    rewrite HnoC, HLC, HCC, HnoU, HLU, HCU, Hcp', Hparts. simpl.
    rewrite app_nil_r. unfold toS3CompletedParts. rewrite fmap_app. auto.
  - apply upload_loop_trace in HL as (new & (trL & HcL & HLC & HLU) & _).
    unfold ret in H. simplify_eq.
    exists (trN ++ trL). split.
    { rewrite HcL, HS, HcN, HO. by rewrite !app_assoc. }
    cbn zeta. rewrite !completions_app, HnoC, HLC. simpl. split; [by left|done].
Qed.

Lemma Complete_sends_every_part_witness :
  let w0 := demo_world [("f", bytes5)] in
  let wk := world_of (uploadFile (demo_env no_plan) demo_cfg 2 "f" w0) in
  let r := uploadFile (demo_env no_plan) demo_cfg 10 "f" wk in
  drop (length (calls wk)) (calls (world_of r))
  = [CallUploadPart (Some "upload0") "b" "d/f" 3 [Byte.x05; Byte.x00] (inr "etag2");
     CallComplete (Some "upload0") "b" "d/f"
       [ {| s3_ETag := "etag2"; s3_PartNumber := 1 |};
         {| s3_ETag := "etag2"; s3_PartNumber := 2 |};
         {| s3_ETag := "etag2"; s3_PartNumber := 3 |} ] None] ∧
  ∃ tr, calls (world_of r) = calls wk ++ tr ∧
        completions tr
        = [toS3CompletedParts (recorded_parts wk "ck/hd/f") ++ uploaded_parts tr].
Proof.
  intros w0 wk r. split; [vm_compute; reflexivity|].
  destruct (Complete_sends_every_part (demo_env no_plan) demo_cfg 10 "f" wk None (world_of r))
    as (tr & Htr & _ & Hsent); [vm_compute; reflexivity|].
  exists tr. split; [exact Htr|exact (Hsent eq_refl)].
Defined.

(* ===================================================================== *)
(** * Runs in which nothing fails *)
(* ===================================================================== *)

Global Instance same_storage_equiv : Equivalence same_storage.
Proof.
  split.
  - by intros w.
  - intros w w' (?&?&?&?&?). by repeat split.
  - intros w1 w2 w3 (?&?&?&?&?) (?&?&?&?&?). repeat split; congruence.
Qed.

Lemma res_rel_bind {A B} (R : A → A → Prop) (S : B → B → Prop)
    (m m' : M A) (f f' : A → M B) w w' :
  res_rel R (m w) (m' w') →
  (∀ a a' w1 w1', R a a' → same_storage w1 w1' → res_rel S (f a w1) (f' a' w1')) →
  res_rel S (bind m f w) (bind m' f' w').
Proof.
  unfold bind. intros Hm Hf.
  destruct (m w), (m' w'); simpl in Hm; try done.
  destruct Hm. by apply Hf.
Qed.

Lemma insensitive_bind {A B} (m : M A) (f : A → M B) :
  insensitive m → (∀ a, insensitive (f a)) → insensitive (bind m f).
Proof.
  intros Hm Hf w w' Hw. eapply res_rel_bind; [by apply Hm|].
  intros a a' w1 w1' <- Hw1. by apply Hf.
Qed.

Lemma insensitive_ret {A} (a : A) : insensitive (ret a).
Proof. by intros w w' Hw. Qed.

Section NoFaults.
Context (env : Env) (Hnf : no_faults env).

Ltac prim_insensitive :=
  let Hs := fresh in let Hl := fresh in let Hd := fresh in
  let Hc := fresh in let H3 := fresh in
  intros ? ? (Hs & Hl & Hd & Hc & H3); run_prims; rewrite ?Hnf; world_simpl;
  rewrite <- ?Hs, <- ?Hl, <- ?Hd, <- ?Hc, <- ?H3;
  repeat (destruct_atom; world_simpl);
  unfold res_rel, same_storage; world_simpl;
  rewrite <- ?Hs, <- ?Hl, <- ?Hd, <- ?Hc, <- ?H3; done.

(** ** Every operation depends on the storage only *)

Lemma os_Stat_insensitive name : insensitive (os_Stat env name).
Proof. prim_insensitive. Qed.
Lemma os_Mkdir_insensitive name : insensitive (os_Mkdir env name).
Proof. prim_insensitive. Qed.
Lemma os_OpenFile_insensitive name : insensitive (os_OpenFile env name).
Proof. prim_insensitive. Qed.
Lemma os_Create_insensitive name : insensitive (os_Create env name).
Proof. prim_insensitive. Qed.
Lemma file_Write_insensitive h s : insensitive (file_Write env h s).
Proof. prim_insensitive. Qed.
Lemma file_Sync_insensitive h : insensitive (file_Sync env h).
Proof. prim_insensitive. Qed.
Lemma file_Size_insensitive h : insensitive (file_Size env h).
Proof. prim_insensitive. Qed.
Lemma file_content_insensitive h : insensitive (file_content h).
Proof. prim_insensitive. Qed.
Lemma os_Open_insensitive name : insensitive (os_Open env name).
Proof. prim_insensitive. Qed.
Lemma file_Seek_insensitive f off : insensitive (file_Seek env f off).
Proof. prim_insensitive. Qed.
Lemma make_bytes_insensitive n : insensitive (make_bytes n).
Proof. prim_insensitive. Qed.
Lemma log_line_insensitive l msg : insensitive (log_line l msg).
Proof. prim_insensitive. Qed.
Lemma Fatal_insensitive {A} msg : insensitive (@Fatal A msg).
Proof. prim_insensitive. Qed.
Lemma Panics_insensitive {A} msg : insensitive (@Panics A msg).
Proof. prim_insensitive. Qed.
Lemma s3_Create_insensitive b k : insensitive (s3_CreateMultipartUpload env b k).
Proof. prim_insensitive. Qed.
Lemma s3_UploadPart_insensitive u b k pn body :
  insensitive (s3_UploadPart env u b k pn body).
Proof. prim_insensitive. Qed.
Lemma s3_Complete_insensitive u b k ps :
  insensitive (s3_CompleteMultipartUpload env u b k ps).
Proof. prim_insensitive. Qed.


Ltac insens :=
  repeat first
    [ apply insensitive_ret
    | apply os_Stat_insensitive | apply os_Mkdir_insensitive
    | apply os_OpenFile_insensitive | apply os_Create_insensitive
    | apply file_Write_insensitive | apply file_Sync_insensitive
    | apply file_Size_insensitive | apply file_content_insensitive
    | apply os_Open_insensitive | apply file_Seek_insensitive
    | apply make_bytes_insensitive | apply log_line_insensitive
    | apply Fatal_insensitive | apply Panics_insensitive
    | apply s3_Create_insensitive | apply s3_UploadPart_insensitive
    | apply s3_Complete_insensitive
    | apply insensitive_bind; [|intros ?]
    | match goal with |- insensitive (match ?x with _ => _ end) => destruct x end ].

Lemma New_insensitive b f d : insensitive (New env b f d).
Proof. unfold New. insens. Qed.

Lemma Save_insensitive cp buf : insensitive (Save env cp buf).
Proof. unfold Save, Save_request. insens. Qed.

Lemma Complete_insensitive cp : insensitive (Complete env cp).
Proof. unfold Complete. insens. Qed.

Lemma Seek_insensitive cp f : insensitive (Seek env cp f).
Proof. unfold Seek. insens. Qed.

Lemma file_Read_equiv f f' buffer w w' :
  file_equiv f f' → same_storage w w' →
  res_rel (λ r r', file_equiv r.1.1.1 r'.1.1.1 ∧ r.1.1.2 = r'.1.1.2
                   ∧ r.1.2 = r'.1.2 ∧ r.2 = r'.2)
    (file_Read env f buffer w) (file_Read env f' buffer w').
Proof.
  intros [Hd Hp] Hw. run_prims. rewrite !Hnf.
  assert (take (length buffer) (drop (Z.to_nat (fh_pos f)) (fh_data f))
          = take (length buffer) (drop (Z.to_nat (fh_pos f')) (fh_data f'))) as Hchunk.
  { rewrite <- Hd. destruct Hp as [->|[H1 H2]]; [done|].
    rewrite !drop_ge by lia. done. }
  rewrite <- Hchunk.
  assert (same_storage (add_read (Z.of_nat (length (take (length buffer)
                          (drop (Z.to_nat (fh_pos f)) (fh_data f))))) (next_tick w))
                       (add_read (Z.of_nat (length (take (length buffer)
                          (drop (Z.to_nat (fh_pos f)) (fh_data f))))) (next_tick w'))) as Hw'.
  { destruct Hw as (?&?&?&?&?). by repeat split. }
  unfold bind, modify, ret.
  destruct buffer as [|x buffer]; [by split; [|exact Hw']|].
  destruct (take _ _) as [|y chunk] eqn:E; [by split; [|exact Hw']|].
  split; [|exact Hw']. simpl. repeat split; try done.
  destruct Hp as [->|[H1 H2]]; [by left|].
  exfalso. rewrite drop_ge in E by lia. by rewrite take_nil in E.
Qed.

Context (cfg : Config).

Lemma Fatal_rel {A} (R : A → A → Prop) msg w w' :
  same_storage w w' → res_rel R (Fatal msg w) (Fatal msg w').
Proof. intros (?&?&?&?&?). by repeat split. Qed.

Lemma read_part_equiv cp f f' w w' :
  file_equiv f f' → same_storage w w' →
  res_rel (λ r r', match r, r' with
                   | inl s, inl s' => step_equiv s s'
                   | inr (f1, b1), inr (f2, b2) => file_equiv f1 f2 ∧ b1 = b2
                   | _, _ => False
                   end)
    (read_part env cfg cp f w) (read_part env cfg cp f' w').
Proof.
  intros Hf Hw. unfold read_part.
  eapply res_rel_bind; [by apply make_bytes_insensitive|].
  intros buffer ? w1 w1' <- Hw1.
  eapply res_rel_bind; [by apply file_Read_equiv|].
  intros [[[f1 b1] n1] e1] [[[f2 b2] n2] e2] w2 w2' (Hf12 & Hb & Hn & He) Hw2.
  simpl in *. subst. unfold ret.
  repeat case_decide; simpl; done.
Qed.

Lemma iteration_equiv cp f f' w w' :
  file_equiv f f' → same_storage w w' →
  res_rel step_equiv (iteration env cfg cp f w) (iteration env cfg cp f' w').
Proof.
  intros Hf Hw. unfold iteration.
  eapply res_rel_bind; [by apply read_part_equiv|].
  intros [s|[f1 b1]] [s'|[f2 b2]] w1 w1' Hr Hw1; try done.
  destruct Hr as [Hf12 <-].
  eapply res_rel_bind; [by apply Save_insensitive|].
  intros [l [e|]] ? w2 w2' <- Hw2.
  - by apply Fatal_rel.
  - by split.
Qed.

Lemma upload_loop_equiv turns cp f f' w w' :
  file_equiv f f' → same_storage w w' →
  res_rel eq (upload_loop env cfg turns cp f w) (upload_loop env cfg turns cp f' w').
Proof.
  revert cp f f' w w'. induction turns as [|turns IH]; intros cp f f' w w' Hf Hw; [done|].
  simpl. eapply res_rel_bind; [by apply iteration_equiv|].
  intros [l1 f1|l1|e1] [l2 f2|l2|e2] w1 w1' Hs Hw1; try done.
  - destruct Hs as [<- Hf12]. by apply IH.
  - simpl in Hs. by subst.
  - simpl in Hs. by subst.
Qed.


(** ** The primitives when nothing fails *)

Lemma file_Read_chunk f buffer w :
  buffer ≠ [] →
  let chunk := take (length buffer) (drop (Z.to_nat (fh_pos f)) (fh_data f)) in
  chunk ≠ [] →
  file_Read env f buffer w
  = Ret ({| fh_data := fh_data f; fh_pos := fh_pos f + Z.of_nat (length chunk) |},
         chunk ++ drop (length chunk) buffer, Z.of_nat (length chunk), None)
        (add_read (Z.of_nat (length chunk)) (next_tick w)).
Proof.
  intros Hb chunk Hc. run_prims. rewrite Hnf. fold chunk.
  destruct buffer; [done|]. by destruct chunk.
Qed.

Lemma file_Read_eof f buffer w :
  buffer ≠ [] →
  take (length buffer) (drop (Z.to_nat (fh_pos f)) (fh_data f)) = [] →
  file_Read env f buffer w = Ret (f, buffer, 0, Some Go.EOF) (add_read 0 (next_tick w)).
Proof.
  intros Hb Hc. run_prims. rewrite Hnf, Hc. by destruct buffer.
Qed.

Lemma Save_nf cp buf w c st' :
  service_upload_part env (s3 w) (uploadID cp) (bucket cp)
    (Go.strings_TrimPrefix_slash (key cp)) (Z.of_nat (length (parts cp)) + 1) buf
  = inr (etag_of env buf, st') →
  ckpt_files w !! checkpointFile cp = Some c →
  let p := {| ETag := etag_of env buf;
              PartNumber := Z.of_nat (length (parts cp)) + 1;
              Size := Z.of_nat (length buf) |} in
  ∃ w', Save env cp buf w = Ret (with_part cp p, None) w' ∧
        src_files w' = src_files w ∧ listing w' = listing w ∧
        dir_kind w' = dir_kind w ∧
        ckpt_files w'
        = <[checkpointFile cp:={| data := data c +:+ part_line p;
                                   synced := data c +:+ part_line p |}]> (ckpt_files w) ∧
        s3 w' = st'.
Proof.
  intros Hup Hc p. unfold Save, Save_request. run_prims.
  repeat (progress (rewrite ?Hnf, ?Hup, ?Hc, ?lookup_insert_eq;
                    world_simpl; cbn [checkpointFile])).
  eexists. split; [reflexivity|]. world_simpl. repeat split.
  by rewrite insert_insert_eq.
Qed.


Context (Hclean : clean_env env) (Hps : 0 < partSize cfg).
Context (fileName id : string) (content : list Byte.byte).
Context (Hbound : Z.of_nat (length content) + partSize cfg < 2 ^ 63).

Local Abbreviation L := (Z.of_nat (length content)).
Local Abbreviation resumable_here := (resumable env cfg fileName id content).

(** ** The invariant of the loop *)

Lemma part_buffer_length pos :
  length (part_buffer cfg content pos) = Z.to_nat (partSize cfg).
Proof.
  unfold part_buffer. rewrite length_app, length_drop, length_take, !length_replicate.
  lia.
Qed.

Lemma sum_sizes_const ps :
  Forall (λ p, Size p = partSize cfg) ps →
  sum_sizes ps = Z.of_nat (length ps) * partSize cfg.
Proof. induction 1 as [|p ps Hp _ IH]; simpl; [done|]. rewrite Hp, IH. lia. Qed.

Lemma resumable_clean cp f w :
  resumable_here cp f w → Forall clean_part (parts cp).
Proof.
  intros H. pose proof (sum_sizes_const _ (rs_sizes _ _ _ _ _ _ _ _ H)) as Hsum.
  pose proof (rs_bound _ _ _ _ _ _ _ _ H) as Hb.
  pose proof (rs_numbers _ _ _ _ _ _ _ _ H) as Hn.
  pose proof (rs_sizes _ _ _ _ _ _ _ _ H) as Hs.
  pose proof (rs_etags _ _ _ _ _ _ _ _ H) as He.
  apply Forall_forall. intros p Hp.
  rewrite Forall_forall in Hs, He.
  destruct (He p Hp) as [He1 He2]. specialize (Hs p Hp).
  assert (1 <= PartNumber p <= Z.of_nat (length (parts cp))) as Hpn.
  { assert (PartNumber p ∈ PartNumber <$> parts cp) as Hin by (by apply list_elem_of_fmap_2).
    rewrite Hn in Hin. apply elem_of_seqZ in Hin. lia. }
  repeat split; try done; nia.
Qed.


Lemma upload_next_part cp f w body :
  resumable_here cp f w →
  ∃ st' u,
    service_upload_part env (s3 w) (uploadID cp) (bucket cp)
      (Go.strings_TrimPrefix_slash (key cp)) (Z.of_nat (length (parts cp)) + 1) body
    = inr (etag_of env body, st') ∧
    uploads (s3 w) !! id = Some u ∧
    st' = {| uploads :=
               <[id:={| up_bucket := up_bucket u; up_key := up_key u;
                        up_parts := <[Z.of_nat (length (parts cp)) + 1 :=
                                        {| part_etag := etag_of env body;
                                           part_body := body |}]> (up_parts u) |}]>
                 (uploads (s3 w));
             objects := objects (s3 w); created := created (s3 w) |}.
Proof.
  intros H. destruct (rs_s3 _ _ _ _ _ _ _ _ H) as (u & Hu & Hb & Hk & _).
  exists {| uploads :=
               <[id:={| up_bucket := up_bucket u; up_key := up_key u;
                        up_parts := <[Z.of_nat (length (parts cp)) + 1 :=
                                        {| part_etag := etag_of env body;
                                           part_body := body |}]> (up_parts u) |}]>
                 (uploads (s3 w));
             objects := objects (s3 w); created := created (s3 w) |}, u.
  split; [|done].
  unfold service_upload_part, find_upload.
  rewrite (rs_id _ _ _ _ _ _ _ _ H), Hu, (rs_bucket _ _ _ _ _ _ _ _ H),
    (rs_key _ _ _ _ _ _ _ _ H).
  by rewrite decide_True by done.
Qed.

Lemma listed_body_insert_ne u pn q x :
  s3_PartNumber q ≠ pn →
  listed_body {| up_bucket := up_bucket u; up_key := up_key u;
                 up_parts := <[pn:=x]> (up_parts u) |} q
  = listed_body u q.
Proof. intros Hne. unfold listed_body. simpl. by rewrite lookup_insert_ne. Qed.

Lemma part_number_in_range cp f w q :
  resumable_here cp f w → q ∈ toS3CompletedParts (parts cp) →
  1 <= s3_PartNumber q <= Z.of_nat (length (parts cp)).
Proof.
  intros H Hq. unfold toS3CompletedParts in Hq.
  apply list_elem_of_fmap in Hq as (p & -> & Hp). simpl.
  assert (PartNumber p ∈ PartNumber <$> parts cp) as Hin by (by apply list_elem_of_fmap_2).
  rewrite (rs_numbers _ _ _ _ _ _ _ _ H) in Hin. apply elem_of_seqZ in Hin. lia.
Qed.

(** Uploading the next part again, or for the first time, keeps the state
    resumable. *)
Lemma resumable_uploaded cp f w w' body st' :
  resumable_here cp f w →
  service_upload_part env (s3 w) (uploadID cp) (bucket cp)
    (Go.strings_TrimPrefix_slash (key cp)) (Z.of_nat (length (parts cp)) + 1) body
  = inr (etag_of env body, st') →
  src_files w' = src_files w → dir_kind w' = dir_kind w →
  ckpt_files w' = ckpt_files w → s3 w' = st' →
  resumable_here cp f w'.
Proof.
  intros H Hup Hs Hd Hc H3.
  destruct (upload_next_part cp f w body H) as (st2 & u & Hup2 & Hu & Hst2).
  rewrite Hup in Hup2. injection Hup2 as Hst. rewrite <- Hst in Hst2. clear Hst Hup.
  pose proof (λ q, part_number_in_range cp f w q H) as Hrange.
  destruct H as [? ? ? ? ? ? ? ? ? ? ? ? ? ? Hs3]. split; try done.
  - by rewrite Hc.
  - by rewrite Hd.
  - by rewrite Hs.
  - rewrite H3, Hst2. simpl. eexists. split; [apply lookup_insert_eq|]. simpl.
    destruct Hs3 as (u' & Hu' & Hb & Hk & Hl). simplify_eq.
    repeat split; try done.
    apply Forall_forall. intros q Hq. rewrite Forall_forall in Hl.
    rewrite listed_body_insert_ne; [by apply Hl|].
    specialize (Hrange q Hq). lia.
Qed.


Lemma chunk_length pos :
  0 <= pos →
  Z.of_nat (length (take (Z.to_nat (partSize cfg)) (drop (Z.to_nat pos) content)))
  = Z.max 0 (Z.min (partSize cfg) (L - pos)).
Proof. intros Hpos. rewrite length_take, length_drop. lia. Qed.

Lemma read_part_continue cp f w :
  resumable_here cp f w → sum_sizes (parts cp) < L →
  let n := Z.min (partSize cfg) (L - fh_pos f) in
  read_part env cfg cp f w
  = Ret (inr ({| fh_data := content; fh_pos := fh_pos f + n |},
              part_buffer cfg content (fh_pos f)))
        (add_read n (next_tick w)).
Proof.
  intros H Hlt n.
  pose proof (sum_sizes_nonneg (parts cp)) as Hnn.
  assert (0 <= sum_sizes (parts cp)) as Hsum0.
  { apply Hnn. eapply Forall_impl; [apply (rs_sizes _ _ _ _ _ _ _ _ H)|].
    intros q Hq. simpl in Hq. lia. }
  pose proof (rs_pos _ _ _ _ _ _ _ _ H) as Hpos.
  pose proof (rs_data _ _ _ _ _ _ _ _ H) as Hdata.
  pose proof (chunk_length (fh_pos f) ltac:(lia)) as Hchunk.
  set (chunk := take (Z.to_nat (partSize cfg)) (drop (Z.to_nat (fh_pos f)) content)) in *.
  assert (n = Z.of_nat (length chunk)) as -> by lia.
  unfold read_part, bind, make_bytes.
  rewrite decide_False by lia. unfold ret.
  rewrite file_Read_chunk.
  - rewrite length_replicate, Hdata. fold chunk.
    rewrite decide_False by (intros [? _]; done).
    rewrite decide_False by lia.
    assert (chunk ++ drop (length chunk) (replicate (Z.to_nat (partSize cfg)) Byte.x00)
            = part_buffer cfg content (fh_pos f)) as ->.
    { unfold part_buffer. cbn zeta. by rewrite length_replicate. }
    reflexivity.
  - intros Hr. apply (f_equal length) in Hr. rewrite length_replicate in Hr.
    simpl in Hr. lia.
  - rewrite length_replicate, Hdata. fold chunk. intros Hr. rewrite Hr in Hchunk.
    simpl in Hchunk. lia.
Qed.

Lemma read_part_at_end cp f w :
  fh_data f = content → L <= fh_pos f →
  read_part env cfg cp f w = Ret (inl (Break cp)) (add_read 0 (next_tick w)).
Proof.
  intros Hdata Hpos.
  unfold read_part, bind, make_bytes.
  rewrite decide_False by lia. unfold ret.
  rewrite file_Read_eof.
  - rewrite decide_False by (intros [_ ?]; done).
    by rewrite decide_True by done.
  - intros Hr. apply (f_equal length) in Hr. rewrite length_replicate in Hr.
    simpl in Hr. lia.
  - rewrite Hdata, drop_ge by lia. by rewrite take_nil.
Qed.

Lemma read_part_break cp f w :
  resumable_here cp f w → L <= sum_sizes (parts cp) →
  read_part env cfg cp f w = Ret (inl (Break cp)) (add_read 0 (next_tick w)).
Proof.
  intros H Hge. apply read_part_at_end; [apply H|].
  rewrite (rs_pos _ _ _ _ _ _ _ _ H). lia.
Qed.

Lemma iteration_continue cp f w :
  resumable_here cp f w → sum_sizes (parts cp) < L →
  let body := part_buffer cfg content (fh_pos f) in
  let p := {| ETag := etag_of env body;
              PartNumber := Z.of_nat (length (parts cp)) + 1;
              Size := partSize cfg |} in
  let f' := {| fh_data := content;
               fh_pos := fh_pos f + Z.min (partSize cfg) (L - fh_pos f) |} in
  ∃ st' c w',
    iteration env cfg cp f w = Ret (Continue (with_part cp p) f') w' ∧
    service_upload_part env (s3 w) (uploadID cp) (bucket cp)
      (Go.strings_TrimPrefix_slash (key cp)) (Z.of_nat (length (parts cp)) + 1) body
    = inr (etag_of env body, st') ∧
    ckpt_files w !! checkpoint_name env cfg fileName = Some c ∧
    src_files w' = src_files w ∧ listing w' = listing w ∧ dir_kind w' = dir_kind w ∧
    ckpt_files w'
    = <[checkpoint_name env cfg fileName:=
          {| data := data c +:+ part_line p; synced := data c +:+ part_line p |}]>
        (ckpt_files w) ∧
    s3 w' = st' ∧
    fh_pos f < fh_pos f' ∧
    resumable_here (with_part cp p) f' w'.
Proof.
  intros H Hlt body p f'.
  pose proof (sum_sizes_nonneg (parts cp)) as Hnn.
  assert (0 <= sum_sizes (parts cp)) as Hsum0.
  { apply Hnn. eapply Forall_impl; [apply (rs_sizes _ _ _ _ _ _ _ _ H)|].
    intros q Hq. simpl in Hq. lia. }
  pose proof (rs_pos _ _ _ _ _ _ _ _ H) as Hpos.
  assert (fh_pos f = sum_sizes (parts cp)) as Hpos' by lia.
  destruct (upload_next_part cp f w body H) as (st' & u & Hup & Hu & Hst').
  destruct (rs_ckpt _ _ _ _ _ _ _ _ H) as (c & Hc & Hdc).
  pose proof Hc as Hc'. rewrite <- (rs_file _ _ _ _ _ _ _ _ H) in Hc'.
  destruct (Save_nf cp body
              (add_read (Z.min (partSize cfg) (L - fh_pos f)) (next_tick w)) c st' Hup Hc')
    as (w' & HS & Hsrc & Hlist & Hdir & Hck & Hs3).
  assert (Z.of_nat (length body) = partSize cfg) as Hlen.
  { unfold body. rewrite part_buffer_length. lia. }
  rewrite Hlen in HS, Hck. fold p in HS, Hck.
  exists st', c, w'.
  split.
  { unfold iteration, bind. rewrite read_part_continue by done. fold body.
    by rewrite HS. }
  world_simpl. rewrite (rs_file _ _ _ _ _ _ _ _ H) in Hck.
  do 7 (split; [done|]). split; [simpl; lia|].
  pose proof (λ q, part_number_in_range cp f w q H) as Hrange.
  destruct H as [Hid Hidc Hfile Hbucket Hkey Hd Hp Hsz Hnum Het Hbd Hckp Hdr Hsr Hl].
  split; simpl; try done.
  - rewrite sum_sizes_app. simpl. lia.
  - apply Forall_app. split; [done|]. by repeat constructor.
  - rewrite fmap_app, Hnum, length_app, Nat.add_1_r, seqZ_S.
    simpl. do 2 f_equal. lia.
  - apply Forall_app. split; [done|]. repeat constructor; simpl; apply Hclean.
  - rewrite sum_sizes_app. simpl. lia.
  - rewrite Hck. eexists. split; [apply lookup_insert_eq|]. simpl.
    by rewrite Hdc, part_lines_snoc, !str_app_assoc.
  - by rewrite Hdir.
  - by rewrite Hsrc.
  - rewrite Hs3, Hst'. simpl. eexists. split; [apply lookup_insert_eq|]. simpl.
    destruct Hl as (u' & Hu' & Hb & Hk & Hl). simplify_eq.
    repeat split; try done.
    unfold toS3CompletedParts. rewrite fmap_app. apply Forall_app. split.
    + apply Forall_forall. intros q Hq. rewrite Forall_forall in Hl.
      rewrite listed_body_insert_ne; [by apply Hl|].
      specialize (Hrange q Hq). lia.
    + repeat constructor. unfold listed_body. simpl.
      rewrite lookup_insert_eq. simpl. by rewrite decide_True.
Qed.


Lemma iteration_break cp f w :
  resumable_here cp f w → L <= sum_sizes (parts cp) →
  iteration env cfg cp f w = Ret (Break cp) (add_read 0 (next_tick w)).
Proof.
  intros H Hge. unfold iteration, bind. by rewrite read_part_break.
Qed.

Lemma Complete_resumable cp f w :
  resumable_here cp f w →
  ∃ bodies w',
    Complete env cp w = Ret None w' ∧
    src_files w' = src_files w ∧ listing w' = listing w ∧ dir_kind w' = dir_kind w ∧
    ckpt_files w' = ckpt_files w ∧
    s3 w' = {| uploads := delete id (uploads (s3 w));
               objects := <[(bucketName cfg, object_key cfg fileName):=concat bodies]>
                            (objects (s3 w));
               created := created (s3 w) |}.
Proof.
  intros H. destruct (rs_s3 _ _ _ _ _ _ _ _ H) as (u & Hu & Hb & Hk & Hl).
  apply mapM_is_Some in Hl as [bodies Hbodies].
  exists bodies. unfold Complete. run_prims.
  rewrite Hnf. world_simpl. unfold service_complete, find_upload.
  rewrite (rs_id _ _ _ _ _ _ _ _ H), Hu, (rs_bucket _ _ _ _ _ _ _ _ H),
    (rs_key _ _ _ _ _ _ _ _ H).
  rewrite decide_True by done. rewrite Hbodies. world_simpl.
  eexists. split; [reflexivity|]. by world_simpl.
Qed.

Lemma finish_returns turns cp f w :
  resumable_here cp f w → L - fh_pos f < Z.of_nat turns →
  ∃ cp' f' w' w1,
    resumable_here cp' f' w' ∧ L <= sum_sizes (parts cp') ∧
    finish env cfg turns cp f w = Ret None w1 ∧
    ckpt_files w1 = ckpt_files w' ∧
    is_Some (objects (s3 w1) !! (bucketName cfg, object_key cfg fileName)) ∧
    src_files w1 = src_files w' ∧ dir_kind w1 = dir_kind w' ∧
    uploads (s3 w1) !! id = None.
Proof.
  revert cp f w. induction turns as [|turns IH]; intros cp f w H Hturns.
  { pose proof (rs_pos _ _ _ _ _ _ _ _ H). lia. }
  unfold finish. simpl. unfold bind at 1 2.
  destruct (decide (sum_sizes (parts cp) < L)) as [Hlt|Hge].
  - destruct (iteration_continue cp f w H Hlt)
      as (st' & c & w' & Hit & _ & _ & _ & _ & _ & _ & _ & Hpos & H').
    rewrite Hit. apply (IH _ _ _ H'). simpl in *. lia.
  - rewrite (iteration_break cp f w H) by lia. unfold ret.
    assert (resumable_here cp f (add_read 0 (next_tick w))) as H'.
    { destruct H. by split. }
    destruct (Complete_resumable cp f (add_read 0 (next_tick w)) H')
      as (bodies & w' & HC & Hsr & _ & Hdr & Hck & Hs3).
    exists cp, f, (add_read 0 (next_tick w)), w'.
    split; [done|]. split; [lia|]. split; [done|]. split; [done|].
    rewrite Hs3. simpl. rewrite lookup_insert_eq, lookup_delete_eq.
    split; [by eexists|]. by rewrite Hsr, Hdr.
Qed.

Lemma upload_loop_more_turns turns extra cp f w r w' :
  upload_loop env cfg turns cp f w = Ret r w' →
  upload_loop env cfg (turns + extra) cp f w = Ret r w'.
Proof.
  revert cp f w. induction turns as [|turns IH]; intros cp f w H; [done|].
  simpl in *. unfold bind in *.
  destruct (iteration env cfg cp f w) as [[l1 f1|l1|e1] w1| | |]; try done.
  by apply IH.
Qed.


(** ** Opening the checkpoint: first run and later runs *)

Lemma str_length_app a b : String.length (a +:+ b) = (String.length a + String.length b)%nat.
Proof.
  induction a as [|x a IH]; rewrite ?str_app_nil, ?str_app_cons; simpl; [done|].
  by rewrite IH.
Qed.

Lemma start_fresh w :
  src_files w !! source_path cfg fileName = Some content →
  ckpt_files w !! checkpoint_name env cfg fileName = None →
  dir_kind w !! checkpointDir cfg ≠ Some false →
  id = upload_id_of env (created (s3 w)) →
  ∃ cp0 f0 wa wb w1,
    os_Open env (source_path cfg fileName) w
    = Ret (inr {| fh_data := content; fh_pos := 0 |}) wa ∧
    New env (bucketName cfg) (source_path cfg fileName) (checkpointDir cfg) wa = Ret cp0 wb ∧
    Seek env cp0 {| fh_data := content; fh_pos := 0 |} wb = Ret (f0, None) w1 ∧
    resumable_here cp0 f0 w1.
Proof.
  intros Hsrc Hck Hdir Hid.
  assert (∃ wb, New env (bucketName cfg) (source_path cfg fileName) (checkpointDir cfg)
                  (next_tick w)
                = Ret {| uploadID := Some id; parts := [];
                         checkpointFile := checkpoint_name env cfg fileName;
                         bucket := bucketName cfg; key := source_path cfg fileName |} wb ∧
                src_files wb = src_files w ∧
                dir_kind wb !! checkpointDir cfg = Some true ∧
                ckpt_files wb !! checkpoint_name env cfg fileName
                = Some {| data := id +:+ LF; synced := id +:+ LF |} ∧
                uploads (s3 wb) !! id
                = Some {| up_bucket := bucketName cfg; up_key := object_key cfg fileName;
                          up_parts := ∅ |}) as (wb & HN & Hsrc' & Hdir' & Hck' & Hup').
  { unfold New. fold (checkpoint_name env cfg fileName). run_prims. unfold service_create.
    destruct (dir_kind w !! checkpointDir cfg) as [[]|] eqn:Hd; [|done|].
    - repeat (progress (rewrite ?Hnf, ?Hd, ?Hck, ?lookup_insert_eq, <- ?Hid; world_simpl)).
      rewrite decide_True by done.
      repeat (progress (rewrite ?Hnf, ?Hd, ?Hck, ?lookup_insert_eq, <- ?Hid; world_simpl)).
      eexists. split; [reflexivity|]. world_simpl. cbn [data synced uploads].
      rewrite !lookup_insert_eq. by repeat split.
    - repeat (progress (rewrite ?Hnf, ?Hd, ?Hck, ?lookup_insert_eq, <- ?Hid; world_simpl)).
      rewrite decide_True by done.
      repeat (progress (rewrite ?Hnf, ?Hd, ?Hck, ?lookup_insert_eq, <- ?Hid; world_simpl)).
      rewrite decide_True by done.
      repeat (progress (rewrite ?Hnf, ?Hd, ?Hck, ?lookup_insert_eq, <- ?Hid; world_simpl)).
      eexists. split; [reflexivity|]. world_simpl. cbn [data synced uploads].
      rewrite !lookup_insert_eq. by repeat split. }
  eexists _, {| fh_data := content; fh_pos := 0 |}, (next_tick w), wb, (next_tick wb).
  split; [|split; [exact HN|split]].
  - run_prims. rewrite Hnf. world_simpl. by rewrite Hsrc.
  - unfold Seek. run_prims. by rewrite Hnf.
  - split; simpl; try done.
    + rewrite Hid. apply Hclean.
    + lia.
    + lia.
    + eexists. split; [exact Hck'|]. simpl. by rewrite str_app_nil_r.
    + by rewrite Hsrc'.
    + eexists. split; [exact Hup'|]. by repeat split.
Qed.


Lemma start_resumed_from cp f w0 w :
  resumable_here cp f w0 →
  src_files w = src_files w0 → dir_kind w = dir_kind w0 →
  ckpt_files w = ckpt_files w0 →
  ∃ wa wb w1,
    os_Open env (source_path cfg fileName) w
    = Ret (inr {| fh_data := content; fh_pos := 0 |}) wa ∧
    New env (bucketName cfg) (source_path cfg fileName) (checkpointDir cfg) wa = Ret cp wb ∧
    Seek env cp {| fh_data := content; fh_pos := 0 |} wb
    = Ret ({| fh_data := content; fh_pos := sum_sizes (parts cp) |}, None) w1 ∧
    same_storage w w1 ∧
    file_equiv f {| fh_data := content; fh_pos := sum_sizes (parts cp) |}.
Proof.
  intros H Esr Edr Eck. pose proof (resumable_clean cp f w0 H) as Hcl.
  pose proof (sum_sizes_nonneg (parts cp)) as Hnn.
  assert (0 <= sum_sizes (parts cp)) as Hsum0.
  { apply Hnn. eapply Forall_impl; [apply (rs_sizes _ _ _ _ _ _ _ _ H)|].
    intros q Hq. simpl in Hq. lia. }
  destruct H as [Hid [Hidl Hidc] Hfile Hbucket Hkey Hd Hp Hsz Hnum Het Hbd Hckp Hdr Hsr Hl].
  destruct Hckp as (c & Hc & Hdc).
  rewrite <- Esr in Hsr. rewrite <- Edr in Hdr. rewrite <- Eck in Hc.
  exists (next_tick w), (next_tick (next_tick (next_tick (next_tick w)))),
    (next_tick (next_tick (next_tick (next_tick (next_tick w))))).
  split; [|split; [|split; [|split]]].
  - run_prims. rewrite Hnf. world_simpl. by rewrite Hsr.
  - unfold New. fold (checkpoint_name env cfg fileName). run_prims.
    repeat (progress (rewrite ?Hnf, ?Hdr, ?Hc; world_simpl)).
    rewrite decide_True.
    2:{ rewrite Hdc, !str_length_app. simpl. lia. }
    world_simpl. rewrite Hc, Hdc, ScanLines_line by done. simpl.
    rewrite ScanLines_part_lines by done. rewrite Hidc.
    destruct cp; simpl in *. by subst.
  - unfold Seek. run_prims. rewrite Hnf.
    rewrite seekOffset_exact.
    + by rewrite decide_False by lia.
    + eapply Forall_impl; [exact Hsz|]. intros q Hq. simpl in Hq. lia.
    + unfold Go.int64_max. lia.
  - by repeat split.
  - split; [done|]. simpl. rewrite Hd. lia.
Qed.

Lemma start_resumed cp f w :
  resumable_here cp f w →
  ∃ wa wb w1,
    os_Open env (source_path cfg fileName) w
    = Ret (inr {| fh_data := content; fh_pos := 0 |}) wa ∧
    New env (bucketName cfg) (source_path cfg fileName) (checkpointDir cfg) wa = Ret cp wb ∧
    Seek env cp {| fh_data := content; fh_pos := 0 |} wb
    = Ret ({| fh_data := content; fh_pos := sum_sizes (parts cp) |}, None) w1 ∧
    same_storage w w1 ∧
    file_equiv f {| fh_data := content; fh_pos := sum_sizes (parts cp) |}.
Proof.
  intros H. by apply (start_resumed_from cp f w w).
Qed.


(** ** Cutting a run after [k] turns *)

Lemma after_turns {A} k (next : LocalCheckpoint → FileH → M A) (ended : M A) cp f w :
  resumable_here cp f w →
  (∃ cp' f' w',
      resumable_here cp' f' w' ∧
      turns_then env cfg k next ended cp f w = next cp' f' w' ∧
      upload_loop env cfg k cp f w = Stopped w' ∧
      ∀ m, upload_loop env cfg (k + m) cp f w = upload_loop env cfg m cp' f' w')
  ∨ (∃ w' r w'',
      turns_then env cfg k next ended cp f w = ended w' ∧
      upload_loop env cfg k cp f w = Ret r w'').
Proof.
  revert cp f w. induction k as [|k IH]; intros cp f w H.
  { left. by exists cp, f, w. }
  simpl. unfold bind.
  destruct (decide (sum_sizes (parts cp) < L)) as [Hlt|Hge].
  - destruct (iteration_continue cp f w H Hlt)
      as (st' & c & w' & Hit & _ & _ & _ & _ & _ & _ & _ & Hpos & H').
    rewrite Hit. apply (IH _ _ _ H').
  - rewrite (iteration_break cp f w H) by lia. right. by eexists _, _, _.
Qed.


Lemma finish_equiv turns cp f f' w w' :
  file_equiv f f' → same_storage w w' →
  res_rel eq (finish env cfg turns cp f w) (finish env cfg turns cp f' w').
Proof.
  intros Hf Hw. unfold finish.
  eapply res_rel_bind; [by apply upload_loop_equiv|].
  intros [l|e] ? w1 w1' <- Hw1; [by apply Complete_insensitive|done].
Qed.

Lemma finish_more_turns turns extra cp f w r w' :
  finish env cfg turns cp f w = Ret r w' →
  finish env cfg (turns + extra) cp f w = Ret r w'.
Proof.
  unfold finish, bind. intros H.
  destruct (upload_loop env cfg turns cp f w) as [x w1| | |] eqn:HL; try done.
  by rewrite (upload_loop_more_turns _ extra _ _ _ _ _ HL).
Qed.

Lemma uploadFile_started turns w file cp wa wb sought w1 :
  os_Open env (source_path cfg fileName) w = Ret (inr file) wa →
  New env (bucketName cfg) (source_path cfg fileName) (checkpointDir cfg) wa = Ret cp wb →
  Seek env cp file wb = Ret sought w1 →
  uploadFile env cfg turns fileName w = finish env cfg turns cp sought.1 w1.
Proof.
  intros HO HN HS. unfold uploadFile, finish. fold (source_path cfg fileName).
  unfold bind at 1. rewrite HO. unfold bind at 1. rewrite HN.
  unfold bind at 1. by rewrite HS.
Qed.


(** The world a process killed inside [Save] leaves: the one before the
    turn, with the next part stored by the service. *)
Lemma killed_world cp f w wb :
  resumable_here cp f w →
  (do r <- read_part env cfg cp f;
   match r with
   | inl _ => ret tt
   | inr (_, buffer) => Save_request env cp buffer;; λ w, Stopped w
   end) w = Stopped wb →
  sum_sizes (parts cp) < L ∧
  ∃ st',
    service_upload_part env (s3 w) (uploadID cp) (bucket cp)
      (Go.strings_TrimPrefix_slash (key cp)) (Z.of_nat (length (parts cp)) + 1)
      (part_buffer cfg content (fh_pos f))
    = inr (etag_of env (part_buffer cfg content (fh_pos f)), st') ∧
    src_files wb = src_files w ∧ listing wb = listing w ∧ dir_kind wb = dir_kind w ∧
    ckpt_files wb = ckpt_files w ∧ s3 wb = st'.
Proof.
  intros H. unfold bind at 1.
  destruct (decide (sum_sizes (parts cp) < L)) as [Hlt|Hge].
  - rewrite read_part_continue by done.
    destruct (upload_next_part cp f w (part_buffer cfg content (fh_pos f)) H)
      as (st' & u & Hup & _).
    unfold Save_request. run_prims. rewrite Hnf. world_simpl. rewrite Hup.
    intros [= <-]. split; [done|]. exists st'. by world_simpl.
  - by rewrite (read_part_break cp f w H) by lia.
Qed.

Lemma finish_absorbs_upload t cp f w wb st' :
  resumable_here cp f w → sum_sizes (parts cp) < L →
  service_upload_part env (s3 w) (uploadID cp) (bucket cp)
    (Go.strings_TrimPrefix_slash (key cp)) (Z.of_nat (length (parts cp)) + 1)
    (part_buffer cfg content (fh_pos f))
  = inr (etag_of env (part_buffer cfg content (fh_pos f)), st') →
  src_files wb = src_files w → listing wb = listing w → dir_kind wb = dir_kind w →
  ckpt_files wb = ckpt_files w → s3 wb = st' →
  res_rel eq (finish env cfg (S t) cp f w) (finish env cfg (S t) cp f wb).
Proof.
  intros H Hlt Hup Hsrc Hlist Hdir Hck Hs3.
  pose proof (resumable_uploaded cp f w wb _ st' H Hup Hsrc Hdir Hck Hs3) as Hb.
  destruct (iteration_continue cp f w H Hlt)
    as (st1 & c1 & w1 & Hit1 & Hup1 & Hc1 & Hsrc1 & Hlist1 & Hdir1 & Hck1 & Hs31 & _ & _).
  destruct (iteration_continue cp f wb Hb Hlt)
    as (st2 & c2 & w2 & Hit2 & Hup2 & Hc2 & Hsrc2 & Hlist2 & Hdir2 & Hck2 & Hs32 & _ & _).
  rewrite Hup in Hup1. injection Hup1 as <-.
  assert (st2 = st') as ->.
  { destruct (upload_next_part cp f w (part_buffer cfg content (fh_pos f)) H)
      as (sta & u & Hupa & Hu & Hsta).
    destruct (upload_next_part cp f wb (part_buffer cfg content (fh_pos f)) Hb)
      as (stb & ub & Hupb & Hub & Hstb).
    rewrite Hup in Hupa. injection Hupa as <-.
    rewrite Hup2 in Hupb. injection Hupb as <-.
    rewrite Hs3, Hsta in Hub. simpl in Hub. rewrite lookup_insert_eq in Hub.
    injection Hub as <-.
    rewrite Hstb, Hs3, Hsta. simpl.
    by rewrite !insert_insert_eq. }
  assert (c2 = c1) as -> by (rewrite Hck in Hc2; congruence).
  unfold finish. simpl. unfold bind at 1 3. unfold bind at 1 2. rewrite Hit1, Hit2.
  apply (finish_equiv t).
  - by split; [|left].
  - repeat split; congruence.
Qed.

(** ** Resuming *)

Lemma resumable_pos cp f w :
  resumable_here cp f w →
  0 <= fh_pos f <= Z.of_nat (length content).
Proof.
  intros H. pose proof (rs_pos _ _ _ _ _ _ _ _ H) as Hpos.
  assert (0 <= sum_sizes (parts cp)); [|lia].
  apply sum_sizes_nonneg. eapply Forall_impl; [apply (rs_sizes _ _ _ _ _ _ _ _ H)|].
  intros q Hq. simpl in Hq. lia.
Qed.

Lemma rerun_from turns cp f w w1 :
  resumable_here cp f w →
  finish env cfg turns cp f w = Ret None w1 →
  ∃ w2, uploadFile env cfg turns fileName w = Ret None w2 ∧ same_storage w1 w2.
Proof.
  intros H Hfin.
  destruct (start_resumed cp f w H)
    as (wa & wb & wR & HO & HN & HS & Hw & Hf).
  rewrite (uploadFile_started turns w _ _ _ _ _ _ HO HN HS). simpl.
  pose proof (finish_equiv turns cp _ _ _ _ Hf Hw) as Hrel.
  rewrite Hfin in Hrel.
  destruct (finish env cfg turns cp _ wR) as [e w2| | |]; try done.
  destruct Hrel as [<- Hw2]. by exists w2.
Qed.

(** [Complete] for a session the service no longer has: the warning, and
    [nil]. *)
Lemma Complete_gone cp w :
  uploadID cp = Some id → uploads (s3 w) !! id = None →
  ∃ w', Complete env cp w = Ret None w' ∧ s3 w' = s3 w.
Proof.
  intros Hid Hgone. unfold Complete. run_prims.
  rewrite Hnf. world_simpl. unfold service_complete, find_upload.
  rewrite Hid, Hgone. world_simpl.
  rewrite decide_True by done. world_simpl.
  eexists. split; [reflexivity|]. simpl. by destruct (s3 w).
Qed.

(** A run started again once the upload is complete: every part is
    recorded, the session is gone, and nothing is sent but the request to
    complete. *)
Lemma rerun_finished turns cp f w0 w :
  resumable_here cp f w0 → L <= sum_sizes (parts cp) →
  src_files w = src_files w0 → dir_kind w = dir_kind w0 →
  ckpt_files w = ckpt_files w0 →
  uploads (s3 w) !! id = None → (0 < turns)%nat →
  ∃ w2, uploadFile env cfg turns fileName w = Ret None w2 ∧ s3 w2 = s3 w.
Proof.
  intros H Hge Esr Edr Eck Hgone Hturns.
  destruct (start_resumed_from cp f w0 w H Esr Edr Eck)
    as (wa & wb & wR & HO & HN & HS & Hw & Hf).
  rewrite (uploadFile_started turns w _ _ _ _ _ _ HO HN HS). simpl.
  destruct turns as [|t]; [lia|].
  unfold finish. simpl. unfold bind at 1 2. unfold iteration, bind at 1.
  rewrite read_part_at_end by (simpl; first [done|lia]). unfold ret.
  destruct Hw as (_ & _ & _ & _ & Hs3).
  destruct (Complete_gone cp (add_read 0 (next_tick wR))) as (w2 & HC & Hs);
    [apply H|simpl; by rewrite <- Hs3|].
  exists w2. split; [done|]. rewrite Hs. simpl. by rewrite Hs3.
Qed.

Lemma resume_with_id w0 k wk turns :
  id = upload_id_of env (created (s3 w0)) →
  src_files w0 !! source_path cfg fileName = Some content →
  ckpt_files w0 !! checkpoint_name env cfg fileName = None →
  dir_kind w0 !! checkpointDir cfg ≠ Some false →
  left_by_kill env cfg fileName k w0 wk →
  (length content < turns)%nat →
  ∃ w1 w2,
    uploadFile env cfg turns fileName w0 = Ret None w1 ∧
    uploadFile env cfg turns fileName wk = Ret None w2 ∧
    is_Some (objects (s3 w1) !! (bucketName cfg, object_key cfg fileName)) ∧
    objects (s3 w2) = objects (s3 w1).
Proof.
  intros Hid Hsrc Hck Hdir Hkill Hturns.
  destruct (start_fresh w0 Hsrc Hck Hdir Hid)
    as (cp0 & f0 & wa & wb & ws & HO & HN & HS & H0).
  pose proof (uploadFile_started turns w0 _ _ _ _ _ _ HO HN HS) as Hrun. simpl in Hrun.
  destruct (finish_returns turns cp0 f0 ws H0)
    as (cpN & fN & wN & w1 & HN' & Hge & Hfin & Eck & Hobj & Esr & Edr & Hgone).
  { pose proof (resumable_pos _ _ _ H0). lia. }
  exists w1.
  assert (uploadFile env cfg k fileName w0 = Ret None wk ∨
          (uploadFile env cfg k fileName w0 = Stopped wk ∨
           killed_in_Save env cfg k fileName w0 = Stopped wk)) as [Hdone|Hstop].
  { destruct Hkill as [?|[?|?]]; auto. }
  { (* the first run was complete *)
    rewrite (uploadFile_started k w0 _ _ _ _ _ _ HO HN HS) in Hdone. simpl in Hdone.
    pose proof (finish_more_turns k turns _ _ _ _ _ Hdone) as Hm.
    pose proof (finish_more_turns turns k _ _ _ _ _ Hfin) as Hm'.
    rewrite Nat.add_comm, Hm in Hm'. injection Hm' as ->.
    destruct (rerun_finished turns cpN fN wN w1 HN' Hge Esr Edr Eck Hgone)
      as (w2 & Hr & Hs); [lia|].
    exists w2. rewrite Hrun. repeat split; try done. by rewrite Hs. }
  clear Hkill. rename Hstop into Hkill.
  (* the state of the first run after [k] turns *)
  assert (∃ cp' f' w',
             resumable_here cp' f' w' ∧
             finish env cfg turns cp' f' w' = Ret None w1 ∧
             (w' = wk ∨
              (do r <- read_part env cfg cp' f';
               match r with
               | inl _ => ret tt
               | inr (_, buffer) => Save_request env cp' buffer;; λ w, Stopped w
               end) w' = Stopped wk)) as (cp' & f' & w' & H' & Hfin' & Hwk).
  { destruct (after_turns k
                (λ local file,
                   do r <- read_part env cfg local file;
                   match r with
                   | inl _ => ret tt
                   | inr (_, buffer) => Save_request env local buffer;; λ w, Stopped w
                   end) (ret tt) cp0 f0 ws H0)
      as [(cp' & f' & w' & H' & Hnext & Hstop & Hmore)|(w' & r & w'' & Hend & Hret)].
    - exists cp', f', w'. split; [done|]. split.
      + pose proof (finish_more_turns turns k _ _ _ _ _ Hfin) as Hm.
        rewrite Nat.add_comm in Hm. unfold finish in Hm |- *. unfold bind in Hm |- *.
        by rewrite Hmore in Hm.
      + destruct Hkill as [Hk|Hk].
        * left. rewrite (uploadFile_started k w0 _ _ _ _ _ _ HO HN HS) in Hk.
          simpl in Hk. unfold finish, bind in Hk. rewrite Hstop in Hk. by injection Hk.
        * right. unfold killed_in_Save in Hk. fold (source_path cfg fileName) in Hk.
          unfold bind at 1 in Hk. rewrite HO in Hk. unfold bind at 1 in Hk.
          rewrite HN in Hk. unfold bind at 1 in Hk. rewrite HS in Hk. simpl in Hk.
          by rewrite Hnext in Hk.
    - exfalso. destruct Hkill as [Hk|Hk].
      + rewrite (uploadFile_started k w0 _ _ _ _ _ _ HO HN HS) in Hk.
        simpl in Hk. unfold finish, bind in Hk. rewrite Hret in Hk.
        destruct r as [l|e]; [|done].
        destruct (Complete_request env l w'') as (? & ? & ? & HC & _).
        by rewrite HC in Hk.
      + unfold killed_in_Save in Hk. fold (source_path cfg fileName) in Hk.
        unfold bind at 1 in Hk. rewrite HO in Hk. unfold bind at 1 in Hk.
        rewrite HN in Hk. unfold bind at 1 in Hk. rewrite HS in Hk. simpl in Hk.
        by rewrite Hend in Hk. }
  assert (∃ w2, uploadFile env cfg turns fileName wk = Ret None w2 ∧ same_storage w1 w2)
    as (w2 & Hrerun & Hsame).
  { destruct Hwk as [->|Hk].
    - by apply (rerun_from turns cp' f').
    - destruct (killed_world cp' f' w' wk H' Hk)
        as (Hlt & st' & Hup & Hs & Hl & Hd & Hc & H3).
      pose proof (resumable_uploaded cp' f' w' wk _ st' H' Hup Hs Hd Hc H3) as Hb.
      destruct turns as [|t]; [lia|].
      pose proof (finish_absorbs_upload t cp' f' w' wk st' H' Hlt Hup Hs Hl Hd Hc H3) as Hrel.
      rewrite Hfin' in Hrel.
      destruct (finish env cfg (S t) cp' f' wk) as [e wx| | |] eqn:Hfinb; try done.
      destruct Hrel as [<- Hwx].
      destruct (rerun_from (S t) cp' f' wk wx Hb Hfinb) as (w2 & Hr & Hw2).
      exists w2. split; [done|]. by etrans. }
  exists w2. rewrite Hrun. repeat split; try done.
  destruct Hsame as (_ & _ & _ & _ & <-). done.
Qed.


(** A run on a file that has no checkpoint yet: it returns [nil], and the
    checkpoint file then records one part of size [partSize] for every
    [partSize] bytes of the file, begun or complete. *)
Lemma fresh_run_records w0 turns :
  id = upload_id_of env (created (s3 w0)) →
  src_files w0 !! source_path cfg fileName = Some content →
  ckpt_files w0 !! checkpoint_name env cfg fileName = None →
  dir_kind w0 !! checkpointDir cfg ≠ Some false →
  (length content < turns)%nat →
  ∃ w1,
    uploadFile env cfg turns fileName w0 = Ret None w1 ∧
    Forall (λ p, Size p = partSize cfg) (recorded_parts w1 (checkpoint_name env cfg fileName)) ∧
    L <= Z.of_nat (length (recorded_parts w1 (checkpoint_name env cfg fileName)))
           * partSize cfg < L + partSize cfg.
Proof.
  intros Hid Hsrc Hck Hdir Hturns.
  destruct (start_fresh w0 Hsrc Hck Hdir Hid)
    as (cp0 & f0 & wa & wb & ws & HO & HN & HS & H0).
  pose proof (uploadFile_started turns w0 _ _ _ _ _ _ HO HN HS) as Hrun. simpl in Hrun.
  destruct (finish_returns turns cp0 f0 ws H0)
    as (cpN & fN & wN & w1 & HN' & Hge & Hfin & Hckf & _).
  { pose proof (resumable_pos _ _ _ H0). lia. }
  exists w1. rewrite Hrun. split; [done|].
  assert (recorded_parts w1 (checkpoint_name env cfg fileName) = parts cpN) as ->.
  { unfold recorded_parts. rewrite Hckf.
    destruct (rs_ckpt _ _ _ _ _ _ _ _ HN') as (c & -> & ->).
    destruct (rs_id_clean _ _ _ _ _ _ _ _ HN') as [Hl _].
    rewrite ScanLines_line by done. simpl.
    by rewrite ScanLines_part_lines by (by eapply resumable_clean). }
  split; [apply HN'|].
  rewrite <- sum_sizes_const by apply HN'.
  pose proof (rs_bound _ _ _ _ _ _ _ _ HN'). lia.
Qed.

(** ** The object of a complete run *)

Lemma part_buffer_drop data (n : nat) pos :
  0 <= pos →
  part_buffer cfg data (Z.of_nat n + pos) = part_buffer cfg (drop n data) pos.
Proof.
  intros Hpos. unfold part_buffer. cbn zeta.
  replace (Z.to_nat (Z.of_nat n + pos)) with (n + Z.to_nat pos)%nat by lia.
  by rewrite <- drop_drop.
Qed.

Lemma part_buffer_first data :
  part_buffer cfg data 0
  = take (Z.to_nat (partSize cfg)) data
    ++ replicate (Z.to_nat (partSize cfg) - length data) Byte.x00.
Proof.
  unfold part_buffer. cbn zeta. rewrite length_replicate. simpl.
  rewrite drop_0, drop_replicate, length_take. do 2 f_equal. lia.
Qed.

Lemma buffers_concat n : ∀ data,
  Z.of_nat (length data) <= Z.of_nat n * partSize cfg
                          < Z.of_nat (length data) + partSize cfg →
  concat ((λ i : nat, part_buffer cfg data (Z.of_nat i * partSize cfg)) <$> seq 0 n)
  = zero_padded cfg data.
Proof.
  unfold zero_padded.
  induction n as [|n IH]; intros data Hn.
  - assert (length data = 0%nat) as Hl by lia.
    apply nil_length_inv in Hl as ->. simpl.
    first [done | by rewrite Z.mod_0_l by lia].
  - rewrite <- cons_seq, <- fmap_S_seq, fmap_cons, <- list_fmap_compose.
    cbn [concat].
    rewrite (list_fmap_ext _ (λ i : nat, part_buffer cfg (drop (Z.to_nat (partSize cfg)) data)
                                           (Z.of_nat i * partSize cfg)) (seq 0 n)).
    2:{ intros i x _. simpl.
        rewrite <- (part_buffer_drop data (Z.to_nat (partSize cfg))) by lia.
        f_equal. lia. }
    change (Z.of_nat 0 * partSize cfg) with 0. rewrite part_buffer_first.
    destruct (decide (Z.of_nat (length data) <= partSize cfg)) as [Hle|Hgt].
    + assert (n = 0%nat) as -> by nia. simpl.
      rewrite take_ge by lia. rewrite app_nil_r. do 2 f_equal.
      assert (partSize cfg - Z.of_nat (length data)
              = (- Z.of_nat (length data)) mod partSize cfg) as <-; [|lia].
      apply (Z.mod_unique _ _ (- 1)); lia.
    + rewrite IH.
      2:{ rewrite length_drop. lia. }
      replace (Z.to_nat (partSize cfg) - length data)%nat with 0%nat by lia.
      simpl. rewrite app_nil_r, app_assoc, take_drop. do 3 f_equal.
      rewrite length_drop.
      replace (- Z.of_nat (length data - Z.to_nat (partSize cfg)))
        with (- Z.of_nat (length data) + 1 * partSize cfg) by lia.
      by rewrite Z.mod_add by lia.
Qed.

(** The upload [id] holds the buffers of the recorded parts. *)
Local Abbreviation stored cp w :=
  (∃ u, uploads (s3 w) !! id = Some u ∧ holds_bodies cfg content u (parts cp)).

Lemma Complete_object cp f w :
  resumable_here cp f w → stored cp w →
  ∃ w', Complete env cp w = Ret None w' ∧
        objects (s3 w') !! (bucketName cfg, object_key cfg fileName)
        = Some (concat ((λ i : nat, part_buffer cfg content (Z.of_nat i * partSize cfg))
                          <$> seq 0 (length (parts cp)))).
Proof.
  intros H (u & Hu & Hb).
  destruct (rs_s3 _ _ _ _ _ _ _ _ H) as (u' & Hu' & Hbk & Hk & _).
  rewrite Hu in Hu'. injection Hu' as <-.
  assert (mapM (listed_body u) (toS3CompletedParts (parts cp))
          = Some ((λ i : nat, part_buffer cfg content (Z.of_nat i * partSize cfg))
                    <$> seq 0 (length (parts cp)))) as Hbodies.
  { apply mapM_Some. apply Forall2_same_length_lookup. split.
    { unfold toS3CompletedParts. by rewrite !length_fmap, length_seq. }
    intros i q body Hq Hbody. unfold toS3CompletedParts in Hq.
    rewrite list_lookup_fmap in Hq. rewrite list_lookup_fmap in Hbody.
    destruct (parts cp !! i) as [p|] eqn:Hp; [|done]. simpl in Hq. injection Hq as <-.
    assert (i < length (parts cp))%nat as Hi by (by eapply lookup_lt_Some).
    rewrite lookup_seq_lt in Hbody by done. simpl in Hbody. injection Hbody as <-.
    unfold listed_body. simpl.
    assert (PartNumber p = Z.of_nat i + 1) as ->.
    { pose proof (rs_numbers _ _ _ _ _ _ _ _ H) as Hnum.
      apply (f_equal (λ l, l !! i)) in Hnum.
      rewrite list_lookup_fmap, Hp in Hnum. simpl in Hnum.
      rewrite lookup_seqZ_lt in Hnum by lia. injection Hnum as ->. lia. }
    rewrite (Hb i p Hp). simpl. by rewrite decide_True. }
  unfold Complete. run_prims.
  rewrite Hnf. world_simpl. unfold service_complete, find_upload.
  rewrite (rs_id _ _ _ _ _ _ _ _ H), Hu, (rs_bucket _ _ _ _ _ _ _ _ H),
    (rs_key _ _ _ _ _ _ _ _ H).
  rewrite decide_True by done. rewrite Hbodies. world_simpl.
  eexists. split; [reflexivity|]. world_simpl. simpl. apply lookup_insert_eq.
Qed.

Lemma finish_object turns cp f w :
  resumable_here cp f w → stored cp w → L - fh_pos f < Z.of_nat turns →
  ∃ w1, finish env cfg turns cp f w = Ret None w1 ∧
        objects (s3 w1) !! (bucketName cfg, object_key cfg fileName)
        = Some (zero_padded cfg content).
Proof.
  revert cp f w. induction turns as [|turns IH]; intros cp f w H Hst Hturns.
  { pose proof (rs_pos _ _ _ _ _ _ _ _ H). lia. }
  unfold finish. simpl. unfold bind at 1 2.
  destruct (decide (sum_sizes (parts cp) < L)) as [Hlt|Hge].
  - destruct (iteration_continue cp f w H Hlt)
      as (st' & c & w' & Hit & Hup & _ & _ & _ & _ & _ & Hs3 & Hpos & H').
    rewrite Hit. apply (IH _ _ _ H'); [|simpl in *; lia].
    destruct (upload_next_part cp f w (part_buffer cfg content (fh_pos f)) H)
      as (st2 & u & Hup2 & Hu & Hst2).
    rewrite Hup in Hup2. injection Hup2 as <-.
    destruct Hst as (u0 & Hu0 & Hb). rewrite Hu in Hu0. injection Hu0 as <-.
    rewrite Hs3, Hst2. simpl. eexists. split; [apply lookup_insert_eq|].
    intros i p Hp. simpl.
    destruct (decide (i < length (parts cp))%nat) as [Hi|Hi].
    + rewrite lookup_app_l in Hp by done.
      rewrite lookup_insert_ne by lia. by apply Hb.
    + rewrite lookup_app_r in Hp by lia.
      apply list_lookup_singleton_Some in Hp as [Hi0 <-].
      assert (i = length (parts cp)) as -> by lia.
      rewrite lookup_insert_eq. simpl. do 3 f_equal.
      rewrite (rs_pos _ _ _ _ _ _ _ _ H), sum_sizes_const by apply H.
      rewrite sum_sizes_const in Hlt by apply H. lia.
  - rewrite (iteration_break cp f w H) by lia. unfold ret.
    assert (resumable_here cp f (add_read 0 (next_tick w))) as H'.
    { destruct H. by split. }
    destruct (Complete_object cp f (add_read 0 (next_tick w)) H' Hst) as (w' & HC & Hobj).
    exists w'. split; [done|]. rewrite Hobj. f_equal.
    apply buffers_concat.
    rewrite <- sum_sizes_const by apply H.
    pose proof (rs_bound _ _ _ _ _ _ _ _ H). lia.
Qed.

Lemma fresh_run_object_of w0 turns :
  id = upload_id_of env (created (s3 w0)) →
  src_files w0 !! source_path cfg fileName = Some content →
  ckpt_files w0 !! checkpoint_name env cfg fileName = None →
  dir_kind w0 !! checkpointDir cfg ≠ Some false →
  (length content < turns)%nat →
  ∃ w1,
    uploadFile env cfg turns fileName w0 = Ret None w1 ∧
    objects (s3 w1) !! (bucketName cfg, object_key cfg fileName)
    = Some (zero_padded cfg content).
Proof.
  intros Hid Hsrc Hck Hdir Hturns.
  destruct (start_fresh w0 Hsrc Hck Hdir Hid)
    as (cp0 & f0 & wa & wb & ws & HO & HN & HS & H0).
  pose proof (uploadFile_started turns w0 _ _ _ _ _ _ HO HN HS) as Hrun. simpl in Hrun.
  rewrite Hrun. apply (finish_object turns cp0 f0 ws H0).
  - destruct (rs_s3 _ _ _ _ _ _ _ _ H0) as (u & Hu & _).
    exists u. split; [done|]. intros i p Hp.
    assert (parts cp0 = []) as Hnil.
    { apply New_fresh in HN as [Hnil _]; [done|].
      revert HO. run_prims. rewrite Hnf. world_simpl. rewrite Hsrc. intros [= <-].
      done. }
    by rewrite Hnil in Hp.
  - pose proof (resumable_pos _ _ _ H0). lia.
Qed.

(** ** A run started again after a complete one *)

Lemma New_keeps_existing b f d w c :
  ckpt_files w !! filepath_Join d (sha256_hex env f) = Some c →
  calls (world_of (New env b f d w)) = calls w ∧
  s3 (world_of (New env b f d w)) = s3 w ∧
  ckpt_files (world_of (New env b f d w)) = ckpt_files w.
Proof. intros Hck. unfold New. sym_exec; done. Qed.

Lemma Complete_gone_request cp w :
  uploadID cp = Some id → uploads (s3 w) !! id = None →
  ∃ w', Complete env cp w = Ret None w' ∧ s3 w' = s3 w ∧
        ckpt_files w' = ckpt_files w ∧
        calls w' = calls w ++ [CallComplete (Some id) (bucket cp)
                                 (Go.strings_TrimPrefix_slash (key cp))
                                 (toS3CompletedParts (parts cp))
                                 (Some (Go.AwsErr NoSuchUpload ""))].
Proof.
  intros Hid Hgone. unfold Complete. run_prims.
  rewrite Hnf. world_simpl. unfold service_complete, find_upload.
  rewrite Hid, Hgone. world_simpl.
  rewrite decide_True by done. world_simpl.
  eexists. split; [reflexivity|]. simpl. by destruct (s3 w).
Qed.

Lemma second_run_of w0 turns :
  id = upload_id_of env (created (s3 w0)) →
  src_files w0 !! source_path cfg fileName = Some content →
  ckpt_files w0 !! checkpoint_name env cfg fileName = None →
  dir_kind w0 !! checkpointDir cfg ≠ Some false →
  (length content < turns)%nat →
  ∃ w1 w2,
    uploadFile env cfg turns fileName w0 = Ret None w1 ∧
    uploadFile env cfg turns fileName w1 = Ret None w2 ∧
    calls w2 = calls w1 ++ [CallComplete (Some id) (bucketName cfg)
                              (object_key cfg fileName)
                              (toS3CompletedParts
                                 (recorded_parts w1 (checkpoint_name env cfg fileName)))
                              (Some (Go.AwsErr NoSuchUpload ""))] ∧
    s3 w2 = s3 w1 ∧ ckpt_files w2 = ckpt_files w1.
Proof.
  intros Hid Hsrc Hck Hdir Hturns.
  destruct (start_fresh w0 Hsrc Hck Hdir Hid)
    as (cp0 & f0 & wa & wb & ws & HO & HN & HS & H0).
  pose proof (uploadFile_started turns w0 _ _ _ _ _ _ HO HN HS) as Hrun. simpl in Hrun.
  destruct (finish_returns turns cp0 f0 ws H0)
    as (cpN & fN & wN & w1 & HN' & Hge & Hfin & Eck & Hobj & Esr & Edr & Hgone).
  { pose proof (resumable_pos _ _ _ H0). lia. }
  destruct (start_resumed_from cpN fN wN w1 HN' Esr Edr Eck)
    as (w1a & w1b & wR & HO1 & HN1 & HS1 & Hw & Hf).
  destruct Hw as (_ & _ & _ & Hckw & Hs3).
  destruct (Complete_gone_request cpN (add_read 0 (next_tick wR)))
    as (w2 & HC & Hs & Hc2 & Hcalls); [apply HN'|simpl; by rewrite <- Hs3|].
  exists w1, w2. rewrite Hrun. split; [done|]. split.
  { rewrite (uploadFile_started turns w1 _ _ _ _ _ _ HO1 HN1 HS1). simpl.
    destruct turns as [|t]; [lia|].
    unfold finish. simpl. unfold bind at 1 2. unfold iteration, bind at 1.
    by rewrite read_part_at_end by (simpl; first [done|lia]). }
  destruct (os_Open_calls _ _ _ _ _ HO1) as [Hca Hcka].
  destruct (rs_ckpt _ _ _ _ _ _ _ _ HN') as (c & Hc & Hdc).
  assert (ckpt_files w1a !! filepath_Join (checkpointDir cfg)
                              (sha256_hex env (source_path cfg fileName)) = Some c) as Hc1a.
  { rewrite Hcka, Eck. exact Hc. }
  destruct (New_keeps_existing (bucketName cfg) (source_path cfg fileName)
              (checkpointDir cfg) w1a c Hc1a) as (Hcb & _ & _).
  rewrite HN1 in Hcb. simpl in Hcb.
  pose proof (Seek_calls _ _ _ _ _ _ HS1) as HcR.
  assert (recorded_parts w1 (checkpoint_name env cfg fileName) = parts cpN) as ->.
  { unfold recorded_parts, checkpoint_name. rewrite Eck.
    unfold checkpoint_name in Hc. rewrite Hc, Hdc.
    destruct (rs_id_clean _ _ _ _ _ _ _ _ HN') as [Hl _].
    rewrite ScanLines_line by done. simpl.
    by rewrite ScanLines_part_lines by (by eapply resumable_clean). }
  split.
  { rewrite Hcalls. world_simpl. rewrite HcR, Hcb, Hca.
    by rewrite (rs_bucket _ _ _ _ _ _ _ _ HN'), (rs_key _ _ _ _ _ _ _ _ HN'). }
  split; [rewrite Hs; simpl; by rewrite Hs3|].
  rewrite Hc2. simpl. by rewrite Hckw.
Qed.

End NoFaults.


Lemma demo_env_clean plan : clean_env (demo_env plan).
Proof.
  split.
  - intros b. cbn [demo_env etag_of].
    destruct (fmt_d_digits (Z.of_nat (length b))) as [Hd _]; [lia|].
    rewrite !contains_app.
    by rewrite !(digits_contains _ (Go.fmt_d (Z.of_nat (length b)))).
  - intros n. cbn [demo_env upload_id_of].
    destruct (fmt_d_digits (Z.of_nat n)) as [Hd Hne]; [lia|].
    rewrite !contains_app.
    rewrite !(digits_contains _ (Go.fmt_d (Z.of_nat n))) by done. split; [done|].
    rewrite dropCR_app by done. by rewrite dropCR_digits.
Qed.


(** The scenario of the specification on the code: for a file of 250 MiB
    and parts of 100 MiB the checkpoint records three parts of 100 MiB
    each. *)
Lemma scenario_250MiB env cfg fileName content w0 turns :
  no_faults env → clean_env env →
  partSize cfg = 100 * 2 ^ 20 →
  Z.of_nat (length content) = 250 * 2 ^ 20 →
  src_files w0 !! source_path cfg fileName = Some content →
  ckpt_files w0 !! checkpoint_name env cfg fileName = None →
  dir_kind w0 !! checkpointDir cfg ≠ Some false →
  (length content < turns)%nat →
  ∃ w1,
    uploadFile env cfg turns fileName w0 = Ret None w1 ∧
    Size <$> recorded_parts w1 (checkpoint_name env cfg fileName)
    = [100 * 2 ^ 20; 100 * 2 ^ 20; 100 * 2 ^ 20].
Proof.
  intros Hnf Hclean Hps HL Hsrc Hck Hdir Hturns.
  destruct (fresh_run_records env Hnf cfg Hclean ltac:(lia) fileName _ content ltac:(lia)
              w0 turns eq_refl Hsrc Hck Hdir Hturns) as (w1 & Hrun & Hsz & Hlen).
  exists w1. split; [done|].
  destruct (recorded_parts w1 _) as [|p1 [|p2 [|p3 [|p4 ps]]]]; simpl in Hlen; try lia.
  apply Forall_cons in Hsz as [H1 Hsz]. apply Forall_cons in Hsz as [H2 Hsz].
  apply Forall_cons in Hsz as [H3 _]. simpl. by rewrite H1, H2, H3, Hps.
Qed.

Lemma file_Read_some env file buffer w f1 b1 n1 e1 w1 :
  file_Read env file buffer w = Ret (f1, b1, n1, e1) w1 → n1 ≠ 0 →
  f1 = {| fh_data := fh_data file; fh_pos := fh_pos file + n1 |} ∧
  length b1 = length buffer ∧
  reads w1 = reads w ++ [n1] ∧
  n1 = Z.of_nat (length (take (length buffer)
                           (drop (Z.to_nat (fh_pos file)) (fh_data file)))).
Proof.
  intros HR Hn. run_prims.
  destruct (fault env (ticks w)); [by simplify_eq|].
  destruct buffer as [|x buffer]; [by simplify_eq|].
  destruct (take _ _) as [|y chunk] eqn:Hchunk; [by simplify_eq|].
  simplify_eq. world_simpl. repeat split.
  assert (length (y :: chunk) <= length (x :: buffer))%nat as Hle.
  { rewrite <- Hchunk, length_take. lia. }
  simpl in *. rewrite length_app, length_drop. lia.
Qed.

(** C2, on the code: a turn of the loop that saves a part records the
    length of the whole buffer, [partSize], as the size of the part,
    whatever the number [n] of bytes the turn read: [Save] gets the buffer
    and not its first [n] bytes.  [n] is the number of bytes left in the
    file when fewer than [partSize] are left. *)
Theorem recorded_size_is_buffer_size env cfg local file w local' file' w' :
  iteration env cfg local file w = Ret (Continue local' file') w' →
  ∃ p n,
    parts local' = parts local ++ [p] ∧
    Size p = partSize cfg ∧
    reads w' = reads w ++ [n] ∧
    n = Z.of_nat (length (take (Z.to_nat (partSize cfg))
                            (drop (Z.to_nat (fh_pos file)) (fh_data file)))) ∧
    fh_pos file' = fh_pos file + n.
Proof.
  unfold iteration, read_part. intros H. unfold bind at 1 2 in H.
  unfold make_bytes in H. destruct (decide (partSize cfg < 0)) as [|Hps]; [done|].
  unfold ret at 1 in H. unfold bind at 1 in H.
  destruct (file_Read env file _ w) as [[[[f1 b1] n1] e1] w1| | |] eqn:HR; try done.
  destruct (decide (e1 ≠ None ∧ e1 ≠ Some Go.EOF)); [done|].
  destruct (decide (n1 = 0)) as [|Hn]; [done|].
  apply file_Read_some in HR as (-> & Hlen & Hreads & Hn1); [|done].
  rewrite length_replicate in Hlen, Hn1.
  unfold ret at 1 in H. unfold bind in H.
  destruct (Save env local b1 w1) as [[l2 [e2|]] w2| | |] eqn:HS; try done.
  unfold ret in H. simplify_eq.
  pose proof HS as (etag & c & -> & _)%Save_success.
  assert (reads w' = reads w1) as Hr.
  { clear -HS. unfold_prims. by sym_exec. }
  eexists _, _. split; [reflexivity|]. simpl. repeat split; try done.
  - lia.
  - by rewrite Hr.
Qed.

Lemma recorded_size_is_buffer_size_witness :
  let w0 := demo_world [("f", bytes5)] in
  let r2 := turns_then (demo_env no_plan) demo_cfg 2 (λ l f, ret (l, f))
              (ret (demo_checkpoint [], {| fh_data := []; fh_pos := 0 |}))
              (value_of (demo_checkpoint [], None) (saved_demo no_plan [])).1
              {| fh_data := bytes5; fh_pos := 0 |}
              (world_of (saved_demo no_plan [])) in
  let cp2 := (value_of (demo_checkpoint [], {| fh_data := []; fh_pos := 0 |}) r2).1 in
  let f2 := (value_of (demo_checkpoint [], {| fh_data := []; fh_pos := 0 |}) r2).2 in
  let r3 := iteration (demo_env no_plan) demo_cfg cp2 f2 (world_of r2) in
  Size <$> parts (match value_of (Break cp2) r3 with
                  | Continue l _ => l
                  | _ => cp2
                  end) = [2; 2; 2]
  ∧ reads (world_of r3) = [2; 2; 1]
  ∧ ∃ p n, Size p = 2 ∧ reads (world_of r3) = reads (world_of r2) ++ [n] ∧ n = 1.
Proof.
  intros w0 r2 cp2 f2 r3.
  split; [vm_compute; reflexivity|]. split; [vm_compute; reflexivity|].
  destruct (recorded_size_is_buffer_size (demo_env no_plan) demo_cfg cp2 f2 (world_of r2)
              (match value_of (Break cp2) r3 with Continue l _ => l | _ => cp2 end)
              (match value_of (Break cp2) r3 with Continue _ f => f | _ => f2 end)
              (world_of r3))
    as (p & n & _ & Hp & Hr & Hn & _); [vm_compute; reflexivity|].
  exists p, n. split; [exact Hp|]. split; [exact Hr|]. rewrite Hn. vm_compute. reflexivity.
Defined.

(* ===================================================================== *)
(** * The checkpoint store: sessions and records *)
(* ===================================================================== *)

(** [New] when there is no checkpoint file and nothing fails. *)
Lemma New_on_missing_checkpoint env b f d w :
  no_faults env →
  ckpt_files w !! filepath_Join d (sha256_hex env f) = None →
  dir_kind w !! d ≠ Some false →
  let name := filepath_Join d (sha256_hex env f) in
  let id := upload_id_of env (created (s3 w)) in
  ∃ w',
    New env b f d w
    = Ret {| uploadID := Some id; parts := []; checkpointFile := name;
             bucket := b; key := f |} w' ∧
    calls w' = calls w ++ [CallCreate b (Go.strings_TrimPrefix_slash f) (inr id)] ∧
    ckpt_files w'
    = <[name:={| data := id +:+ LF; synced := id +:+ LF |}]> (ckpt_files w) ∧
    dir_kind w' !! d = Some true ∧
    uploads (s3 w') !! id
    = Some {| up_bucket := b; up_key := Go.strings_TrimPrefix_slash f; up_parts := ∅ |}.
Proof.
  intros Hnf Hck Hdir name id. subst name id. unfold New. run_prims.
  rewrite !Hnf. world_simpl.
  destruct (dir_kind w !! d) as [[|]|] eqn:Hd; try done.
  - world_simpl. rewrite !Hnf. world_simpl. rewrite Hck. world_simpl.
    rewrite decide_True by done. world_simpl.
    rewrite !Hnf. world_simpl. unfold service_create. world_simpl.
    rewrite !Hnf. world_simpl. rewrite !lookup_insert_eq. world_simpl.
    rewrite !Hnf. world_simpl. rewrite !lookup_insert_eq. world_simpl.
    eexists. split; [reflexivity|]. world_simpl.
    rewrite !insert_insert_eq. simpl. rewrite lookup_insert_eq.
    by rewrite Hd.
  - world_simpl. rewrite decide_True by done. world_simpl.
    rewrite !Hnf. world_simpl. rewrite Hd. world_simpl.
    rewrite !Hnf. world_simpl. rewrite Hck. world_simpl.
    rewrite decide_True by done. world_simpl.
    rewrite !Hnf. world_simpl. unfold service_create. world_simpl.
    rewrite !Hnf. world_simpl. rewrite !lookup_insert_eq. world_simpl.
    rewrite !Hnf. world_simpl. rewrite !lookup_insert_eq. world_simpl.
    eexists. split; [reflexivity|]. world_simpl.
    rewrite !insert_insert_eq. simpl. by rewrite !lookup_insert_eq.
Qed.

(** X2: when the checkpoint file exists, [New] sends no request to the
    service and changes no checkpoint file, whatever it finds in the file
    and whatever fails: a session is created for a missing file only. *)
Theorem New_existing_checkpoint_sends_nothing env b f d w c :
  ckpt_files w !! filepath_Join d (sha256_hex env f) = Some c →
  let r := New env b f d w in
  calls (world_of r) = calls w ∧ s3 (world_of r) = s3 w ∧
  ckpt_files (world_of r) = ckpt_files w.
Proof. intros Hck r. by apply (New_keeps_existing env b f d w c). Qed.

Lemma New_existing_checkpoint_sends_nothing_witness :
  let r := New (demo_env no_plan) "b" "d/f" "ck" wrapping_checkpoint_world in
  calls (world_of r) = [] ∧ s3 (world_of r) = empty_s3 ∧
  ckpt_files (world_of r) = ckpt_files wrapping_checkpoint_world.
Proof.
  apply (New_existing_checkpoint_sends_nothing (demo_env no_plan) "b" "d/f" "ck"
           wrapping_checkpoint_world
           {| data := "upload0" +:+ LF +:+ part_lines wrapping_parts;
              synced := "upload0" +:+ LF +:+ part_lines wrapping_parts |}).
  reflexivity.
Defined.

Lemma str_length_zero s : Z.of_nat (String.length s) = 0 ↔ s = "".
Proof. destruct s; simpl; split; intros; try done; lia. Qed.

Lemma mapM_fails {A B} (g : A → option B) l x :
  x ∈ l → g x = None → mapM g l = None.
Proof.
  intros Hin Hx. destruct (mapM g l) as [k|] eqn:Hm; [|done].
  apply mapM_Some in Hm.
  apply list_elem_of_lookup in Hin as [i Hi].
  destruct (Forall2_lookup_l _ _ _ _ _ Hm Hi) as (y & _ & Hy). congruence.
Qed.



(** X5: [New] creates the checkpoint file before it asks for the session.
    When the request for the session fails, [New] exits with status 1 and
    leaves the file behind, empty; [New] called again then finds the file,
    sends nothing and returns a checkpoint without upload id. *)
Theorem New_failed_session_leaves_empty_checkpoint env b f d w code :
  ckpt_files w !! filepath_Join d (sha256_hex env f) = None →
  dir_kind w !! d = Some true →
  fault env (3 + ticks w)%nat = Some code →
  (∀ n, n ≠ (3 + ticks w)%nat → fault env n = None) →
  let name := filepath_Join d (sha256_hex env f) in
  ∃ w1,
    New env b f d w = Exit 1 w1 ∧
    ckpt_files w1 = <[name:={| data := ""; synced := "" |}]> (ckpt_files w) ∧
    s3 w1 = s3 w ∧
    ∃ w2,
      New env b f d w1
      = Ret {| uploadID := None; parts := []; checkpointFile := name;
               bucket := b; key := f |} w2 ∧
      calls w2 = calls w1 ∧ s3 w2 = s3 w1.
Proof.
  intros Hck Hdir Hfail Hother name. subst name. unfold New. run_prims.
  rewrite (Hother (ticks w)) by lia. world_simpl. rewrite Hdir. world_simpl.
  rewrite (Hother (S (ticks w))) by lia. world_simpl. rewrite Hck. world_simpl.
  rewrite decide_True by done. world_simpl.
  rewrite (Hother (S (S (ticks w)))) by lia. world_simpl.
  change (S (S (S (ticks w)))) with (3 + ticks w)%nat. rewrite Hfail. world_simpl.
  eexists. split; [reflexivity|]. world_simpl. split; [done|]. split; [done|].
  rewrite (Hother (S (S (S (S (ticks w)))))) by lia. world_simpl.
  rewrite Hdir. world_simpl.
  rewrite (Hother (S (S (S (S (S (ticks w))))))) by lia. world_simpl.
  rewrite lookup_insert_eq. world_simpl.
  rewrite (Hother (S (S (S (S (S (S (ticks w)))))))) by lia. world_simpl.
  rewrite lookup_insert_eq. world_simpl.
  rewrite decide_False by (simpl; lia). world_simpl.
  by eexists.
Qed.

Lemma New_failed_session_leaves_empty_checkpoint_witness :
  let env := demo_env (fail_at 3 "RequestTimeout") in
  let w := set_dir_kind {[ "ck" := true ]} (demo_world [("f", bytes5)]) in
  ∃ w1,
    New env "b" "d/f" "ck" w = Exit 1 w1 ∧
    ckpt_files w1 = <["ck/hd/f":={| data := ""; synced := "" |}]> (ckpt_files w) ∧
    s3 w1 = s3 w ∧
    ∃ w2,
      New env "b" "d/f" "ck" w1
      = Ret {| uploadID := None; parts := []; checkpointFile := "ck/hd/f";
               bucket := "b"; key := "d/f" |} w2 ∧
      calls w2 = calls w1 ∧ s3 w2 = s3 w1.
Proof.
  intros env w.
  apply (New_failed_session_leaves_empty_checkpoint env "b" "d/f" "ck" w "RequestTimeout").
  - reflexivity.
  - reflexivity.
  - reflexivity.
  - intros n Hn. unfold env, demo_env, fail_at. simpl.
    rewrite decide_False; [done|]. simpl in Hn. lia.
Defined.

(** X6: when nothing fails in the environment, a [Save] that returns
    [nil] has added one part to the list, its line to the checkpoint file,
    and the file is on stable storage up to that line. *)
Theorem Save_then_synced env cp buf w cp' w' :
  no_faults env →
  Save env cp buf w = Ret (cp', None) w' →
  ∃ p c c',
    parts cp' = parts cp ++ [p] ∧
    ckpt_files w !! checkpointFile cp = Some c ∧
    ckpt_files w' !! checkpointFile cp = Some c' ∧
    data c' = data c +:+ part_line p ∧ synced c' = data c'.
Proof.
  intros Hnf H.
  destruct (Save_success env cp buf w cp' w' H) as (etag & c & _ & _ & Hc & _).
  revert H. unfold Save, Save_request. run_prims. rewrite !Hnf. world_simpl.
  destruct (service_upload_part _ _ _ _ _ _ _) as [e|[etag' st']]; [done|].
  world_simpl. rewrite !Hnf. world_simpl. cbn [checkpointFile]. rewrite Hc. world_simpl.
  rewrite !Hnf. world_simpl. rewrite lookup_insert_eq. world_simpl.
  intros H. injection H as ? ?. subst. world_simpl.
  eexists _, _, _. split; [reflexivity|]. split; [done|].
  rewrite lookup_insert_eq. by split.
Qed.

Lemma Save_then_synced_witness :
  let r0 := saved_demo no_plan [] in
  let cp0 := (value_of (demo_checkpoint [], None) r0).1 in
  let r1 := Save (demo_env no_plan) cp0 [Byte.x01; Byte.x02] (world_of r0) in
  ∃ p c c',
    parts (value_of (cp0, None) r1).1 = parts cp0 ++ [p] ∧
    ckpt_files (world_of r0) !! checkpointFile cp0 = Some c ∧
    ckpt_files (world_of r1) !! checkpointFile cp0 = Some c' ∧
    data c' = data c +:+ part_line p ∧ synced c' = data c'.
Proof.
  intros r0 cp0 r1.
  apply (Save_then_synced (demo_env no_plan) cp0 [Byte.x01; Byte.x02] (world_of r0)
           (value_of (cp0, None) r1).1 (world_of r1)).
  - intros n. reflexivity.
  - vm_compute. reflexivity.
Defined.

(** X1: when there is no checkpoint file and nothing fails, [New] sends one
    request for a session, for the key without its leading slash; the
    checkpoint it returns has the upload id of the service and no part; the
    checkpoint file holds that id and a line feed, written and synced; the
    checkpoint directory exists afterwards. *)
Theorem New_missing_checkpoint_creates_session env b f d w :
  no_faults env →
  ckpt_files w !! filepath_Join d (sha256_hex env f) = None →
  dir_kind w !! d ≠ Some false →
  let name := filepath_Join d (sha256_hex env f) in
  let id := upload_id_of env (created (s3 w)) in
  ∃ w',
    New env b f d w
    = Ret {| uploadID := Some id; parts := []; checkpointFile := name;
             bucket := b; key := f |} w' ∧
    calls w' = calls w ++ [CallCreate b (Go.strings_TrimPrefix_slash f) (inr id)] ∧
    ckpt_files w'
    = <[name:={| data := id +:+ LF; synced := id +:+ LF |}]> (ckpt_files w) ∧
    dir_kind w' !! d = Some true ∧
    uploads (s3 w') !! id
    = Some {| up_bucket := b; up_key := Go.strings_TrimPrefix_slash f; up_parts := ∅ |}.
Proof. apply New_on_missing_checkpoint. Qed.

Lemma New_missing_checkpoint_creates_session_witness :
  ∃ w',
    New (demo_env no_plan) "b" "/d/f" "ck" (demo_world [("f", bytes5)])
    = Ret {| uploadID := Some "upload0"; parts := []; checkpointFile := "ck/h/d/f";
             bucket := "b"; key := "/d/f" |} w' ∧
    calls w' = [CallCreate "b" "d/f" (inr "upload0")] ∧
    ckpt_files w'
    = <["ck/h/d/f":={| data := "upload0" +:+ LF; synced := "upload0" +:+ LF |}]> ∅ ∧
    dir_kind w' !! "ck" = Some true ∧
    uploads (s3 w') !! "upload0"
    = Some {| up_bucket := "b"; up_key := "d/f"; up_parts := ∅ |}.
Proof.
  apply (New_missing_checkpoint_creates_session (demo_env no_plan) "b" "/d/f" "ck"
           (demo_world [("f", bytes5)])).
  - intros n. reflexivity.
  - reflexivity.
  - discriminate.
Defined.

(** [New] on a checkpoint file in the format [Save] prints. *)
Lemma New_parses_record env b f d w c id ps :
  no_faults env →
  dir_kind w !! d = Some true →
  ckpt_files w !! filepath_Join d (sha256_hex env f) = Some c →
  data c = id +:+ LF +:+ part_lines ps →
  contains "010" id = false → Go.dropCR id = id →
  Forall clean_part ps →
  ∃ w',
    New env b f d w
    = Ret {| uploadID := Some id; parts := ps;
             checkpointFile := filepath_Join d (sha256_hex env f);
             bucket := b; key := f |} w' ∧
    calls w' = calls w ∧ ckpt_files w' = ckpt_files w ∧ s3 w' = s3 w.
Proof.
  intros Hnf Hdir Hck Hdata Hid Hcr Hps. unfold New. run_prims.
  rewrite !Hnf. world_simpl. rewrite Hdir. world_simpl.
  rewrite !Hnf. world_simpl. rewrite Hck. world_simpl.
  rewrite !Hnf. world_simpl. rewrite Hck. world_simpl.
  rewrite decide_True.
  2:{ rewrite Hdata, !str_length_app. simpl. lia. }
  world_simpl. rewrite Hck, Hdata, ScanLines_line by done. simpl.
  rewrite ScanLines_part_lines by done. rewrite Hcr.
  by eexists.
Qed.



(** Under [Save], the checkpoint file stays the record of the parts. *)
Lemma save_all_recorded env b f name id bufs :
  no_faults env → clean_env env →
  ∀ ps c w,
    Forall clean_part ps →
    Forall (λ buf, Z.of_nat (length buf) < 2 ^ 63) bufs →
    Z.of_nat (length ps) + Z.of_nat (length bufs) < 2 ^ 63 - 1 →
    ckpt_files w !! name = Some c →
    data c = id +:+ LF +:+ part_lines ps →
    (∃ u, uploads (s3 w) !! id = Some u ∧ up_bucket u = b ∧
          up_key u = Go.strings_TrimPrefix_slash f) →
    ∃ ps' c' w',
      save_all env {| uploadID := Some id; parts := ps; checkpointFile := name;
                      bucket := b; key := f |} bufs w
      = Ret ({| uploadID := Some id; parts := ps ++ ps'; checkpointFile := name;
                bucket := b; key := f |}, None) w' ∧
      Forall clean_part (ps ++ ps') ∧
      Size <$> ps' = (λ buf, Z.of_nat (length buf)) <$> bufs ∧
      ckpt_files w' !! name = Some c' ∧
      data c' = id +:+ LF +:+ part_lines (ps ++ ps') ∧
      dir_kind w' = dir_kind w.
Proof.
  intros Hnf [Hetag _].
  induction bufs as [|buf bufs IH]; intros ps c w Hps Hbufs Hlen Hck Hdata Hup.
  - exists [], c, w. rewrite app_nil_r. simpl. unfold ret.
    repeat split; try done.
  - destruct Hup as (u & Hu & Hb & Hk).
    apply Forall_cons in Hbufs as [Hbuf Hbufs]. simpl in Hlen.
    set (cp := {| uploadID := Some id; parts := ps; checkpointFile := name;
                  bucket := b; key := f |}).
    set (p := {| ETag := etag_of env buf; PartNumber := Z.of_nat (length ps) + 1;
                 Size := Z.of_nat (length buf) |}).
    assert (∃ st', service_upload_part env (s3 w) (uploadID cp) (bucket cp)
                     (Go.strings_TrimPrefix_slash (key cp))
                     (Z.of_nat (length (parts cp)) + 1) buf
                   = inr (etag_of env buf, st') ∧
                   ∃ u', uploads st' !! id = Some u' ∧ up_bucket u' = b ∧
                         up_key u' = Go.strings_TrimPrefix_slash f) as (st' & Hst & Hup').
    { unfold service_upload_part, find_upload. simpl. rewrite Hu.
      rewrite decide_True by done. eexists. split; [reflexivity|].
      simpl. rewrite lookup_insert_eq. by eexists. }
    destruct (Save_nf env Hnf cp buf w c st' Hst Hck)
      as (w1 & HS & _ & _ & Hd1 & Hc1 & Hs1).
    assert (clean_part p) as Hp.
    { destruct (Hetag buf). unfold clean_part. simpl. repeat split; try done; lia. }
    destruct (IH (ps ++ [p]) {| data := data c +:+ part_line p;
                                synced := data c +:+ part_line p |} w1)
      as (ps' & c' & w' & Hall & Hcl & Hsz & Hc' & Hd' & Hdir').
    + apply Forall_app. split; [done|]. by apply Forall_singleton.
    + done.
    + rewrite length_app. simpl. lia.
    + rewrite Hc1. apply lookup_insert_eq.
    + simpl. rewrite Hdata, part_lines_snoc, !str_app_assoc. done.
    + by rewrite Hs1.
    + exists (p :: ps'), c', w'. simpl. unfold bind at 1. fold cp. rewrite HS. simpl.
      unfold with_part. simpl.
      rewrite <- app_assoc in Hall, Hcl, Hd'. simpl in Hall, Hcl, Hd'.
      split; [exact Hall|]. split; [done|].
      split; [f_equal; exact Hsz|].
      split; [done|]. split; [done|]. by rewrite Hdir'.
Qed.

(** X7: what [New] and [Save] write, [New] reads back.  A session created
    by [New], then any sequence of buffers saved with nothing failing: every
    [Save] returns [nil], the recorded sizes are the lengths of the
    buffers, and [New] called again on the same file returns the very same
    checkpoint (upload id, parts, bucket, key) without any request. *)
Theorem checkpoint_round_trip env b f d bufs w0 :
  no_faults env → clean_env env →
  ckpt_files w0 !! filepath_Join d (sha256_hex env f) = None →
  dir_kind w0 !! d ≠ Some false →
  Forall (λ buf, Z.of_nat (length buf) < 2 ^ 63) bufs →
  Z.of_nat (length bufs) < 2 ^ 63 - 1 →
  ∃ cp0 w1 cp w,
    New env b f d w0 = Ret cp0 w1 ∧
    save_all env cp0 bufs w1 = Ret (cp, None) w ∧
    Size <$> parts cp = (λ buf, Z.of_nat (length buf)) <$> bufs ∧
    ∃ w', New env b f d w = Ret cp w' ∧
          calls w' = calls w ∧ ckpt_files w' = ckpt_files w ∧ s3 w' = s3 w.
Proof.
  intros Hnf Hclean Hck Hdir Hbufs Hlen.
  destruct (New_on_missing_checkpoint env b f d w0 Hnf Hck Hdir)
    as (w1 & HN & _ & Hc1 & Hd1 & Hu1).
  destruct (save_all_recorded env b f (filepath_Join d (sha256_hex env f))
              (upload_id_of env (created (s3 w0))) bufs Hnf Hclean []
              {| data := upload_id_of env (created (s3 w0)) +:+ LF;
                 synced := upload_id_of env (created (s3 w0)) +:+ LF |} w1)
    as (ps & c & w & HS & Hcl & Hsz & Hc & Hd & Hdir').
  - done.
  - done.
  - simpl. lia.
  - rewrite Hc1. apply lookup_insert_eq.
  - simpl. by rewrite str_app_nil_r.
  - by eexists.
  - simpl in HS, Hcl, Hd.
    destruct Hclean as [_ Hid]. destruct (Hid (created (s3 w0))) as [Hid1 Hid2].
    destruct (New_parses_record env b f d w c (upload_id_of env (created (s3 w0))) ps Hnf)
      as (w' & HN' & ?); try done.
    { by rewrite Hdir'. }
    eexists _, w1, _, w. split; [exact HN|]. split; [exact HS|].
    split; [done|]. by exists w'.
Qed.

Lemma checkpoint_round_trip_witness :
  let w0 := demo_world [("f", bytes5)] in
  ∃ cp0 w1 cp w,
    New (demo_env no_plan) "b" "d/f" "ck" w0 = Ret cp0 w1 ∧
    save_all (demo_env no_plan) cp0 [[Byte.x01; Byte.x02]; [Byte.x03]] w1 = Ret (cp, None) w ∧
    Size <$> parts cp = [2; 1] ∧
    ∃ w', New (demo_env no_plan) "b" "d/f" "ck" w = Ret cp w' ∧
          calls w' = calls w ∧ ckpt_files w' = ckpt_files w ∧ s3 w' = s3 w.
Proof.
  intros w0.
  apply (checkpoint_round_trip (demo_env no_plan) "b" "d/f" "ck"
           [[Byte.x01; Byte.x02]; [Byte.x03]] w0).
  - intros n. reflexivity.
  - apply demo_env_clean.
  - reflexivity.
  - discriminate.
  - repeat constructor; simpl; lia.
  - simpl. lia.
Defined.

(** X10: a source file with no byte, or a part size of 0: the first read
    returns 0 and the loop ends at once.  The run on a fresh checkpoint
    sends the request for the session and one completion request with an
    empty part list, and no part. *)
Theorem nothing_to_read_run env cfg turns fileName content w :
  no_faults env → 0 <= partSize cfg → (0 < turns)%nat →
  src_files w !! filepath_Join (dirName cfg) fileName = Some content →
  content = [] ∨ partSize cfg = 0 →
  ckpt_files w !! filepath_Join (checkpointDir cfg)
                    (sha256_hex env (filepath_Join (dirName cfg) fileName)) = None →
  dir_kind w !! checkpointDir cfg ≠ Some false →
  let id := upload_id_of env (created (s3 w)) in
  let key := Go.strings_TrimPrefix_slash (filepath_Join (dirName cfg) fileName) in
  ∃ e res w',
    uploadFile env cfg turns fileName w = Ret e w' ∧
    calls w' = calls w ++ [CallCreate (bucketName cfg) key (inr id);
                           CallComplete (Some id) (bucketName cfg) key [] res].
Proof.
  intros Hnf Hps Hturns Hsrc Hempty Hck Hdir id key. subst id key.
  unfold uploadFile. unfold bind at 1. unfold os_Open. run_prims.
  rewrite Hnf. world_simpl. rewrite Hsrc.
  destruct (New_on_missing_checkpoint env (bucketName cfg)
              (filepath_Join (dirName cfg) fileName) (checkpointDir cfg) (next_tick w) Hnf)
    as (w1 & HN & Hc1 & _); [done|done|].
  world_simpl. rewrite HN. unfold Seek, seekOffset. cbn [parts foldl]. run_prims.
  rewrite Hnf. rewrite decide_False by lia. cbn [fst].
  destruct turns as [|t]; [lia|]. cbn [upload_loop]. unfold iteration, read_part.
  run_prims. rewrite decide_False by lia. rewrite Hnf. world_simpl.
  cbn [fh_pos fh_data]. rewrite drop_0, length_replicate.
  assert (take (Z.to_nat (partSize cfg)) content = [] ∧
          (replicate (Z.to_nat (partSize cfg)) Byte.x00 = [] ∨ content = [])) as [Ht Hb].
  { destruct Hempty as [Hc0|Hp0].
    - subst content. split; [by rewrite take_nil|by right].
    - rewrite Hp0. split; [done|by left]. }
  rewrite Ht.
  destruct (replicate (Z.to_nat (partSize cfg)) Byte.x00) eqn:Hrep; simpl.
  2: destruct Hb as [?| ->]; [done|]; simpl.
  all: match goal with
       | |- context [Complete ?en ?cp ?w0] =>
           destruct (Complete_request en cp w0) as (res & e & w' & HC & Hc)
       end.
  all: exists e, res, w'; split; [exact HC|].
  all: rewrite Hc; world_simpl; rewrite Hc1; world_simpl; by rewrite <- app_assoc.
Qed.

Lemma nothing_to_read_run_witness :
  ∃ e res w',
    uploadFile (demo_env no_plan) demo_cfg 1 "f" (demo_world [("f", [])]) = Ret e w' ∧
    calls w' = [CallCreate "b" "d/f" (inr "upload0");
                CallComplete (Some "upload0") "b" "d/f" [] res].
Proof.
  apply (nothing_to_read_run (demo_env no_plan) demo_cfg 1 "f" [] (demo_world [("f", [])])).
  - intros n. reflexivity.
  - simpl. lia.
  - lia.
  - reflexivity.
  - by left.
  - reflexivity.
  - discriminate.
Defined.

(* ===================================================================== *)
(** * The checkpoint files are append-only *)
(* ===================================================================== *)

Global Instance checkpoints_grow_preorder : PreOrder checkpoints_grow.
Proof.
  split.
  - intros w name c Hc. exists c, "". by rewrite str_app_nil_r.
  - intros w1 w2 w3 H12 H23 name c Hc.
    destruct (H12 name c Hc) as (c2 & s2 & Hc2 & Hd2).
    destruct (H23 name c2 Hc2) as (c3 & s3 & Hc3 & Hd3).
    exists c3, (s2 +:+ s3). split; [done|]. by rewrite Hd3, Hd2, str_app_assoc.
Qed.

Lemma grow_same w w' : ckpt_files w' = ckpt_files w → checkpoints_grow w w'.
Proof. intros H name c Hc. exists c, "". by rewrite H, str_app_nil_r. Qed.

Lemma grow_insert w w' name c s y :
  ckpt_files w !! name = Some c →
  ckpt_files w' = <[name:={| data := data c +:+ s; synced := y |}]> (ckpt_files w) →
  checkpoints_grow w w'.
Proof.
  intros Hc H n c0 Hc0. rewrite H. destruct (decide (n = name)) as [->|Hne].
  - rewrite lookup_insert_eq. simplify_eq. by eexists _, _.
  - rewrite lookup_insert_ne by done. exists c0, "". by rewrite str_app_nil_r.
Qed.

Lemma grow_new w w' name x :
  ckpt_files w !! name = None →
  ckpt_files w' = <[name:=x]> (ckpt_files w) →
  checkpoints_grow w w'.
Proof.
  intros Hc H n c0 Hc0. rewrite H. destruct (decide (n = name)) as [->|Hne].
  - congruence.
  - rewrite lookup_insert_ne by done. exists c0, "". by rewrite str_app_nil_r.
Qed.

Lemma keeps_bind {A B} R `{!PreOrder R} (m : M A) (f : A → M B) :
  keeps R m → (∀ a, keeps R (f a)) → keeps R (bind m f).
Proof.
  intros Hm Hf w. unfold bind. specialize (Hm w).
  destruct (m w) as [a w1| | |]; try done.
  simpl in Hm. etrans; [exact Hm|]. apply Hf.
Qed.

Lemma keeps_ret {A} R `{!PreOrder R} (a : A) : keeps R (ret a).
Proof. intros w. simpl. reflexivity. Qed.

Ltac keeps_same :=
  intros ?; apply grow_same; run_prims; repeat (destruct_atom; world_simpl); done.

Lemma file_Write_grows env h s : keeps checkpoints_grow (file_Write env h s).
Proof.
  intros w. run_prims. repeat (destruct_atom; world_simpl); try by apply grow_same.
  eapply grow_insert; [eassumption|]. simpl. done.
Qed.

Lemma file_Sync_grows env h : keeps checkpoints_grow (file_Sync env h).
Proof.
  intros w. run_prims. repeat (destruct_atom; world_simpl); try by apply grow_same.
  eapply (grow_insert _ _ _ _ ""); [eassumption|]. simpl. by rewrite str_app_nil_r.
Qed.

Lemma New_grows env b f d : keeps checkpoints_grow (New env b f d).
Proof.
  intros w. unfold New. sym_exec; try by apply grow_same.
  all: try (eapply grow_new; [eassumption|]; world_simpl;
            rewrite ?insert_insert_eq; reflexivity).
Qed.

Lemma Save_grows env cp buf : keeps checkpoints_grow (Save env cp buf).
Proof.
  unfold Save. apply keeps_bind; [apply _| |].
  - intros w. apply grow_same. unfold Save_request, service_upload_part, find_upload.
    run_prims. repeat (destruct_atom; world_simpl); done.
  - intros [e|etag]; [apply keeps_ret, _|].
    apply keeps_bind; [apply _|apply file_Write_grows|].
    intros [e|]; [apply keeps_ret, _|].
    apply keeps_bind; [apply _|apply file_Sync_grows|]. intros ?. apply keeps_ret, _.
Qed.

Lemma Complete_grows env cp : keeps checkpoints_grow (Complete env cp).
Proof.
  intros w. apply grow_same. unfold_prims. repeat (destruct_atom; world_simpl); done.
Qed.

Lemma Seek_grows env cp file : keeps checkpoints_grow (Seek env cp file).
Proof. unfold Seek. keeps_same. Qed.

Lemma read_part_grows env cfg cp file : keeps checkpoints_grow (read_part env cfg cp file).
Proof. unfold read_part. keeps_same. Qed.

Lemma Fatal_grows {A} msg : keeps checkpoints_grow (@Fatal A msg).
Proof. keeps_same. Qed.

Lemma Panics_grows {A} msg : keeps checkpoints_grow (@Panics A msg).
Proof. keeps_same. Qed.

Lemma iteration_grows env cfg cp file : keeps checkpoints_grow (iteration env cfg cp file).
Proof.
  unfold iteration. apply keeps_bind; [apply _|apply read_part_grows|].
  intros [s|[file' buffer]]; [apply keeps_ret, _|].
  apply keeps_bind; [apply _|apply Save_grows|].
  intros [local [e|]]; [apply Fatal_grows|apply keeps_ret, _].
Qed.

Lemma upload_loop_grows env cfg turns cp file :
  keeps checkpoints_grow (upload_loop env cfg turns cp file).
Proof.
  revert cp file. induction turns as [|turns IH]; intros cp file.
  - intros w. simpl. reflexivity.
  - simpl. apply keeps_bind; [apply _|apply iteration_grows|].
    intros [l f'|l|e]; [apply IH|apply keeps_ret, _|apply keeps_ret, _].
Qed.

Lemma uploadFile_grows env cfg turns fileName :
  keeps checkpoints_grow (uploadFile env cfg turns fileName).
Proof.
  unfold uploadFile. apply keeps_bind; [apply _|keeps_same|].
  intros [e|file]; [apply keeps_ret, _|].
  apply keeps_bind; [apply _|apply New_grows|]. intros local.
  apply keeps_bind; [apply _|apply Seek_grows|]. intros sought.
  apply keeps_bind; [apply _|apply upload_loop_grows|].
  intros [l|e]; [apply Complete_grows|apply keeps_ret, _].
Qed.

Lemma run_tasks_grows env cfg turns files :
  keeps checkpoints_grow (run_tasks env cfg turns files).
Proof.
  induction files as [|[fileName [|]] files IH]; simpl.
  - apply keeps_ret, _.
  - done.
  - apply keeps_bind; [apply _|apply uploadFile_grows|].
    intros [e|]; [apply Panics_grows|done].
Qed.



(* ===================================================================== *)
(** * The numbers of the part requests *)
(* ===================================================================== *)

Lemma part_requests_app tr1 tr2 :
  part_requests (tr1 ++ tr2) = part_requests tr1 ++ part_requests tr2.
Proof. apply omap_app. Qed.

Lemma Save_requests env cp buf w :
  ∃ cp' e w' res,
    Save env cp buf w = Ret (cp', e) w' ∧
    calls w' = calls w ++ [CallUploadPart (uploadID cp) (bucket cp)
                             (Go.strings_TrimPrefix_slash (key cp))
                             (Z.of_nat (length (parts cp)) + 1) buf res] ∧
    (e = None → length (parts cp') = S (length (parts cp))).
Proof.
  unfold_prims. repeat (destruct_atom; world_simpl).
  all: eexists _, _, _, _; split; [reflexivity|]; world_simpl; split; [reflexivity|].
  all: try done.
  all: intros _; cbn [parts]; rewrite length_app; simpl; lia.
Qed.

Lemma read_part_calls env cfg cp file w :
  calls (world_of (read_part env cfg cp file w)) = calls w.
Proof. unfold read_part. run_prims. repeat (destruct_atom; world_simpl); done. Qed.

Lemma iteration_requests env cfg cp file w :
  ∃ tr, calls (world_of (iteration env cfg cp file w)) = calls w ++ tr ∧
    completions tr = [] ∧
    ((part_requests tr = [] ∧
      ∀ cp' f' w', iteration env cfg cp file w ≠ Ret (Continue cp' f') w') ∨
     (part_requests tr = [Z.of_nat (length (parts cp)) + 1] ∧
      ∀ s w', iteration env cfg cp file w = Ret s w' →
        ∃ cp' f', s = Continue cp' f' ∧ length (parts cp') = S (length (parts cp)))).
Proof.
  unfold iteration, bind. pose proof (read_part_calls env cfg cp file w) as Hr.
  destruct (read_part env cfg cp file w) as [[s|[file' buffer]] w1| | |] eqn:HR;
    simpl in Hr.
  2:{ destruct (Save_requests env cp buffer w1) as (cp' & e & w' & res & HS & Hc & Hlen).
      rewrite HS. eexists [_]. destruct e as [e|]; simpl.
      - rewrite Hc, Hr. split; [done|]. split; [done|]. right. split; [done|].
        intros; done.
      - rewrite Hc, Hr. split; [done|]. split; [done|]. right. split; [done|].
        unfold ret. intros s w2 [= <- <-]. eexists _, _. split; [done|]. by apply Hlen. }
  all: exists []; rewrite app_nil_r; simpl; split; [done|]; split; [done|].
  all: left; split; [done|].
  all: try (intros; done).
  unfold ret. intros cp' f' w' [= -> ->].
  revert HR. unfold read_part. run_prims.
  repeat (destruct_atom; world_simpl); done.
Qed.

Lemma upload_loop_requests env cfg turns cp file w :
  ∃ tr n,
    calls (world_of (upload_loop env cfg turns cp file w)) = calls w ++ tr ∧
    part_requests tr = seqZ (Z.of_nat (length (parts cp)) + 1) (Z.of_nat n) ∧
    completions tr = [] ∧
    ∀ r w', upload_loop env cfg turns cp file w = Ret r w' →
      match r with
      | inl cp' => length (parts cp') = (length (parts cp) + n)%nat
      | inr _ => True
      end.
Proof.
  revert cp file w. induction turns as [|turns IH]; intros cp file w.
  { exists [], 0%nat. simpl. rewrite app_nil_r. done. }
  simpl. unfold bind.
  destruct (iteration_requests env cfg cp file w) as (tr & Hc & Hcomp & Hcase).
  destruct (iteration env cfg cp file w) as [s w1| | |] eqn:Hit; simpl in Hc.
  1: destruct s as [cp1 file1|cp1|err].
  - destruct Hcase as [[_ Hno]|[Hreq Hs]]; [by destruct (Hno cp1 file1 w1)|].
    destruct (Hs _ _ eq_refl) as (cp' & f' & [= <- <-] & Hlen).
    destruct (IH cp1 file1 w1) as (tr' & n & Hc' & Hreq' & Hcomp' & Hlen').
    exists (tr ++ tr'), (S n). split; [by rewrite Hc', Hc, app_assoc|].
    split.
    { rewrite part_requests_app, Hreq, Hreq', Hlen.
      rewrite (seqZ_cons (Z.of_nat (length (parts cp)) + 1)) by lia.
      cbn [app]. f_equal. f_equal; lia. }
    split; [by rewrite completions_app, Hcomp, Hcomp'|].
    intros r w' Hr. specialize (Hlen' r w' Hr). destruct r; [|done]. lia.
  - destruct Hcase as [[Hreq _]|[_ Hs]]; [|by destruct (Hs _ _ eq_refl) as (? & ? & ? & _)].
    exists tr, 0%nat. simpl. split; [done|]. split; [done|]. split; [done|].
    unfold ret. intros r w' [= <- <-].
    apply iteration_trace in Hit as [-> _]. lia.
  - destruct Hcase as [[Hreq _]|[_ Hs]]; [|by destruct (Hs _ _ eq_refl) as (? & ? & ? & _)].
    exists tr, 0%nat. simpl. split; [done|]. split; [done|]. split; [done|].
    unfold ret. by intros r w' [= <- <-].
  - exists tr.
    destruct Hcase as [[Hreq _]|[Hreq _]].
    + exists 0%nat. simpl. done.
    + exists 1%nat. simpl. split; [done|]. split; [by rewrite Hreq|]. done.
  - exists tr.
    destruct Hcase as [[Hreq _]|[Hreq _]].
    + exists 0%nat. simpl. done.
    + exists 1%nat. simpl. split; [done|]. split; [by rewrite Hreq|]. done.
  - exists tr.
    destruct Hcase as [[Hreq _]|[Hreq _]].
    + exists 0%nat. simpl. done.
    + exists 1%nat. simpl. split; [done|]. split; [by rewrite Hreq|]. done.
Qed.

Lemma New_requests env b f d w :
  ∃ tr, calls (world_of (New env b f d w)) = calls w ++ tr ∧
        part_requests tr = [] ∧ completions tr = [].
Proof.
  unfold New. sym_exec.
  all: try (exists []; rewrite app_nil_r; done).
  all: eexists [_]; done.
Qed.

Lemma Complete_requests env cp w :
  ∃ tr, calls (world_of (Complete env cp w)) = calls w ++ tr ∧ part_requests tr = [].
Proof.
  destruct (Complete_request env cp w) as (res & e & w' & HC & Hc).
  rewrite HC. simpl. by eexists [_].
Qed.

(** X9: in every run of [uploadFile], however it ends, the part requests
    carry the numbers that follow the parts recorded in the checkpoint file
    when the run started: with [k] parts recorded, the requests are for
    [k+1], [k+2], ... in this order, each number once.  No recorded part is
    sent again and no number is skipped. *)
Theorem part_requests_continue_the_record env cfg turns fileName w :
  let name := filepath_Join (checkpointDir cfg)
                (sha256_hex env (filepath_Join (dirName cfg) fileName)) in
  ∃ tr n,
    calls (world_of (uploadFile env cfg turns fileName w)) = calls w ++ tr ∧
    part_requests tr
    = seqZ (Z.of_nat (length (recorded_parts w name)) + 1) (Z.of_nat n).
Proof.
  intros name. unfold uploadFile, bind.
  destruct (os_Open env _ w) as [[err|file] w1| | |] eqn:HO.
  2:{ apply os_Open_calls in HO as [HO Hck].
      destruct (New_requests env (bucketName cfg) (filepath_Join (dirName cfg) fileName)
                  (checkpointDir cfg) w1) as (trN & HcN & HrN & _).
      destruct (New env _ _ _ w1) as [cp w2| | |] eqn:HN; simpl in HcN.
      2-4: exists trN, 0%nat; simpl; rewrite HcN, HO; by split.
      apply New_trace in HN as [Hparts _].
      unfold recorded_parts in Hparts. rewrite Hck in Hparts.
      fold (recorded_parts w name) in Hparts.
      destruct (Seek env cp file w2) as [sought w3| | |] eqn:HS.
      2-4: revert HS; unfold Seek; run_prims; repeat (destruct_atom; world_simpl); done.
      apply Seek_calls in HS.
      destruct (upload_loop_requests env cfg turns cp sought.1 w3)
        as (trL & n & HcL & HrL & _ & _).
      rewrite Hparts in HrL.
      destruct (upload_loop env cfg turns cp sought.1 w3) as [[cp'|err] w4| | |] eqn:HL;
        simpl in HcL.
      2-5: exists (trN ++ trL), n; simpl; rewrite HcL, HS, HcN, HO, app_assoc;
           split; [done|]; by rewrite part_requests_app, HrN, HrL.
      destruct (Complete_requests env cp' w4) as (trC & HcC & HrC).
      exists (trN ++ trL ++ trC), n. rewrite HcC, HcL, HS, HcN, HO, !app_assoc.
      split; [done|]. by rewrite !part_requests_app, HrN, HrL, HrC, app_nil_r. }
  all: exists [], 0%nat; simpl; rewrite app_nil_r; split; [|done].
  all: revert HO; run_prims; repeat (destruct_atom; world_simpl); intros; simplify_eq;
       done.
Qed.

(* ===================================================================== *)
(** * Complete runs *)
(* ===================================================================== *)



(** X12: a complete upload run again.  The checkpoint file is still there,
    so the second run reads every part from it, reads nothing more from
    the source, and sends one request only: the completion of the recorded
    parts, which the service answers with [NoSuchUpload].  The run returns
    [nil]; the service and the checkpoint files are left as they were. *)
Theorem second_run_only_completes env cfg fileName content w0 turns :
  no_faults env → clean_env env →
  0 < partSize cfg →
  Z.of_nat (length content) + partSize cfg < 2 ^ 63 →
  src_files w0 !! source_path cfg fileName = Some content →
  ckpt_files w0 !! checkpoint_name env cfg fileName = None →
  dir_kind w0 !! checkpointDir cfg ≠ Some false →
  (length content < turns)%nat →
  ∃ w1 w2,
    uploadFile env cfg turns fileName w0 = Ret None w1 ∧
    uploadFile env cfg turns fileName w1 = Ret None w2 ∧
    calls w2 = calls w1 ++ [CallComplete (Some (upload_id_of env (created (s3 w0))))
                              (bucketName cfg) (object_key cfg fileName)
                              (toS3CompletedParts
                                 (recorded_parts w1 (checkpoint_name env cfg fileName)))
                              (Some (Go.AwsErr NoSuchUpload ""))] ∧
    s3 w2 = s3 w1 ∧ ckpt_files w2 = ckpt_files w1.
Proof.
  intros Hnf Hclean Hps Hbound Hsrc Hck Hdir Hturns.
  by apply (second_run_of env Hnf cfg Hclean Hps fileName _ content Hbound).
Qed.

Lemma second_run_only_completes_witness :
  ∃ w1 w2,
    uploadFile (demo_env no_plan) demo_cfg 10 "f" (demo_world [("f", bytes5)]) = Ret None w1 ∧
    uploadFile (demo_env no_plan) demo_cfg 10 "f" w1 = Ret None w2 ∧
    calls w2 = calls w1 ++ [CallComplete (Some "upload0") "b" "d/f"
                              (toS3CompletedParts (recorded_parts w1 "ck/hd/f"))
                              (Some (Go.AwsErr NoSuchUpload ""))] ∧
    s3 w2 = s3 w1 ∧ ckpt_files w2 = ckpt_files w1.
Proof.
  apply (second_run_only_completes (demo_env no_plan) demo_cfg "f" bytes5
           (demo_world [("f", bytes5)]) 10).
  - intros n. reflexivity.
  - apply demo_env_clean.
  - reflexivity.
  - reflexivity.
  - reflexivity.
  - reflexivity.
  - discriminate.
  - simpl. lia.
Defined.

(* ===================================================================== *)
(** * The orchestrator and the entries of the directory *)
(* ===================================================================== *)


(* ===================================================================== *)
(** * The inline driver *)
(* ===================================================================== *)

Lemma Inline_scan_part_reads text w p w' :
  Inline.scan_part text w = Ret p w' → parse_part text = Some p ∧ w' = w.
Proof.
  unfold Inline.scan_part, parse_part, Inline.must, Inline.index_out_of_range.
  run_prims. intros H. repeat (destruct_atom; simplify_eq; world_simpl); done.
Qed.

Lemma Inline_scan_part_calls text w :
  calls (world_of (Inline.scan_part text w)) = calls w.
Proof.
  unfold Inline.scan_part, Inline.must, Inline.index_out_of_range.
  run_prims. repeat (destruct_atom; simplify_eq; world_simpl); done.
Qed.

Lemma Inline_scan_parts_reads lines : ∀ w ps w',
  Inline.scan_parts lines w = Ret ps w' → mapM parse_part lines = Some ps ∧ w' = w.
Proof.
  induction lines as [|line lines IH]; intros w ps w' H.
  - simpl in H. unfold ret in H. by simplify_eq.
  - simpl in H. unfold bind in H.
    destruct (Inline.scan_part line w) as [p w1| | |] eqn:Hp; try done.
    apply Inline_scan_part_reads in Hp as [Hp ->].
    destruct (Inline.scan_parts lines w) as [ps1 w2| | |] eqn:Hps; try done.
    apply IH in Hps as [Hps ->]. unfold ret in H. simplify_eq.
    simpl. by rewrite Hp, Hps.
Qed.

Lemma Inline_scan_parts_calls lines : ∀ w,
  calls (world_of (Inline.scan_parts lines w)) = calls w.
Proof.
  induction lines as [|line lines IH]; intros w; [done|].
  simpl. unfold bind. pose proof (Inline_scan_part_calls line w) as Hc.
  destruct (Inline.scan_part line w) as [p w1| | |]; simpl in Hc; try done.
  specialize (IH w1).
  destruct (Inline.scan_parts lines w1) as [ps1 w2| | |]; simpl in *; congruence.
Qed.

Lemma Inline_find_trace env cfg b d f w :
  let name := filepath_Join (checkpointDir cfg) (sha256_hex env (filepath_Join d f)) in
  ∃ tr, calls (world_of (Inline.findOrCreateMultipartUpload env cfg b d f w)) = calls w ++ tr ∧
        completions tr = [] ∧ part_requests tr = [] ∧
        ∀ id ps h w', Inline.findOrCreateMultipartUpload env cfg b d f w = Ret (id, ps, h) w' →
                      ps = recorded_parts w name.
Proof.
  intros name. unfold Inline.findOrCreateMultipartUpload. fold name.
  unfold Inline.os_OpenFile_in, Inline.os_Create_in, recorded_parts. run_prims.
  repeat (destruct_atom; simplify_eq; world_simpl).
  all: try (exists []; rewrite app_nil_r; repeat split; try done;
            intros; simplify_eq; done).
  all: try (eexists [_]; repeat split; try done; intros; simplify_eq; done).
  all: match goal with
       | H : Inline.scan_parts ?l ?w1 = _ |- _ =>
           pose proof (Inline_scan_parts_calls l w1) as Hc; rewrite H in Hc; simpl in Hc
       end.
  all: exists []; rewrite app_nil_r; repeat split; try done.
  intros ???? [= <- <- <- <-].
  apply Inline_scan_parts_reads in Heqr as [Hm _]. by rewrite Hm.
Qed.

Lemma Inline_turn_trace env cfg id h b path pn file w :
  ∃ tr, calls (world_of (Inline.turn env cfg id h b path pn file w)) = calls w ++ tr ∧
        completions tr = [].
Proof.
  unfold Inline.turn. run_prims.
  unfold service_upload_part, find_upload.
  repeat (destruct_atom; simplify_eq; world_simpl).
  all: try (exists []; rewrite app_nil_r; done).
  all: eexists [_]; done.
Qed.

Lemma Inline_loop_trace env cfg turns id h b path : ∀ pn file w,
  ∃ tr, calls (world_of (Inline.upload_loop env cfg turns id h b path pn file w))
        = calls w ++ tr ∧ completions tr = [].
Proof.
  induction turns as [|turns IH]; intros pn file w.
  { exists []. simpl. by rewrite app_nil_r. }
  simpl. unfold bind.
  destruct (Inline_turn_trace env cfg id h b path pn file w) as (tr & Hc & Hn).
  destruct (Inline.turn env cfg id h b path pn file w) as [[pn' file'| |err] w1| | |];
    simpl in Hc; try by exists tr.
  destruct (IH pn' file' w1) as (tr' & Hc' & Hn').
  exists (tr ++ tr'). rewrite Hc', Hc, app_assoc. split; [done|].
  by rewrite completions_app, Hn, Hn'.
Qed.

(** X14: in the inline driver, however a run ends, it sends at most one
    completion request, and that request lists the parts read from the
    checkpoint file when the run started, and these only: the parts the run
    uploads are written to the file and left out of the request. *)
Theorem Inline_completion_lists_recorded_parts_only env cfg turns b d f w :
  let name := filepath_Join (checkpointDir cfg) (sha256_hex env (filepath_Join d f)) in
  ∃ tr, calls (world_of (Inline.uploadFile env cfg turns b d f w)) = calls w ++ tr ∧
        (completions tr = [] ∨
         completions tr = [toS3CompletedParts (recorded_parts w name)]).
Proof.
  intros name. unfold Inline.uploadFile. unfold bind at 1.
  destruct (os_Open env (filepath_Join d f) w) as [[err|file] w1| | |] eqn:HO.
  3-5: revert HO; run_prims; repeat (destruct_atom; world_simpl); done.
  { apply os_Open_calls in HO as [HO _]. exists []. simpl.
    rewrite app_nil_r. split; [done|by left]. }
  apply os_Open_calls in HO as [HO Hck].
  unfold bind at 1, Inline.session_NewSession, env_call, bind at 1, ret at 1.
  destruct (fault env (ticks w1)) as [code|].
  { exists []. simpl. rewrite app_nil_r. split; [done|by left]. }
  unfold bind at 1.
  destruct (Inline_find_trace env cfg b d f (next_tick w1)) as (trF & HcF & HnF & _ & HF).
  fold name in HF.
  destruct (Inline.findOrCreateMultipartUpload env cfg b d f (next_tick w1))
    as [[[id ps] h] w2| | |] eqn:Hfind; simpl in HcF.
  2-4: exists trF; simpl; rewrite HcF; world_simpl; rewrite HO; split; [done|by left].
  specialize (HF id ps h w2 eq_refl).
  unfold recorded_parts in HF. world_simpl. rewrite Hck in HF.
  fold (recorded_parts w name) in HF. subst ps.
  unfold bind at 1.
  set (start := match last (recorded_parts w name) with
                | Some lastPart => _ | None => _ end).
  assert (∃ pn0 file0 w3, start w2 = Ret (pn0, file0) w3 ∧ calls w3 = calls w2)
    as (pn0 & file0 & w3 & Hstart & Hc3).
  { subst start. destruct (last (recorded_parts w name)); [|by eexists _, _, _].
    run_prims. repeat (destruct_atom; world_simpl); by eexists _, _, _. }
  rewrite Hstart. cbn [fst snd]. unfold bind at 1.
  destruct (Inline_loop_trace env cfg turns id h b (filepath_Join d f) pn0 file0 w3)
    as (trL & HcL & HnL).
  destruct (Inline.upload_loop env cfg turns id h b (filepath_Join d f) pn0 file0 w3)
    as [[err|] w4| | |]; simpl in HcL.
  1,3-5: exists (trF ++ trL); simpl; rewrite HcL, Hc3, HcF; world_simpl;
         rewrite HO, app_assoc; split; [done|]; left;
         by rewrite completions_app, HnF, HnL.
  run_prims. unfold service_complete, find_upload.
  repeat (destruct_atom; simplify_eq; world_simpl).
  all: eexists (trF ++ trL ++ [_]); rewrite HcL, Hc3, HcF; world_simpl.
  all: rewrite HO, !app_assoc; split; [reflexivity|]; right.
  all: by rewrite !completions_app, HnF, HnL.
Qed.

(** A run of the inline driver on a file of five bytes, with parts of two
    bytes and no checkpoint: three parts are sent, and the completion
    request lists none. *)
Lemma Inline_fresh_run_lists_no_part :
  calls (world_of (Inline.uploadFile (demo_env no_plan) demo_cfg 10 "b" "d" "f"
                     (set_dir_kind {[ "ck" := true ]} (demo_world [("f", bytes5)]))))
  = [CallCreate "b" "d/f" (inr "upload0");
     CallUploadPart (Some "upload0") "b" "d/f" 1 [Byte.x01; Byte.x02] (inr "etag2");
     CallUploadPart (Some "upload0") "b" "d/f" 2 [Byte.x03; Byte.x04] (inr "etag2");
     CallUploadPart (Some "upload0") "b" "d/f" 3 [Byte.x05; Byte.x00] (inr "etag2");
     CallComplete (Some "upload0") "b" "d/f" [] None].
Proof. vm_compute. reflexivity. Qed.

Lemma Inline_run_tasks_app env cfg turns pre post w :
  Inline.run_tasks env cfg turns (pre ++ post) w
  = match Inline.run_tasks env cfg turns pre w with
    | Ret _ w1 => Inline.run_tasks env cfg turns post w1
    | r => r
    end.
Proof.
  revert w. induction pre as [|[fileName [|]] pre IH]; intros w; simpl.
  - done.
  - apply IH.
  - unfold bind.
    destruct (Inline.uploadFile env cfg turns _ _ fileName w) as [[e|] w1| | |]; try done.
    + unfold log_line, modify. apply IH.
    + unfold ret. apply IH.
Qed.



(** X16: the inline driver never creates the checkpoint directory.  When the
    directory is missing, a run asks the service for a session, fails to
    create the checkpoint file and exits with status 1: the session stays
    open at the service, no checkpoint file is written, and no part is
    sent. *)
Theorem Inline_missing_directory_leaks_a_session env cfg turns b d f content w :
  no_faults env →
  src_files w !! filepath_Join d f = Some content →
  dir_kind w !! checkpointDir cfg = None →
  let id := upload_id_of env (created (s3 w)) in
  let key := Go.strings_TrimPrefix_slash (filepath_Join d f) in
  ∃ w',
    Inline.uploadFile env cfg turns b d f w = Exit 1 w' ∧
    calls w' = calls w ++ [CallCreate b key (inr id)] ∧
    uploads (s3 w') !! id = Some {| up_bucket := b; up_key := key; up_parts := ∅ |} ∧
    created (s3 w') = S (created (s3 w)) ∧
    ckpt_files w' = ckpt_files w ∧ dir_kind w' = dir_kind w.
Proof.
  intros Hnf Hsrc Hdir id key. subst id key.
  unfold Inline.uploadFile, Inline.session_NewSession, Inline.findOrCreateMultipartUpload,
    Inline.os_OpenFile_in, Inline.os_Create_in.
  run_prims. unfold service_create.
  repeat (progress (rewrite ?Hnf, ?Hsrc, ?Hdir; world_simpl)).
  rewrite decide_False by (intros ?; done).
  repeat (progress (rewrite ?Hnf, ?Hsrc, ?Hdir; world_simpl)).
  eexists. split; [reflexivity|]. world_simpl. simpl.
  by rewrite lookup_insert_eq.
Qed.

Lemma Inline_missing_directory_leaks_a_session_witness :
  ∃ w',
    Inline.uploadFile (demo_env no_plan) demo_cfg 10 "b" "d" "f" (demo_world [("f", bytes5)])
    = Exit 1 w' ∧
    calls w' = [CallCreate "b" "d/f" (inr "upload0")] ∧
    uploads (s3 w') !! "upload0"
    = Some {| up_bucket := "b"; up_key := "d/f"; up_parts := ∅ |} ∧
    created (s3 w') = 1%nat ∧
    ckpt_files w' = ∅ ∧ dir_kind w' = ∅.
Proof.
  apply (Inline_missing_directory_leaks_a_session (demo_env no_plan) demo_cfg 10
           "b" "d" "f" bytes5 (demo_world [("f", bytes5)])).
  - intros n. reflexivity.
  - reflexivity.
  - reflexivity.
Defined.


(* ===================================================================== *)
(** * The first driver *)
(* ===================================================================== *)

(** X17: with the first driver a run never goes on from a checkpoint.  The
    checkpoint file is opened with [O_TRUNC]: when it exists the run
    empties it, reads no byte, and panics on the missing second field;
    nothing is sent to the service. *)
Theorem Regional_existing_checkpoint_is_lost env cfg turns b d f content c w :
  no_faults env →
  src_files w !! filepath_Join d f = Some content →
  dir_kind w !! checkpointDir cfg = Some true →
  ckpt_files w !! filepath_Join (checkpointDir cfg) (sha256_hex env f) = Some c →
  ∃ m w',
    Regional.uploadFile env cfg turns b d f w = Panic m w' ∧
    calls w' = calls w ∧ s3 w' = s3 w ∧
    ckpt_files w'
    = <[filepath_Join (checkpointDir cfg) (sha256_hex env f):=
          {| data := ""; synced := synced c |}]> (ckpt_files w).
Proof.
  intros Hnf Hsrc Hdir Hck.
  unfold Regional.uploadFile, Inline.session_NewSession,
    Regional.findOrCreateMultipartUpload, Regional.os_OpenFile_trunc_in,
    Regional.file_Read_text, Inline.index_out_of_range.
  run_prims.
  repeat (progress (rewrite ?Hnf, ?Hsrc, ?Hdir, ?Hck, ?lookup_insert_eq; world_simpl)).
  cbn [data String.length Z.of_nat]. rewrite decide_True by done.
  cbn [Go.strings_Split]. world_simpl.
  eexists _, _. split; [reflexivity|]. by world_simpl.
Qed.

Lemma Regional_existing_checkpoint_is_lost_witness :
  let text := "upload0,1" +:+ LF in
  let w := set_dir_kind {[ "ck" := true ]}
             (set_ckpt_files {[ "ck/hf" := {| data := text; synced := text |} ]}
                (demo_world [("f", bytes5)])) in
  ∃ m w',
    Regional.uploadFile (demo_env no_plan) demo_cfg 10 "b" "d" "f" w = Panic m w' ∧
    calls w' = calls w ∧ s3 w' = s3 w ∧
    ckpt_files w' = <["ck/hf":={| data := ""; synced := text |}]> (ckpt_files w).
Proof.
  intros text w.
  apply (Regional_existing_checkpoint_is_lost (demo_env no_plan) demo_cfg 10 "b" "d" "f"
           bytes5 {| data := text; synced := text |} w).
  - intros n. reflexivity.
  - reflexivity.
  - reflexivity.
  - reflexivity.
Defined.

Lemma Regional_turn_trace env cfg id h b path pn file w :
  ∃ tr, calls (world_of (Regional.turn env cfg id h b path pn file w)) = calls w ++ tr ∧
        completions tr = [].
Proof.
  unfold Regional.turn. run_prims.
  unfold service_upload_part, find_upload.
  repeat (destruct_atom; simplify_eq; world_simpl).
  all: try (exists []; rewrite app_nil_r; done).
  all: eexists [_]; done.
Qed.

Lemma Regional_loop_trace env cfg turns id h b path : ∀ pn file w,
  ∃ tr, calls (world_of (Regional.upload_loop env cfg turns id h b path pn file w))
        = calls w ++ tr ∧ completions tr = [].
Proof.
  induction turns as [|turns IH]; intros pn file w.
  { exists []. simpl. by rewrite app_nil_r. }
  simpl. unfold bind.
  destruct (Regional_turn_trace env cfg id h b path pn file w) as (tr & Hc & Hn).
  destruct (Regional.turn env cfg id h b path pn file w) as [[pn' file'| |err] w1| | |];
    simpl in Hc; try by exists tr.
  destruct (IH pn' file' w1) as (tr' & Hc' & Hn').
  exists (tr ++ tr'). rewrite Hc', Hc, app_assoc. split; [done|].
  by rewrite completions_app, Hn, Hn'.
Qed.

Lemma Regional_find_trace env cfg b d f w :
  ∃ tr, calls (world_of (Regional.findOrCreateMultipartUpload env cfg b d f w))
        = calls w ++ tr ∧ completions tr = [].
Proof.
  unfold Regional.findOrCreateMultipartUpload, Regional.os_OpenFile_trunc_in,
    Inline.os_Create_in, Regional.file_Read_text, Inline.must, Inline.index_out_of_range.
  run_prims.
  repeat (destruct_atom; simplify_eq; world_simpl).
  all: try (exists []; rewrite app_nil_r; done).
  all: eexists [_]; done.
Qed.

Global Instance same_objects_preorder : PreOrder same_objects.
Proof. split; [done|]. intros w1 w2 w3 H12 H23. unfold same_objects in *. congruence. Qed.

Ltac keeps_objects :=
  intros ?; unfold same_objects; run_prims;
  unfold service_upload_part, service_create, find_upload;
  repeat (destruct_atom; simplify_eq; world_simpl); done.

Lemma Regional_turn_objects env cfg id h b path pn file :
  keeps same_objects (Regional.turn env cfg id h b path pn file).
Proof. unfold Regional.turn. keeps_objects. Qed.

Lemma Regional_loop_objects env cfg turns id h b path : ∀ pn file,
  keeps same_objects (Regional.upload_loop env cfg turns id h b path pn file).
Proof.
  induction turns as [|turns IH]; intros pn file.
  { intros w. simpl. reflexivity. }
  simpl. apply keeps_bind; [apply _|apply Regional_turn_objects|].
  intros [pn' file'| |err]; [apply IH|apply keeps_ret, _|apply keeps_ret, _].
Qed.

Lemma Regional_find_objects env cfg b d f :
  keeps same_objects (Regional.findOrCreateMultipartUpload env cfg b d f).
Proof.
  unfold Regional.findOrCreateMultipartUpload, Regional.os_OpenFile_trunc_in,
    Inline.os_Create_in, Regional.file_Read_text, Inline.must, Inline.index_out_of_range.
  keeps_objects.
Qed.

(** X18: the first driver never asks the service to complete an upload: however
    a run ends, its requests hold no completion request and the objects of
    the service are those before the run; the parts it sends stay in an
    open session. *)
Theorem Regional_never_completes env cfg turns b d f w :
  let r := Regional.uploadFile env cfg turns b d f w in
  (∃ tr, calls (world_of r) = calls w ++ tr ∧ completions tr = []) ∧
  objects (s3 (world_of r)) = objects (s3 w).
Proof.
  intros r. subst r. split.
  - unfold Regional.uploadFile. unfold bind at 1.
    destruct (os_Open env (filepath_Join d f) w) as [[err|file] w1| | |] eqn:HO.
    3-5: revert HO; run_prims; repeat (destruct_atom; world_simpl); done.
    { apply os_Open_calls in HO as [HO _]. exists []. simpl. by rewrite app_nil_r. }
    apply os_Open_calls in HO as [HO Hck].
    unfold bind at 1, Inline.session_NewSession, env_call, bind at 1, ret at 1.
    destruct (fault env (ticks w1)) as [code|].
    { exists []. simpl. by rewrite app_nil_r. }
    unfold bind at 1.
    destruct (Regional_find_trace env cfg b d f (next_tick w1)) as (trF & HcF & HnF).
    destruct (Regional.findOrCreateMultipartUpload env cfg b d f (next_tick w1))
      as [[[id pn] h] w2| | |] eqn:Hfind; simpl in HcF.
    2-4: exists trF; simpl; rewrite HcF; world_simpl; by rewrite HO.
    unfold bind at 1.
    destruct (Regional_loop_trace env cfg turns id h b (filepath_Join d f) pn file w2)
      as (trL & HcL & HnL).
    destruct (Regional.upload_loop env cfg turns id h b (filepath_Join d f) pn file w2)
      as [[err|] w3| | |]; simpl in HcL.
    all: exists (trF ++ trL); run_prims; world_simpl; rewrite HcL, HcF; world_simpl.
    all: rewrite HO, app_assoc; split; [done|]; by rewrite completions_app, HnF, HnL.
  - assert (keeps same_objects (Regional.uploadFile env cfg turns b d f)) as Hk; [|apply Hk].
    unfold Regional.uploadFile. apply keeps_bind; [apply _|keeps_objects|].
    intros [e|file]; [apply keeps_ret, _|].
    apply keeps_bind; [apply _|unfold Inline.session_NewSession; keeps_objects|].
    intros [e|]; [apply keeps_ret, _|].
    apply keeps_bind; [apply _|apply Regional_find_objects|]. intros [[id pn] h].
    apply keeps_bind; [apply _|apply Regional_loop_objects|].
    intros [e|]; [apply keeps_ret, _|keeps_objects].
Qed.
